(** * pageindex-ts: Markdown section scanning, thinning, tree building

    A shallow embedding of the Markdown pipeline of pageindex-ts
    (markdown/parser.ts, markdown/tree.ts, markdown/index.ts, utils/tree.ts,
    utils/json.ts, config.ts) and the properties its specification states.

    Conventions of the embedding.
    - A JavaScript string is a sequence of UTF-16 code units; the embedding
      covers the code units below 256, one [ascii] each, so [String.length]
      is the JS [length].
    - A JavaScript [number] used as an index, a level or a line number is a
      [nat]; token counts and thresholds are [Z].
    - An optional field ([text?: string]) is an [option]; [x || d] and
      truthiness tests are written out at each use.
    - A thrown exception or a rejected promise is the [Err] case of a
      result type. *)

From Stdlib Require Import ZArith Ascii Lia.
From Stdlib Require String DecimalString DecimalNat.
From stdpp Require Import base list gmap strings sorting.

#[local] Set Warnings "-clear-no-such-hyp,-register-all,-abstract-large-number".

(** ** JavaScript string primitives *)

(** White space as [String.prototype.trim] and the regular expression
    class [\s] see it, among the code units below 256: TAB, LF, VT, FF, CR,
    SPACE and NO-BREAK SPACE. *)
Definition is_ws (c : ascii) : bool :=
  let n := nat_of_ascii c in
  (((9 <=? n) && (n <=? 13)) || (n =? 32) || (n =? 160))%nat.

Definition newline : ascii := ascii_of_nat 10.
Definition nl : string := String newline "".

Definition is_empty (s : string) : bool :=
  match s with "" => true | _ => false end.

(** [s.trimStart()] *)
Fixpoint trimStart (s : string) : string :=
  match s with
  | "" => ""
  | String c r => if is_ws c then trimStart r else s
  end.

(** [s.trimEnd()] *)
Fixpoint trimEnd (s : string) : string :=
  match s with
  | "" => ""
  | String c r =>
      let r' := trimEnd r in
      if is_ws c && is_empty r' then "" else String c r'
  end.

(** [s.trim()] *)
Definition trim (s : string) : string := trimEnd (trimStart s).

(** [s.endsWith(suffix)] *)
Fixpoint endsWith (s suffix : string) : bool :=
  (String.length s =? String.length suffix)%nat && String.eqb s suffix
  || match s with
     | "" => false
     | String _ r => endsWith r suffix
     end.

(** [s.startsWith(p)] *)
Fixpoint startsWith (s p : string) : bool :=
  match p, s with
  | "", _ => true
  | String a p', String b s' => Ascii.eqb a b && startsWith s' p'
  | String _ _, "" => false
  end.

(** [s.split('\n')]: never empty, [""] splits into one empty line. *)
Fixpoint split_lines (s : string) : list string :=
  match s with
  | "" => [""]
  | String c r =>
      if Ascii.eqb c newline then "" :: split_lines r
      else match split_lines r with
           | [] => [String c ""]
           | l :: ls => String c l :: ls
           end
  end.

(** [parts.join(sep)] *)
Fixpoint join (sep : string) (parts : list string) : string :=
  match parts with
  | [] => ""
  | [p] => p
  | p :: ps => p +:+ sep +:+ join sep ps
  end.

(** [lines.slice(start, end)] for non-negative bounds. *)
Definition slice {A} (start stop : nat) (l : list A) : list A :=
  take (stop - start) (drop start l).

(** The code units of [s] that are not white space, in order: what is
    left of a text once layout is ignored. *)
Fixpoint strip_ws (s : string) : string :=
  match s with
  | "" => ""
  | String c r => if is_ws c then strip_ws r else String c (strip_ws r)
  end.

(** ** config.ts *)

(** [estimateTokens(text) = Math.ceil(text.length / 4)] *)
Definition estimateTokens (text : string) : Z :=
  (Z.of_nat (String.length text) + 3) / 4.

(** ** markdown/parser.ts: flat sections *)

(** [interface MarkdownNode] *)
Record MarkdownNode := mkMarkdownNode {
  md_title : string;
  md_lineNum : nat;
  md_level : nat;
  md_text : option string;
  md_textTokenCount : option Z
}.

Definition set_text (n : MarkdownNode) (t : option string) : MarkdownNode :=
  mkMarkdownNode (md_title n) (md_lineNum n) (md_level n) t (md_textTokenCount n).

Definition set_textTokenCount (n : MarkdownNode) (c : option Z) : MarkdownNode :=
  mkMarkdownNode (md_title n) (md_lineNum n) (md_level n) (md_text n) c.

(** [node.text || ''] *)
Definition text_or_empty (n : MarkdownNode) : string := default "" (md_text n).

(** [node.textTokenCount || 0] *)
Definition tokens_or_zero (n : MarkdownNode) : Z := default 0%Z (md_textTokenCount n).

(** The loop of [findAllChildren], from index [i] on: [rest] is the part
    of the list that starts at [i]. *)
Fixpoint findAllChildren_from (i parentLevel : nat) (rest : list MarkdownNode) : list nat :=
  match rest with
  | [] => []
  | n :: r =>
      if (md_level n <=? parentLevel)%nat then []
      else i :: findAllChildren_from (S i) parentLevel r
  end.

(** [findAllChildren(parentIndex, parentLevel, nodeList)] *)
Definition findAllChildren (parentIndex parentLevel : nat) (nodeList : list MarkdownNode) : list nat :=
  findAllChildren_from (S parentIndex) parentLevel (drop (S parentIndex) nodeList).

(** [childrenIndices.sort((a, b) => a - b)] *)
Definition sort_asc (l : list nat) : list nat := merge_sort le l.

(** [Array.from(nodesToRemove).sort((a, b) => b - a)] *)
Definition sort_desc (l : list nat) : list nat := merge_sort (flip le) l.

(** [updateNodeListWithTextTokenCount]: the text of a section followed by
    the non-empty texts of its children, each after a newline. *)
Definition total_text (resultList : list MarkdownNode) (currentNode : MarkdownNode)
    (childrenIndices : list nat) : string :=
  foldl (fun totalText childIndex =>
           match resultList !! childIndex with
           | Some child =>
               match md_text child with
               | Some childText =>
                   if is_empty childText then totalText
                   else totalText +:+ nl +:+ childText
               | None => totalText
               end
           | None => totalText
           end)
        (text_or_empty currentNode) childrenIndices.

Definition count_step (i : nat) (resultList : list MarkdownNode) : list MarkdownNode :=
  match resultList !! i with
  | Some currentNode =>
      let childrenIndices := findAllChildren i (md_level currentNode) resultList in
      let totalText := total_text resultList currentNode childrenIndices in
      <[i := set_textTokenCount currentNode (Some (estimateTokens totalText))]> resultList
  | None => resultList
  end.

(** The backward loop [for (i = k - 1; i >= 0; i--)]. *)
Fixpoint count_loop (k : nat) (resultList : list MarkdownNode) : list MarkdownNode :=
  match k with
  | O => resultList
  | S i => count_loop i (count_step i resultList)
  end.

Definition updateNodeListWithTextTokenCount (nodeList : list MarkdownNode) : list MarkdownNode :=
  count_loop (length nodeList) nodeList.

(** *** Thinning *)

(** The inner loop over the children of an absorbing section: collects the
    texts of the children that are not yet removed and not blank, and
    marks every child removed. *)
Definition collect_children (resultList : list MarkdownNode)
    (acc : list string * gset nat) (childrenIndices : list nat) : list string * gset nat :=
  foldl (fun '(childrenTexts, nodesToRemove) childIndex =>
           if decide (childIndex ∈ nodesToRemove) then (childrenTexts, nodesToRemove)
           else
             let childText := resultList !! childIndex ≫= md_text in
             let childrenTexts' :=
               match childText with
               | Some t => if is_empty (trim t) then childrenTexts else childrenTexts ++ [t]
               | None => childrenTexts
               end in
             (childrenTexts', {[childIndex]} ∪ nodesToRemove))
        acc childrenIndices.

(** The loop that appends the collected texts, separated by a blank line
    unless the text so far is empty or ends with a newline. *)
Definition merge_texts (start : string) (childrenTexts : list string) : string :=
  foldl (fun mergedText childText =>
           (if negb (is_empty mergedText) && negb (endsWith mergedText nl)
            then mergedText +:+ nl +:+ nl else mergedText) +:+ childText)
        start childrenTexts.

(** One iteration of the backward loop of [treeThinningForIndex]. *)
Definition thin_step (minNodeToken : Z) (i : nat)
    (st : list MarkdownNode * gset nat) : list MarkdownNode * gset nat :=
  let '(resultList, nodesToRemove) := st in
  if decide (i ∈ nodesToRemove) then st
  else
    match resultList !! i with
    | None => st
    | Some currentNode =>
        let totalTokens := tokens_or_zero currentNode in
        if (totalTokens <? minNodeToken)%Z then
          let childrenIndices := findAllChildren i (md_level currentNode) resultList in
          let '(childrenTexts, nodesToRemove') :=
            collect_children resultList ([], nodesToRemove) (sort_asc childrenIndices) in
          match childrenTexts with
          | [] => (resultList, nodesToRemove')
          | _ :: _ =>
              let mergedText := merge_texts (text_or_empty currentNode) childrenTexts in
              (<[i := mkMarkdownNode (md_title currentNode) (md_lineNum currentNode)
                        (md_level currentNode) (Some mergedText)
                        (Some (estimateTokens mergedText))]> resultList,
               nodesToRemove')
          end
        else st
    end.

Fixpoint thin_loop (minNodeToken : Z) (k : nat)
    (st : list MarkdownNode * gset nat) : list MarkdownNode * gset nat :=
  match k with
  | O => st
  | S i => thin_loop minNodeToken i (thin_step minNodeToken i st)
  end.

(** [for (const index of indicesToRemove) resultList.splice(index, 1)] *)
Definition splice_all (resultList : list MarkdownNode) (indicesToRemove : list nat) : list MarkdownNode :=
  foldl (fun acc index => delete index acc) resultList indicesToRemove.

(** [treeThinningForIndex(nodeList, minNodeToken)] *)
Definition treeThinningForIndex (nodeList : list MarkdownNode) (minNodeToken : Z) : list MarkdownNode :=
  let '(resultList, nodesToRemove) :=
    thin_loop minNodeToken (length nodeList) (nodeList, ∅) in
  splice_all resultList (sort_desc (elements nodesToRemove)).

(** The concatenation of the text fields of a section list. *)
Definition concat_texts (l : list MarkdownNode) : string :=
  foldr (fun n acc => text_or_empty n +:+ acc) "" l.

(** The sections whose index (counted from [i]) is not in [rm]: what the
    final splice loop leaves. *)
Fixpoint survivors_from (i : nat) (rm : gset nat) (l : list MarkdownNode) : list MarkdownNode :=
  match l with
  | [] => []
  | x :: r =>
      if decide (i ∈ rm) then survivors_from (S i) rm r
      else x :: survivors_from (S i) rm r
  end.

(** The length of the run of sections deeper than [lvl] at the head of
    [rest]: how far [findAllChildren] goes. *)
Fixpoint child_run (lvl : nat) (rest : list MarkdownNode) : nat :=
  match rest with
  | [] => 0
  | n :: r => if (md_level n <=? lvl)%nat then 0 else S (child_run lvl r)
  end.

(** The texts a merge keeps: present and not blank. *)
Definition nonblank_texts (l : list MarkdownNode) : list string :=
  omap (fun n => match md_text n with
                 | Some t => if is_empty (trim t) then None else Some t
                 | None => None
                 end) l.

Definition sec (lvl : nat) (t : string) (tok : Z) : MarkdownNode :=
  mkMarkdownNode t 1 lvl (Some t) (Some tok).


(** *** Header Scanner *)

(** A thrown exception or a rejected promise. *)
Inductive error :=
  | TypeError          (* a property read on [undefined] *)
  | SyntaxError        (* [JSON.parse] on malformed input *)
  | GenerationFailure. (* the injected [llm] function threw or rejected *)

Inductive result (A : Type) :=
  | Ok (a : A)
  | Err (e : error).
Arguments Ok {A} a.
Arguments Err {A} e.

Definition bind {A B} (r : result A) (k : A → result B) : result B :=
  match r with
  | Ok a => k a
  | Err e => Err e
  end.

Fixpoint mapM {A B} (f : A → result B) (l : list A) : result (list B) :=
  match l with
  | [] => Ok []
  | x :: r => bind (f x) (fun y => bind (mapM f r) (fun ys => Ok (y :: ys)))
  end.

(** An entry of the scanner's [nodeList]. *)
Record HeaderRef := mkHeaderRef {
  nodeTitle : string;
  lineNum : nat
}.

Definition hash : ascii := ascii_of_nat 35.
Definition backtick : ascii := ascii_of_nat 96.

(** The characters [.] does not match (without the [s] flag), among the
    code units below 256: LF and CR. *)
Definition is_line_terminator (c : ascii) : bool :=
  let n := nat_of_ascii c in (n =? 10) || (n =? 13).

Fixpoint no_line_terminator (s : string) : bool :=
  match s with
  | "" => true
  | String c r => negb (is_line_terminator c) && no_line_terminator r
  end.

(** [(.+)$] at the end of [headerPattern]: [.+] has to reach the end of
    the input, so it matches the whole rest or fails. *)
Definition match_title (s : string) : option string :=
  if negb (is_empty s) && no_line_terminator s then Some s else None.

(** [\s+(.+)$]: the longest run of white space is tried first and given
    back one code unit at a time. *)
Fixpoint match_space_title (s : string) : option string :=
  match s with
  | "" => None
  | String c r =>
      if is_ws c then
        match match_space_title r with
        | Some t => Some t
        | None => match_title r
        end
      else None
  end.

(** [(#{1,6})\s+(.+)$] with at most [fuel] more [#]: the longest run of
    [#] is tried first. The result is the pair of the captures' contents:
    the number of [#] in group 1 and the text of group 2. *)
Fixpoint match_hashes (fuel : nat) (s : string) : option (nat * string) :=
  match fuel, s with
  | S fuel', String c r =>
      if Ascii.eqb c hash then
        match match_hashes fuel' r with
        | Some (h, t) => Some (S h, t)
        | None => pair 1 <$> match_space_title r
        end
      else None
  | _, _ => None
  end.

(** [s.match(/^(#{1,6})\s+(.+)$/)] *)
Definition headerPattern (s : string) : option (nat * string) := match_hashes 6 s.

(** [/^```/.test(s)] *)
Definition codeBlockPattern (s : string) : bool :=
  startsWith s (String backtick (String backtick (String backtick ""))).

(** The body of the scanning loop for the line numbered [lineNum]. *)
Definition scan_line (lineNum : nat) (line : string)
    (st : bool * list HeaderRef) : bool * list HeaderRef :=
  let '(inCodeBlock, nodeList) := st in
  let strippedLine := trim line in
  if codeBlockPattern strippedLine then (negb inCodeBlock, nodeList)
  else if is_empty strippedLine then st
  else if negb inCodeBlock then
    match headerPattern strippedLine with
    | Some (_, m2) => (inCodeBlock, nodeList ++ [mkHeaderRef (trim m2) lineNum])
    | None => st
    end
  else st.

Fixpoint scan_lines (lineNum : nat) (lines : list string)
    (st : bool * list HeaderRef) : bool * list HeaderRef :=
  match lines with
  | [] => st
  | line :: rest => scan_lines (S lineNum) rest (scan_line lineNum line st)
  end.

(** [extractNodesFromMarkdown(markdownContent)] *)
Definition extractNodesFromMarkdown (markdownContent : string) : list HeaderRef * list string :=
  let lines := split_lines markdownContent in
  ((scan_lines 1 lines (false, [])).2, lines).

(** *** Section Materializer *)

(** [s.match(/^(#{1,6})/)]: the length of group 1, [None] for no match. *)
Fixpoint leading_hashes (fuel : nat) (s : string) : nat :=
  match fuel, s with
  | S fuel', String c r => if Ascii.eqb c hash then S (leading_hashes fuel' r) else 0
  | _, _ => 0
  end.

Definition headerMatch (lineContent : string) : option nat :=
  match leading_hashes 6 lineContent with
  | 0 => None
  | S n => Some (S n)
  end.

(** The first loop of [extractNodeTextContent]. Reading a line that does
    not exist gives [undefined], and [undefined.match] throws. *)
Fixpoint header_nodes (nodeList : list HeaderRef) (markdownLines : list string)
    : result (list MarkdownNode) :=
  match nodeList with
  | [] => Ok []
  | node :: rest =>
      match lineNum node with
      | 0 => Err TypeError
      | S k =>
          match markdownLines !! k with
          | None => Err TypeError
          | Some lineContent =>
              bind (header_nodes rest markdownLines) (fun allNodes =>
                match headerMatch lineContent with
                | None => Ok allNodes
                | Some len =>
                    Ok (mkMarkdownNode (nodeTitle node) (lineNum node) len None None
                          :: allNodes)
                end)
          end
      end
  end.

(** The second loop of [extractNodeTextContent]: each section gets the
    lines from its heading up to the next section's heading. *)
Fixpoint fill_text (markdownLines : list string) (allNodes : list MarkdownNode)
    : list MarkdownNode :=
  match allNodes with
  | [] => []
  | node :: rest =>
      let startLine := md_lineNum node - 1 in
      let endLine :=
        match rest with
        | next :: _ => md_lineNum next - 1
        | [] => length markdownLines
        end in
      set_text node (Some (trim (join nl (slice startLine endLine markdownLines))))
        :: fill_text markdownLines rest
  end.

(** [extractNodeTextContent(nodeList, markdownLines)] *)
Definition extractNodeTextContent (nodeList : list HeaderRef) (markdownLines : list string)
    : result (list MarkdownNode) :=
  bind (header_nodes nodeList markdownLines) (fun allNodes =>
    Ok (fill_text markdownLines allNodes)).

(** ** types.ts: tree nodes *)

(** [interface TreeNode]. The children are [nodes?: TreeNode[]]: absent
    ([None]) and empty ([Some []]) are told apart. *)
Inductive TreeNode := mkTreeNode {
  tn_title : string;
  tn_nodeId : option string;
  tn_startIndex : option nat;
  tn_endIndex : option nat;
  tn_summary : option string;
  tn_prefixSummary : option string;
  tn_text : option string;
  tn_nodes : option (list TreeNode)
}.

Definition set_nodes (t : TreeNode) (ns : option (list TreeNode)) : TreeNode :=
  mkTreeNode (tn_title t) (tn_nodeId t) (tn_startIndex t) (tn_endIndex t)
    (tn_summary t) (tn_prefixSummary t) (tn_text t) ns.

Definition set_nodeId (t : TreeNode) (id : option string) : TreeNode :=
  mkTreeNode (tn_title t) id (tn_startIndex t) (tn_endIndex t)
    (tn_summary t) (tn_prefixSummary t) (tn_text t) (tn_nodes t).

Definition set_summary (t : TreeNode) (s : option string) : TreeNode :=
  mkTreeNode (tn_title t) (tn_nodeId t) (tn_startIndex t) (tn_endIndex t)
    s (tn_prefixSummary t) (tn_text t) (tn_nodes t).

Definition set_prefixSummary (t : TreeNode) (s : option string) : TreeNode :=
  mkTreeNode (tn_title t) (tn_nodeId t) (tn_startIndex t) (tn_endIndex t)
    (tn_summary t) s (tn_text t) (tn_nodes t).

(** [!node.nodes || node.nodes.length === 0] *)
Definition childless (t : TreeNode) : bool :=
  match tn_nodes t with
  | None | Some [] => true
  | Some (_ :: _) => false
  end.

(** A node without its [nodes] key: [const { nodes, ...rest } = node]. *)
Definition without_nodes (t : TreeNode) : TreeNode := set_nodes t None.

(** *** References into a tree

    The builder and the summarizer hold references to node objects that
    are already linked into the tree and mutate them in place. A reference
    to such a node is its path from the root array: the index of a root,
    then child indices. Nodes are only ever appended to a [nodes] array, so
    a path keeps denoting the same object. *)
Definition ref := list nat.

Fixpoint get_node (p : ref) (t : TreeNode) : option TreeNode :=
  match p with
  | [] => Some t
  | i :: p' => cs ← tn_nodes t; c ← cs !! i; get_node p' c
  end.

Definition deref (structure : list TreeNode) (p : ref) : option TreeNode :=
  match p with
  | [] => None
  | i :: p' => t ← structure !! i; get_node p' t
  end.

Fixpoint alter_node (f : TreeNode → TreeNode) (p : ref) (t : TreeNode) : TreeNode :=
  match p with
  | [] => f t
  | i :: p' => set_nodes t (alter (alter_node f p') i <$> tn_nodes t)
  end.

(** The tree after the object behind [p] has been mutated by [f]. *)
Definition mutate (f : TreeNode → TreeNode) (p : ref) (structure : list TreeNode)
    : list TreeNode :=
  match p with
  | [] => structure
  | i :: p' => alter (alter_node f p') i structure
  end.

(** ** utils/tree.ts *)

(** [String(n)] for a non-negative integer. *)
Definition String_of_nat (n : nat) : string :=
  DecimalString.NilEmpty.string_of_uint (Nat.to_uint n).

Fixpoint repeat_char (c : ascii) (n : nat) : string :=
  match n with
  | 0 => ""
  | S n' => String c (repeat_char c n')
  end.

(** [s.padStart(targetLength, c)] for a one-character pad. *)
Definition padStart (s : string) (targetLength : nat) (c : ascii) : string :=
  repeat_char c (targetLength - String.length s) +:+ s.

Definition zero_char : ascii := ascii_of_nat 48.

(** [String(n).padStart(4, '0')] *)
Definition format_id (n : nat) : string := padStart (String_of_nat n) 4 zero_char.

(** [structureToList]: the node itself, then its children's lists, for a
    node; the lists of the items, for an array. *)
Fixpoint structureToList_node (t : TreeNode) : list TreeNode :=
  t :: match t with
       | mkTreeNode _ _ _ _ _ _ _ (Some cs) => flat_map structureToList_node cs
       | mkTreeNode _ _ _ _ _ _ _ None => []
       end.

Definition structureToList (structure : list TreeNode) : list TreeNode :=
  flat_map structureToList_node structure.

(** The references to the nodes [structureToList] returns, in its order:
    [base] is the path of the array that holds the items. *)
Fixpoint node_refs_node (p : ref) (t : TreeNode) : list ref :=
  p :: match t with
       | mkTreeNode _ _ _ _ _ _ _ (Some cs) =>
           (fix go (i : nat) (l : list TreeNode) : list ref :=
              match l with
              | [] => []
              | c :: r => node_refs_node (p ++ [i]) c ++ go (S i) r
              end) 0 cs
       | mkTreeNode _ _ _ _ _ _ _ None => []
       end.

Fixpoint node_refs_from (i : nat) (structure : list TreeNode) : list ref :=
  match structure with
  | [] => []
  | t :: r => node_refs_node [i] t ++ node_refs_from (S i) r
  end.

Definition node_refs (structure : list TreeNode) : list ref :=
  node_refs_from 0 structure.

(** [getLeafNodes] *)
Fixpoint getLeafNodes_node (t : TreeNode) : list TreeNode :=
  match t with
  | mkTreeNode _ _ _ _ _ _ _ (Some ((_ :: _) as cs)) => flat_map getLeafNodes_node cs
  | _ => [without_nodes t]
  end.

Definition getLeafNodes (structure : list TreeNode) : list TreeNode :=
  flat_map getLeafNodes_node structure.

(** [writeNodeId(data, nodeId)]: the tree with the identifiers written,
    and the next identifier. *)
Fixpoint writeNodeId_node (t : TreeNode) (nodeId : nat) : TreeNode * nat :=
  match t with
  | mkTreeNode ttl _ si ei sm ps tx ns =>
      let id := Some (format_id nodeId) in
      match ns with
      | Some cs =>
          let '(cs', next) :=
            (fix go (l : list TreeNode) (n : nat) : list TreeNode * nat :=
               match l with
               | [] => ([], n)
               | c :: r =>
                   let '(c', n1) := writeNodeId_node c n in
                   let '(r', n2) := go r n1 in
                   (c' :: r', n2)
               end) cs (S nodeId) in
          (mkTreeNode ttl id si ei sm ps tx (Some cs'), next)
      | None => (mkTreeNode ttl id si ei sm ps tx None, S nodeId)
      end
  end.

Fixpoint writeNodeId (data : list TreeNode) (nodeId : nat) : list TreeNode * nat :=
  match data with
  | [] => ([], nodeId)
  | item :: rest =>
      let '(item', n1) := writeNodeId_node item nodeId in
      let '(rest', n2) := writeNodeId rest n1 in
      (item' :: rest', n2)
  end.

(** [key in data] for an optional field, then [result[key] = data[key]]. *)
Definition keep {A} (keyOrder : list string) (key : string) (v : option A) : option A :=
  if bool_decide (key ∈ keyOrder) then v else None.

(** [reorderDict(data, keyOrder)]. The order of the keys of an object is
    not part of the embedding; which keys remain is. [title] is the one
    key every [TreeNode] has, and the record keeps it: the definition
    stands for the code at the key orders that list [title], as every
    order [mdToTree] passes does. For an order without [title] the code
    returns an object without a title, which is no [TreeNode]; the
    properties of [formatStructure] are stated for orders that list it. *)
Definition reorderDict (data : TreeNode) (keyOrder : list string) : TreeNode :=
  match keyOrder with
  | [] => data
  | _ =>
      mkTreeNode (tn_title data)
        (keep keyOrder "nodeId" (tn_nodeId data))
        (keep keyOrder "startIndex" (tn_startIndex data))
        (keep keyOrder "endIndex" (tn_endIndex data))
        (keep keyOrder "summary" (tn_summary data))
        (keep keyOrder "prefixSummary" (tn_prefixSummary data))
        (keep keyOrder "text" (tn_text data))
        (keep keyOrder "nodes" (tn_nodes data))
  end.

(** [formatStructure(structure, order)] with an order given. *)
Fixpoint formatStructure_node (order : list string) (t : TreeNode) : TreeNode :=
  match t with
  | mkTreeNode ttl id si ei sm ps tx ns =>
      let nodes' :=
        match ns with
        | Some cs =>
            match map (formatStructure_node order) cs with
            | [] => None
            | cs' => Some cs'
            end
        | None => None
        end in
      reorderDict (mkTreeNode ttl id si ei sm ps tx nodes') order
  end.

Definition formatStructure (structure : list TreeNode) (order : list string) : list TreeNode :=
  map (formatStructure_node order) structure.

(** ** markdown/tree.ts *)

(** The node [buildTreeFromNodes] makes for a section. *)
Definition new_tree_node (nodeCounter : nat) (node : MarkdownNode) : TreeNode :=
  mkTreeNode (md_title node) (Some (format_id nodeCounter)) (Some (md_lineNum node))
    None None None (md_text node) (Some []).

(** [while (stack.length > 0 && stack[stack.length - 1].level >= currentLevel)
    stack.pop()]; the head of the list is the top of the stack. *)
Fixpoint pop_to (currentLevel : nat) (stack : list (ref * nat)) : list (ref * nat) :=
  match stack with
  | [] => []
  | (_, level) :: below =>
      if (currentLevel <=? level)%nat then pop_to currentLevel below else stack
  end.

(** [parent.nodes.push(treeNode)]; every node the builder makes has a
    [nodes] array. *)
Definition push_child (treeNode : TreeNode) (parent : TreeNode) : TreeNode :=
  set_nodes parent ((λ cs, cs ++ [treeNode]) <$> tn_nodes parent).

Record BuildState := mkBuildState {
  rootNodes : list TreeNode;
  stack : list (ref * nat);
  nodeCounter : nat
}.

(** The body of the loop of [buildTreeFromNodes]. *)
Definition build_step (st : BuildState) (node : MarkdownNode) : BuildState :=
  let currentLevel := md_level node in
  let treeNode := new_tree_node (nodeCounter st) node in
  let stack' := pop_to currentLevel (stack st) in
  match stack' with
  | [] =>
      mkBuildState (rootNodes st ++ [treeNode])
        [([length (rootNodes st)], currentLevel)]
        (S (nodeCounter st))
  | (parent, _) :: _ =>
      let siblings :=
        match deref (rootNodes st) parent ≫= tn_nodes with
        | Some cs => length cs
        | None => 0
        end in
      mkBuildState (mutate (push_child treeNode) parent (rootNodes st))
        ((parent ++ [siblings], currentLevel) :: stack')
        (S (nodeCounter st))
  end.

(** [buildTreeFromNodes(nodeList)] *)
Definition buildTreeFromNodes (nodeList : list MarkdownNode) : list TreeNode :=
  match nodeList with
  | [] => []
  | _ => rootNodes (foldl build_step (mkBuildState [] [] 1) nodeList)
  end.

(** ** config.ts: options *)

(** [type LLMFunction = (prompt: string) => Promise<string>]: the promise
    resolves with a text or rejects. *)
Definition LLMFunction := string → result string.

(** [Partial<MarkdownOptions>]: every option may be left out. *)
Record MarkdownOptions := mkMarkdownOptions {
  opt_llm : option LLMFunction;
  opt_ifThinning : option bool;
  opt_thinningThreshold : option Z;
  opt_summaryTokenThreshold : option Z;
  opt_ifAddNodeSummary : option bool;
  opt_ifAddDocDescription : option bool;
  opt_ifAddNodeText : option bool;
  opt_ifAddNodeId : option bool
}.

(** [interface ResolvedMarkdownConfig] *)
Record ResolvedMarkdownConfig := mkResolvedMarkdownConfig {
  llm : option LLMFunction;
  ifThinning : bool;
  thinningThreshold : Z;
  summaryTokenThreshold : Z;
  ifAddNodeSummary : bool;
  ifAddDocDescription : bool;
  ifAddNodeText : bool;
  ifAddNodeId : bool
}.

(** [DEFAULT_MARKDOWN_CONFIG] *)
Definition DEFAULT_MARKDOWN_CONFIG : ResolvedMarkdownConfig :=
  mkResolvedMarkdownConfig None false 5000 200 true false false true.

(** [userOptions?.key ?? fallback] *)
Definition option_or {A} (userOptions : option MarkdownOptions)
    (key : MarkdownOptions → option A) (fallback : A) : A :=
  default fallback (userOptions ≫= key).

(** [loadMarkdownConfig(userOptions)] *)
Definition loadMarkdownConfig (userOptions : option MarkdownOptions) : ResolvedMarkdownConfig :=
  mkResolvedMarkdownConfig
    (userOptions ≫= opt_llm)
    (option_or userOptions opt_ifThinning (ifThinning DEFAULT_MARKDOWN_CONFIG))
    (option_or userOptions opt_thinningThreshold (thinningThreshold DEFAULT_MARKDOWN_CONFIG))
    (option_or userOptions opt_summaryTokenThreshold (summaryTokenThreshold DEFAULT_MARKDOWN_CONFIG))
    (option_or userOptions opt_ifAddNodeSummary (ifAddNodeSummary DEFAULT_MARKDOWN_CONFIG))
    (option_or userOptions opt_ifAddDocDescription (ifAddDocDescription DEFAULT_MARKDOWN_CONFIG))
    (option_or userOptions opt_ifAddNodeText (ifAddNodeText DEFAULT_MARKDOWN_CONFIG))
    (option_or userOptions opt_ifAddNodeId (ifAddNodeId DEFAULT_MARKDOWN_CONFIG)).

(** ** markdown/index.ts *)

(** [interface PageIndexResult] *)
Record PageIndexResult := mkPageIndexResult {
  docName : string;
  docDescription : option string;
  structure : list TreeNode
}.

Definition summary_prompt (nodeText : string) : string :=
  "You are given a part of a document, your task is to generate a description of the partial document about what are main points covered in the partial document."
  +:+ nl +:+ nl +:+ "Partial Document Text: " +:+ nodeText
  +:+ nl +:+ nl +:+ "Directly return the description, do not include any other text.".

(** [getNodeSummary(node, summaryTokenThreshold, llm)] *)
Definition getNodeSummary (node : TreeNode) (summaryTokenThreshold : Z)
    (llm : LLMFunction) : result string :=
  let nodeText := default "" (tn_text node) in
  let numTokens := estimateTokens nodeText in
  if (numTokens <? summaryTokenThreshold)%Z then Ok nodeText
  else llm (summary_prompt nodeText).

(** The body of the loop that writes the summaries back: [node] is the
    object itself. *)
Definition assign_summary (s : string) (node : TreeNode) : TreeNode :=
  if childless node then set_summary node (Some s)
  else set_prefixSummary node (Some s).

(** [for (let i = 0; i < nodes.length; i++)]: [nodes[i]] is a reference
    into the tree; a missing [summaries[i]] cannot occur, the two arrays
    have one length. *)
Fixpoint write_summaries (nodes : list ref) (summaries : list string)
    (structure : list TreeNode) : list TreeNode :=
  match nodes, summaries with
  | node :: nodes', s :: summaries' =>
      write_summaries nodes' summaries' (mutate (assign_summary s) node structure)
  | _, _ => structure
  end.

(** [generateSummariesForStructureMd(structure, summaryTokenThreshold, llm)]:
    the tree as the call leaves it, and whether the call returned or threw.
    [await Promise.all(summaryPromises)] rejects as soon as one request
    rejects; nothing has been written to the tree by then. *)
Definition generateSummariesForStructureMd (structure : list TreeNode)
    (summaryTokenThreshold : Z) (llm : LLMFunction) : list TreeNode * result unit :=
  let nodes := node_refs structure in
  let summaryPromises :=
    mapM (fun node => getNodeSummary node summaryTokenThreshold llm)
         (structureToList structure) in
  match summaryPromises with
  | Err e => (structure, Err e)
  | Ok summaries => (write_summaries nodes summaries structure, Ok tt)
  end.

(** The projection of a root node that [generateDocDescription] serializes. *)
Record CleanNode := mkCleanNode {
  cn_title : string;
  cn_nodeId : option string;
  cn_summary : option string;
  cn_prefixSummary : option string
}.

Definition keyOrder : list string :=
  ["title"; "nodeId"; "summary"; "prefixSummary"; "text"; "startIndex"; "nodes"].

(** [keyOrder.filter(k => k !== 'text')] *)
Definition orderWithoutText : list string :=
  filter (λ k, k ≠ "text") keyOrder.

Section Conversion.

(** [JSON.stringify] on the array of projections: a built-in of the
    runtime, taken as a parameter. *)
Variable JSON_stringify : list CleanNode → string.

Definition description_prompt (cleanStructure : list CleanNode) : string :=
  "Your are an expert in generating descriptions for a document."
  +:+ nl +:+ "You are given a structure of a document. Your task is to generate a one-sentence description for the document, which makes it easy to distinguish the document from other documents."
  +:+ nl +:+ "    " +:+ nl +:+ "Document Structure: " +:+ JSON_stringify cleanStructure
  +:+ nl +:+ nl +:+ "Directly return the description, do not include any other text.".

(** [generateDocDescription(structure, llm)] *)
Definition generateDocDescription (structure : list TreeNode) (llm : LLMFunction)
    : result string :=
  let cleanStructure :=
    map (λ node, mkCleanNode (tn_title node) (tn_nodeId node)
                   (tn_summary node) (tn_prefixSummary node)) structure in
  llm (description_prompt cleanStructure).

(** [mdToTree], the steps up to the thinning: the flat sections the tree
    is built from. *)
Definition sections_of (content : string) (config : ResolvedMarkdownConfig)
    : result (list MarkdownNode) :=
  let '(nodeList, lines) := extractNodesFromMarkdown content in
  bind (extractNodeTextContent nodeList lines) (fun nodesWithContent =>
  Ok (if ifThinning config then
        treeThinningForIndex (updateNodeListWithTextTokenCount nodesWithContent)
          (thinningThreshold config)
      else nodesWithContent)).

(** [mdToTree], the steps "Build tree" and "Add node IDs". *)
Definition tree_of (content : string) (config : ResolvedMarkdownConfig)
    : result (list TreeNode) :=
  bind (sections_of content config) (fun nodesWithContent =>
  let treeStructure := buildTreeFromNodes nodesWithContent in
  Ok (if ifAddNodeId config then (writeNodeId treeStructure 0).1 else treeStructure)).

(** [mdToTree], the step "Generate summaries if requested and LLM
    provided", with its [else] branch. *)
Definition summarize (config : ResolvedMarkdownConfig) (treeStructure : list TreeNode)
    : result (list TreeNode) :=
  match ifAddNodeSummary config, llm config with
  | true, Some llm =>
      let treeStructure := formatStructure treeStructure keyOrder in
      let '(treeStructure, outcome) :=
        generateSummariesForStructureMd treeStructure
          (summaryTokenThreshold config) llm in
      bind outcome (fun _ =>
        Ok (if ifAddNodeText config then treeStructure
            else formatStructure treeStructure orderWithoutText))
  | _, _ =>
      let order := if ifAddNodeText config then keyOrder else orderWithoutText in
      Ok (formatStructure treeStructure order)
  end.

(** [mdToTree], the step "Add document description if requested". *)
Definition describe (config : ResolvedMarkdownConfig) (treeStructure : list TreeNode)
    : result (option string) :=
  match ifAddDocDescription config && ifAddNodeSummary config, llm config with
  | true, Some llm =>
      bind (generateDocDescription treeStructure llm) (fun d => Ok (Some d))
  | _, _ => Ok None
  end.

(** [mdToTree(content, docName, options)]: [Ok] when the promise resolves,
    [Err] when it rejects. *)
Definition mdToTree (content docName : string) (options : option MarkdownOptions)
    : result PageIndexResult :=
  let config := loadMarkdownConfig options in
  bind (tree_of content config) (fun treeStructure =>
  bind (summarize config treeStructure) (fun treeStructure =>
  bind (describe config treeStructure) (fun description =>
  Ok (mkPageIndexResult docName description treeStructure)))).

End Conversion.

(** ** utils/json.ts *)

(** [s.indexOf(pat)]: [None] stands for [-1]. *)
Fixpoint indexOf (s pat : string) : option nat :=
  if startsWith s pat then Some 0
  else match s with
       | "" => None
       | String _ r => S <$> indexOf r pat
       end.

(** [s.lastIndexOf(pat)]: [None] stands for [-1]. *)
Fixpoint lastIndexOf (s pat : string) : option nat :=
  match s with
  | "" => if is_empty pat then Some 0 else None
  | String _ r =>
      match lastIndexOf r pat with
      | Some k => Some (S k)
      | None => if startsWith s pat then Some 0 else None
      end
  end.

(** [s.substring(n)] *)
Fixpoint substring_from (n : nat) (s : string) : string :=
  match n, s with
  | S n', String _ r => substring_from n' r
  | _, _ => s
  end.

(** [s.substring(0, n)] for [n >= 0] *)
Fixpoint substring_to (n : nat) (s : string) : string :=
  match n, s with
  | S n', String c r => String c (substring_to n' r)
  | _, _ => ""
  end.

(** [s.substring(0, endIdx)] with [endIdx] the result of a search: a
    negative end is taken as 0. *)
Definition substring_to_index (endIdx : option nat) (s : string) : string :=
  match endIdx with
  | Some n => substring_to n s
  | None => ""
  end.

(** [s.replace(/None/g, 'null')] *)
Fixpoint replace_None (s : string) : string :=
  match s with
  | String "N" (String "o" (String "n" (String "e" r))) => "null" +:+ replace_None r
  | String c r => String c (replace_None r)
  | "" => ""
  end.

(** [s.replace(/\n/g, ' ').replace(/\r/g, ' ')] *)
Fixpoint replace_newlines (s : string) : string :=
  match s with
  | "" => ""
  | String c r =>
      String (if is_line_terminator c then " "%char else c) (replace_newlines r)
  end.

(** [s.split(/\s+/).join(' ')]: every maximal run of white space becomes
    one space. [in_run] tells that the previous code unit was white space. *)
Fixpoint collapse_ws (in_run : bool) (s : string) : string :=
  match s with
  | "" => ""
  | String c r =>
      if is_ws c then
        if in_run then collapse_ws true r else String " " (collapse_ws true r)
      else String c (collapse_ws false r)
  end.

(** [\s*] followed by [close], at the head of [s]: what follows the match. *)
Fixpoint match_ws_then (close : ascii) (s : string) : option string :=
  match s with
  | "" => None
  | String c r =>
      if Ascii.eqb c close then Some r
      else if is_ws c then match_ws_then close r
      else None
  end.

(** [s.replace(/,\s*]/g, ']')] and [s.replace(/,\s*}/g, '}')], for [close]
    the closing bracket: the scan resumes behind each match. [fuel] bounds
    the number of code units read. *)
Fixpoint strip_comma_before (close : ascii) (fuel : nat) (s : string) : string :=
  match fuel, s with
  | S fuel', String c r =>
      if Ascii.eqb c ","%char then
        match match_ws_then close r with
        | Some rest => String close (strip_comma_before close fuel' rest)
        | None => String c (strip_comma_before close fuel' r)
        end
      else String c (strip_comma_before close fuel' r)
  | _, _ => s
  end.

Definition strip_trailing_commas (close : ascii) (s : string) : string :=
  strip_comma_before close (String.length s) s.

Definition fence : string := String backtick (String backtick (String backtick "")).
Definition fence_json : string := fence +:+ "json".

(** [try { body } catch { handler }] *)
Definition try_catch {A} (body : result A) (handler : error → result A) : result A :=
  match body with
  | Ok a => Ok a
  | Err e => handler e
  end.

Section ExtractJson.

(** The values [JSON.parse] returns, the empty object [{}] among them,
    and [JSON.parse] itself, which returns a value or throws: built-ins of
    the runtime, taken as parameters. *)
Variable JsonValue : Type.
Variable empty_object : JsonValue.
Variable JSON_parse : string → result JsonValue.

(** The text the first attempt parses. *)
Definition first_attempt_text (content : string) : string :=
  let jsonContent :=
    match indexOf content fence_json with
    | Some startIdx =>
        let afterStart := substring_from (startIdx + 7) content in
        let endIdx := lastIndexOf afterStart fence in
        trim (substring_to_index endIdx afterStart)
    | None => trim content
    end in
  let jsonContent := replace_newlines (replace_None jsonContent) in
  collapse_ws false jsonContent.

(** The text the retry parses. *)
Definition retry_text (content : string) : string :=
  let jsonContent :=
    strip_trailing_commas "}" (strip_trailing_commas "]" content) in
  match indexOf jsonContent fence_json with
  | Some startIdx =>
      let afterStart := substring_from (startIdx + 7) jsonContent in
      let endIdx := lastIndexOf afterStart fence in
      trim (substring_to_index endIdx afterStart)
  | None => jsonContent
  end.

(** [extractJson(content)]; the [console.error] of the last handler writes
    a log line and is left out. *)
Definition extractJson (content : string) : result JsonValue :=
  try_catch (JSON_parse (first_attempt_text content))
    (fun _ =>
       try_catch (JSON_parse (retry_text content))
         (fun _ => Ok empty_object)).

End ExtractJson.

(** ** Vocabulary of the properties *)

Definition concat_strings (l : list string) : string :=
  foldr String.append "" l.

(** What holds of the list and of the set of marked indices once the
    indices from [k] up have been visited. *)
Record thin_inv (T : Z) (l0 : list MarkdownNode) (k : nat)
    (l : list MarkdownNode) (rm : gset nat) : Prop := {
  ti_levels : md_level <$> l = md_level <$> l0;
  ti_range : ∀ x, x ∈ rm → k ≤ x < length l0;
  ti_big : ∀ a n c, k ≤ a → a ∉ rm → l !! a = Some n →
     (tokens_or_zero n < T)%Z → c ∈ findAllChildren a (md_level n) l0 → c ∈ rm;
  ti_cover : ∀ x, x ∈ rm → ∃ a na, a < x ∧ l0 !! a = Some na ∧
     ∀ y, a < y ≤ x → y ∈ rm ∧ ∃ ny, l0 !! y = Some ny ∧ md_level na < md_level ny;
  ti_text : strip_ws (concat_texts (survivors_from 0 rm l))
            = strip_ws (concat_texts l0)
}.

(** The property the specification words for thinning: the surviving
    texts, concatenated, are the original texts, concatenated. *)
Definition thinning_keeps_concatenation (l : list MarkdownNode) (T : Z) : Prop :=
  concat_texts (treeThinningForIndex l T) = concat_texts l.

Definition two_small_sections : list MarkdownNode :=
  [mkMarkdownNode "A" 1 1 (Some "# A") (Some 2%Z);
   mkMarkdownNode "B" 2 2 (Some "## B") (Some 1%Z)].

Definition three_sections : list MarkdownNode :=
  [mkMarkdownNode "A" 1 1 (Some "# A long enough") (Some 9%Z);
   mkMarkdownNode "B" 2 2 (Some "## B is long as well") (Some 5%Z);
   mkMarkdownNode "C" 3 3 (Some "### C") (Some 2%Z)].

(** The children of a node, none when the [nodes] key is absent. *)
Definition kids (t : TreeNode) : list TreeNode :=
  match tn_nodes t with
  | Some cs => cs
  | None => []
  end.

(** Reading an identifier back as a number: leading zeros do not count. *)
Definition parse_id (s : string) : option nat :=
  Nat.of_uint <$> DecimalString.NilEmpty.uint_of_string s.

(** A node's own fields, its children left aside. *)
Definition own (t : TreeNode) : TreeNode := without_nodes t.

(** [spine_node p t]: [p] leads from [t] down its last children to a node
    that has a [nodes] array. *)
Fixpoint spine_node (p : ref) (t : TreeNode) : Prop :=
  match p with
  | [] => is_Some (tn_nodes t)
  | i :: p' => ∃ cs c, tn_nodes t = Some (cs ++ [c]) ∧ i = length cs ∧ spine_node p' c
  end.

(** [spine F p]: [p] refers to a node on the rightmost branch of [F]. *)
Definition spine (F : list TreeNode) (p : ref) : Prop :=
  match p with
  | [] => False
  | i :: p' => ∃ F' t, F = F' ++ [t] ∧ i = length F' ∧ spine_node p' t
  end.

(** The stack of the builder holds references to nodes of the rightmost
    branch, the deepest on top. *)
Fixpoint stack_ok (F : list TreeNode) (stk : list (ref * nat)) : Prop :=
  match stk with
  | [] => True
  | (p, _) :: below =>
      spine F p ∧ Forall (λ e, length e.1 < length p) below ∧ stack_ok F below
  end.

(** The nodes the builder makes for a section list, children aside, the
    counter starting at [c]. *)
Fixpoint expected_from (c : nat) (l : list MarkdownNode) : list TreeNode :=
  match l with
  | [] => []
  | n :: r => own (new_tree_node c n) :: expected_from (S c) r
  end.

(** [nodewise R F G]: [F] and [G] have the same nodes in pre-order, the
    fields of corresponding nodes related by [R], and the same nodes are
    childless. *)
Definition nodewise (R : TreeNode → TreeNode → Prop) (F G : list TreeNode) : Prop :=
  Forall2 (λ t t', R t t' ∧ childless t' = childless t)
    (structureToList F) (structureToList G).

(** A node that [f] may have been applied to: its own fields are as they
    were or as [f] leaves them. *)
Definition touched (f : TreeNode → TreeNode) (t t' : TreeNode) : Prop :=
  own t' = own t ∨ own t' = own (f t).

(** Line numbers that increase strictly and stay in [lo, hi). *)
Fixpoint ascending_from (lo hi : nat) (l : list nat) : Prop :=
  match l with
  | [] => True
  | x :: r => lo ≤ x < hi ∧ ascending_from (S x) hi r
  end.

(** The fields the later passes leave alone. *)
Definition same_fields (t t' : TreeNode) : Prop :=
  tn_title t' = tn_title t ∧ tn_nodeId t' = tn_nodeId t
  ∧ tn_startIndex t' = tn_startIndex t.

Definition no_summaries (t : TreeNode) : Prop :=
  tn_summary t = None ∧ tn_prefixSummary t = None.

(** A node with children carries no [summary], a childless node no
    [prefixSummary]. *)
Definition summary_fits (t : TreeNode) : Prop :=
  (childless t = false → tn_summary t = None)
  ∧ (childless t = true → tn_prefixSummary t = None).

Definition sample_document : string :=
  "# A" +:+ nl +:+ "text1" +:+ nl +:+ "## B" +:+ nl +:+ "text2"
  +:+ nl +:+ "## C" +:+ nl +:+ "text3".

Definition constant_llm : LLMFunction := λ _, Ok "a summary".
Definition failing_llm : LLMFunction := λ _, Err GenerationFailure.
Definition no_stringify : list CleanNode → string := λ _, "".

Definition options_with (f : option LLMFunction) (summaryThreshold : option Z)
    (addText addId : option bool) : option MarkdownOptions :=
  Some (mkMarkdownOptions f None None summaryThreshold None None addText addId).

(** The claim C3 makes: without an [llm] function and with summaries
    enabled, the conversion fails. *)
Definition fails_fast_without_llm (content name : string)
    (options : option MarkdownOptions) : Prop :=
  llm (loadMarkdownConfig options) = None →
  ifAddNodeSummary (loadMarkdownConfig options) = true →
  ∃ e, mdToTree no_stringify content name options = Err e.

(** The texts of a list of nodes, concatenated. *)
Definition concat_node_texts (l : list TreeNode) : string :=
  foldr (λ t acc, default "" (tn_text t) +:+ acc) "" l.

(** The text of every node, in pre-order, and of every leaf, in pre-order. *)
Definition all_text (F : list TreeNode) : string :=
  concat_node_texts (structureToList F).
Definition leaf_text (F : list TreeNode) : string :=
  concat_node_texts (getLeafNodes F).

(** The document from the line of its first recognized heading on. *)
Definition content_from_first_heading (content : string) : string :=
  let '(nodeList, lines) := extractNodesFromMarkdown content in
  match nodeList with
  | [] => ""
  | h :: _ => join nl (drop (lineNum h - 1) lines)
  end.

(** The raw line of a recognized heading starts with [#]. *)
Definition heading_unindented (lines : list string) (h : HeaderRef) : bool :=
  match lineNum h with
  | 0 => false
  | S k =>
      match lines !! k with
      | Some line => startsWith line "#"
      | None => false
      end
  end.

Definition headings_unindented (content : string) : bool :=
  let '(nodeList, lines) := extractNodesFromMarkdown content in
  forallb (heading_unindented lines) nodeList.

(** The claim C2 makes, white space aside: the texts of the leaves alone
    hold the document from its first heading on. *)
Definition leaves_cover_document (content : string) (r : PageIndexResult) : Prop :=
  strip_ws (leaf_text (structure r)) = strip_ws (content_from_first_heading content).

Definition indented_heading_document : string :=
  "  # Title" +:+ nl +:+ "body".

(** The number of [#] at the head of a line. *)
Fixpoint count_hashes (s : string) : nat :=
  match s with
  | String c r => if Ascii.eqb c hash then S (count_hashes r) else 0
  | "" => 0
  end.

(** The line a recognized heading stands on is a heading line: trimmed, it
    matches the header pattern, and the title is the trimmed second group. *)
Definition recognized (lines : list string) (h : HeaderRef) : Prop :=
  ∃ line k m2, lines !! (lineNum h - 1) = Some line ∧ 1 ≤ lineNum h
    ∧ headerPattern (trim line) = Some (k, m2) ∧ nodeTitle h = trim m2.

(** A flat section that stands for a recognized heading: same title, same
    line, and as level the number of [#] at the head of that line. *)
Definition section_of_heading (lines : list string) (h : HeaderRef) (s : MarkdownNode) : Prop :=
  md_title s = nodeTitle h ∧ md_lineNum s = lineNum h
  ∧ ∃ line, lines !! (lineNum h - 1) = Some line
      ∧ md_level s = count_hashes line ∧ 1 ≤ md_level s ≤ 6.

(** The references to the nodes of the children [cs] of the node at [p],
    the first child being the [i]-th: the inner loop of [node_refs_node]. *)
Fixpoint child_refs (p : ref) (i : nat) (cs : list TreeNode) : list ref :=
  match cs with
  | [] => []
  | c :: r => node_refs_node (p ++ [i]) c ++ child_refs p (S i) r
  end.

(** The summarizer has written the field that fits the node: [summary] on
    a childless node, [prefixSummary] on a node with children. *)
Definition summary_written (t : TreeNode) : Prop :=
  if childless t then is_Some (tn_summary t) else is_Some (tn_prefixSummary t).

(** The separator of a merge: a blank line. *)
Definition blank_line : string := nl +:+ nl.

(** A text as the Materializer makes it, for what a merge looks at: not
    blank, and not ending with a newline. *)
Definition solid (t : string) : Prop :=
  is_empty (trim t) = false ∧ endsWith t nl = false.

Definition solid_section (n : MarkdownNode) : Prop :=
  ∃ t, md_text n = Some t ∧ solid t.

(** [merged_in_groups l l']: the sections of [l'] hold the texts of [l],
    cut into consecutive groups that are not empty, each group joined by
    blank lines into the text of one section. *)
Definition merged_in_groups (l l' : list MarkdownNode) : Prop :=
  ∃ groups : list (list string),
    concat groups = text_or_empty <$> l
    ∧ Forall2 (λ g n, g ≠ [] ∧ Forall solid g ∧ md_text n = Some (join blank_line g))
        groups l'.

(** ** utils/tree.ts and markdown/tree.ts: the other tree utilities *)

(** [getNodes]: every node without its [nodes] key, the node itself first,
    then the nodes below it. *)
Fixpoint getNodes_node (t : TreeNode) : list TreeNode :=
  without_nodes t
  :: match t with
     | mkTreeNode _ _ _ _ _ _ _ (Some children) => flat_map getNodes_node children
     | mkTreeNode _ _ _ _ _ _ _ None => []
     end.

Definition getNodes (structure : list TreeNode) : list TreeNode :=
  flat_map getNodes_node structure.

(** [findNode], the local function of [isLeafNode]: the node itself if it
    carries the identifier, else the search goes on in its [nodes]; in an
    array, the first item the search succeeds in. *)
Fixpoint findNode_node (nodeId : string) (t : TreeNode) : option TreeNode :=
  match t with
  | mkTreeNode ttl id si ei sm ps tx ns =>
      if bool_decide (id = Some nodeId) then Some t
      else match ns with
           | Some cs =>
               (fix go (l : list TreeNode) : option TreeNode :=
                  match l with
                  | [] => None
                  | item :: rest =>
                      match findNode_node nodeId item with
                      | Some found => Some found
                      | None => go rest
                      end
                  end) cs
           | None => None
           end
  end.

Fixpoint findNode (nodeId : string) (structure : list TreeNode) : option TreeNode :=
  match structure with
  | [] => None
  | item :: rest =>
      match findNode_node nodeId item with
      | Some found => Some found
      | None => findNode nodeId rest
      end
  end.

(** [isLeafNode(data, nodeId)] for an array [data]. *)
Definition isLeafNode (data : list TreeNode) (nodeId : string) : bool :=
  match findNode nodeId data with
  | Some node => childless node
  | None => false
  end.

(** [isLeafNode(data, nodeId)] for a single node [data]. *)
Definition isLeafNode_node (data : TreeNode) (nodeId : string) : bool :=
  match findNode_node nodeId data with
  | Some node => childless node
  | None => false
  end.

(** [removeStructureText(data)]: the tree as the call leaves it. *)
Fixpoint removeStructureText_node (t : TreeNode) : TreeNode :=
  match t with
  | mkTreeNode ttl id si ei sm ps _ ns =>
      mkTreeNode ttl id si ei sm ps None
        match ns with
        | Some cs => Some (map removeStructureText_node cs)
        | None => None
        end
  end.

Definition removeStructureText (data : list TreeNode) : list TreeNode :=
  map removeStructureText_node data.

(** [!fields.includes(key)], then [result[key] = value]. *)
Definition unless_listed {A} (fields : list string) (key : string) (v : option A)
    : option A :=
  if bool_decide (key ∈ fields) then None else v.

(** [removeFields(data, fields)], for a list [fields] that does not name
    [title], which a [TreeNode] always has. *)
Fixpoint removeFields_node (fields : list string) (t : TreeNode) : TreeNode :=
  match t with
  | mkTreeNode ttl id si ei sm ps tx ns =>
      mkTreeNode ttl
        (unless_listed fields "nodeId" id)
        (unless_listed fields "startIndex" si)
        (unless_listed fields "endIndex" ei)
        (unless_listed fields "summary" sm)
        (unless_listed fields "prefixSummary" ps)
        (unless_listed fields "text" tx)
        (unless_listed fields "nodes"
           match ns with
           | Some cs => Some (map (removeFields_node fields) cs)
           | None => None
           end)
  end.

Definition removeFields (data : list TreeNode) (fields : list string) : list TreeNode :=
  map (removeFields_node fields) data.

(** [cleanTreeForOutput(treeNodes)] *)
Fixpoint cleanTreeForOutput_node (node : TreeNode) : TreeNode :=
  match node with
  | mkTreeNode ttl id si _ _ _ tx ns =>
      mkTreeNode ttl id si None None None tx
        match ns with
        | Some ((_ :: _) as cs) => Some (map cleanTreeForOutput_node cs)
        | _ => None
        end
  end.

Definition cleanTreeForOutput (treeNodes : list TreeNode) : list TreeNode :=
  map cleanTreeForOutput_node treeNodes.

(** [''.repeat(n)] for a text. *)
Fixpoint repeat_string (s : string) (n : nat) : string :=
  match n with
  | 0 => ""
  | S n' => s +:+ repeat_string s n'
  end.

(** [printToc(tree, indent)]: the lines written to the console, in order. *)
Fixpoint printToc_node (indent : nat) (node : TreeNode) : list string :=
  match node with
  | mkTreeNode ttl _ _ _ _ _ _ ns =>
      (repeat_string "  " indent +:+ ttl)
      :: match ns with
         | Some cs => flat_map (printToc_node (S indent)) cs
         | None => []
         end
  end.

Definition printToc (tree : list TreeNode) (indent : nat) : list string :=
  flat_map (printToc_node indent) tree.


(** A node without its [text] key: [delete node.text]. *)
Definition without_text (t : TreeNode) : TreeNode :=
  mkTreeNode (tn_title t) (tn_nodeId t) (tn_startIndex t) (tn_endIndex t)
    (tn_summary t) (tn_prefixSummary t) None (tn_nodes t).

(** The keys [cleanTreeForOutput] copies, and [nodes]. *)
Definition cleanOrder : list string :=
  ["title"; "nodeId"; "text"; "startIndex"; "nodes"].


(** A text that holds white space only. *)
Fixpoint all_ws (s : string) : bool :=
  match s with
  | "" => true
  | String c r => is_ws c && all_ws r
  end.

(** The line of a recognized heading, trimmed, is a run of one to six [#],
    then white space, then the title; the title is not empty, has no white
    space at its ends and no line terminator inside. *)
Definition heading_shape (lines : list string) (h : HeaderRef) : Prop :=
  ∃ line k ws,
    lines !! (lineNum h - 1) = Some line ∧ 1 ≤ lineNum h
    ∧ trim line = repeat_char hash k +:+ ws +:+ nodeTitle h
    ∧ 1 ≤ k ≤ 6
    ∧ is_empty ws = false ∧ all_ws ws = true
    ∧ is_empty (nodeTitle h) = false
    ∧ trim (nodeTitle h) = nodeTitle h
    ∧ no_line_terminator (nodeTitle h) = true.


(** A line that opens or closes a fenced code block for the scanner. *)
Definition is_fence_line (line : string) : bool := codeBlockPattern (trim line).

(** The number of fence lines in a list of lines is even: every fenced
    block is closed. *)
Definition fences_closed (lines : list string) : Prop :=
  Nat.even (length (filter (λ line, is_fence_line line = true) lines)) = true.


(** The code units a child adds to the total text of a section above it:
    a newline and its text, nothing when its text is absent or empty. *)
Definition text_weight (child : option MarkdownNode) : nat :=
  match child ≫= md_text with
  | Some childText => if is_empty childText then 0 else S (String.length childText)
  | None => 0
  end.

Definition added_weight (l : list MarkdownNode) (childrenIndices : list nat) : nat :=
  foldr (λ childIndex acc, text_weight (l !! childIndex) + acc) 0 childrenIndices.

(** The section at index [i] with the token count that
    [updateNodeListWithTextTokenCount] gives it in the list [l]. *)
Definition with_count (l : list MarkdownNode) (i : nat) (n : MarkdownNode) : MarkdownNode :=
  set_textTokenCount n
    (Some (estimateTokens (total_text l n (findAllChildren i (md_level n) l)))).


(** What identifies a section: its title, its line and its level. *)
Definition heading_of (n : MarkdownNode) : string * nat * nat :=
  (md_title n, md_lineNum n, md_level n).


(** The node [t] with the trees [G] pushed onto its [nodes] array, and
    the tree [F] after the same has been done to the node behind [p]. *)
Definition graft_node (G : list TreeNode) (t : TreeNode) : TreeNode :=
  set_nodes t ((λ cs, cs ++ G) <$> tn_nodes t).

Definition graft (p : ref) (G F : list TreeNode) : list TreeNode :=
  mutate (graft_node G) p F.

(** The tree of a section list, told by recursion on the list: a section
    becomes a node, the sections that follow it up to the next section
    that is not deeper become the trees below it, and the rest follows as
    its siblings. [c] is the number of the first section; [fuel] bounds
    the length of the list. *)
Fixpoint forest_of (fuel c : nat) (l : list MarkdownNode) : list TreeNode :=
  match fuel, l with
  | S fuel', n :: rest =>
      let k := child_run (md_level n) rest in
      set_nodes (new_tree_node c n) (Some (forest_of fuel' (S c) (take k rest)))
      :: forest_of fuel' (S c + k) (drop k rest)
  | _, _ => []
  end.


(** [getJsonContent(response)] *)
Definition getJsonContent (response : string) : string :=
  let content := response in
  let content :=
    match indexOf content fence_json with
    | Some startIdx => substring_from (startIdx + 7) content
    | None => content
    end in
  let content :=
    match lastIndexOf content fence with
    | Some endIdx => substring_to endIdx content
    | None => content
    end in
  trim content.

(** A text without any backtick: it holds no fence. *)
Fixpoint no_backtick (s : string) : bool :=
  match s with
  | "" => true
  | String c r => negb (Ascii.eqb c backtick) && no_backtick r
  end.

(** White space as [JSON.parse] is shown it by the first attempt of
    [extractJson]: single spaces only, never two in a row; [after_space]
    tells that the code unit before was a space. *)
Fixpoint single_spaced (after_space : bool) (s : string) : bool :=
  match s with
  | "" => true
  | String c r =>
      if Ascii.eqb c " " then negb after_space && single_spaced true r
      else negb (is_ws c) && single_spaced false r
  end.


(** ** utils/json.ts: page numbers and physical indices *)

(** [\d] *)
Definition is_digit (c : ascii) : bool :=
  let n := nat_of_ascii c in ((48 <=? n) && (n <=? 57))%nat.

Definition digit_value (c : ascii) : N := N.of_nat (nat_of_ascii c - 48).

(** The longest run of decimal digits at the head of [s]. *)
Fixpoint take_digits (s : string) : string :=
  match s with
  | "" => ""
  | String c r => if is_digit c then String c (take_digits r) else ""
  end.

(** The integer a run of decimal digits denotes. *)
Fixpoint digits_value_from (acc : N) (s : string) : N :=
  match s with
  | "" => acc
  | String c r => digits_value_from (10 * acc + digit_value c) r
  end.

Definition digits_value (s : string) : N := digits_value_from 0 s.

(** [s.match(/physical_index_(\d+)/)]: the content of group 1 for the
    leftmost match, [None] for no match. *)
Fixpoint match_physical_index (s : string) : option string :=
  let here :=
    if startsWith s "physical_index_" then
      let digits := take_digits (substring_from 15 s) in
      if is_empty digits then None else Some digits
    else None in
  match here with
  | Some digits => Some digits
  | None =>
      match s with
      | "" => None
      | String _ r => match_physical_index r
      end
  end.

Section Numbers.

(** The Number values of the runtime, taken as parameters: [NaN]; the
    Number value [parseInt] returns for a sign and the integer its digits
    denote (the integer itself up to 2^53, and the nearest Number beyond);
    and [isNaN]. *)
Variable Number : Type.
Variable NaN : Number.
Variable number_of : bool → N → Number.
Variable isNaN : Number → bool.

(** [parseInt(s, 10)]: leading white space, a sign, then the longest run
    of decimal digits. *)
Definition parseInt (s : string) : Number :=
  let s := trimStart s in
  let '(negative, s) :=
    match s with
    | String "-" r => (true, r)
    | String "+" r => (false, r)
    | _ => (false, s)
    end in
  let digits := take_digits s in
  if is_empty digits then NaN else number_of negative (digits_value digits).

(** [page?: string | number] *)
Inductive PageValue :=
  | PageString (s : string)
  | PageNumber (x : Number).

(** An item with an optional [page]; [pg_rest] stands for its other
    properties. *)
Record PagedItem (A : Type) := mkPagedItem {
  pg_page : option PageValue;
  pg_rest : A
}.
Arguments mkPagedItem {A}.
Arguments pg_page {A}.
Arguments pg_rest {A}.

(** [convertPageToInt(data)] *)
Definition convertPageToInt {A} (data : list (PagedItem A)) : list (PagedItem A) :=
  map (λ item,
         match pg_page item with
         | Some (PageString s) =>
             let parsed := parseInt s in
             if negb (isNaN parsed)
             then mkPagedItem (Some (PageNumber parsed)) (pg_rest item)
             else item
         | _ => item
         end) data.

(** [string | number | null]; [undefined] is the absent value. *)
Inductive IndexValue :=
  | IndexString (s : string)
  | IndexNumber (x : Number)
  | IndexNull.

Record IndexedItem (A : Type) := mkIndexedItem {
  ix_physicalIndex : option IndexValue;
  ix_rest : A
}.
Arguments mkIndexedItem {A}.
Arguments ix_physicalIndex {A}.
Arguments ix_rest {A}.

(** [convertPhysicalIndexToInt(data)] *)
Definition convertPhysicalIndexToInt {A} (data : list (IndexedItem A))
    : list (IndexedItem A) :=
  map (λ item,
         match ix_physicalIndex item with
         | Some (IndexString s) =>
             match match_physical_index s with
             | Some digits =>
                 mkIndexedItem (Some (IndexNumber (parseInt digits))) (ix_rest item)
             | None => item
             end
         | _ => item
         end) data.

(** [parsePhysicalIndex(value)]: [None] is [null]. *)
Definition parsePhysicalIndex (value : option IndexValue) : option Number :=
  match value with
  | None | Some IndexNull => None
  | Some (IndexNumber x) => Some x
  | Some (IndexString s) =>
      match match_physical_index s with
      | Some digits => Some (parseInt digits)
      | None =>
          let parsed := parseInt s in
          if negb (isNaN parsed) then Some parsed else None
      end
  end.

End Numbers.

Arguments PageString {Number}.
Arguments PageNumber {Number}.
Arguments IndexString {Number}.
Arguments IndexNumber {Number}.
Arguments IndexNull {Number}.
Arguments mkPagedItem {Number A}.
Arguments pg_page {Number A}.
Arguments pg_rest {Number A}.
Arguments mkIndexedItem {Number A}.
Arguments ix_physicalIndex {Number A}.
Arguments ix_rest {Number A}.


(** Corresponding nodes both have a [nodes] key, or neither has. *)
Definition same_arrays (t t' : TreeNode) : Prop :=
  tn_nodes t' = None ↔ tn_nodes t = None.

(** The summary a node carries, in the field that fits it. *)
Definition summary_of (t : TreeNode) : option string :=
  if childless t then tn_summary t else tn_prefixSummary t.

(** What [getNodeSummary] returns for a node whose text is below the
    threshold: the text. *)
Definition summarized_by_its_text (t : TreeNode) : Prop :=
  summary_of t = Some (default "" (tn_text t)).

(** A text without any [#]. *)
Fixpoint no_hash (s : string) : bool :=
  match s with
  | "" => true
  | String c r => negb (Ascii.eqb c hash) && no_hash r
  end.

(** What a node and a heading have in common: the title and the line. *)
Definition node_heading (t : TreeNode) : string * option nat :=
  (tn_title t, tn_startIndex t).

Definition scanned_heading (h : HeaderRef) : string * option nat :=
  (nodeTitle h, Some (lineNum h)).


Definition section_heading (n : MarkdownNode) : string * option nat :=
  (md_title n, Some (md_lineNum n)).


(** ** utils/tree.ts: a tree from a table of contents *)

(** [s.split(sep)] for a separator of one character. *)
Fixpoint split_at (sep : ascii) (s : string) : list string :=
  match s with
  | "" => [""]
  | String c r =>
      if Ascii.eqb c sep then "" :: split_at sep r
      else match split_at sep r with
           | [] => [String c ""]
           | l :: ls => String c l :: ls
           end
  end.

Definition dot : ascii := ascii_of_nat 46.

(** [getParentStructure(structure)]: [None] is [null]. *)
Definition getParentStructure (structure : option string) : option string :=
  match structure with
  | None => None
  | Some s =>
      if is_empty s then None
      else
        let parts := split_at dot s in
        if (1 <? length parts)%nat
        then Some (join (String dot "") (removelast parts))
        else None
  end.

(** The properties of a [TocItem] that [listToTree] reads. *)
Record TocItem := mkTocItem {
  toc_structure : option string;
  toc_title : string;
  toc_physicalIndex : option nat
}.

(** The state of the loop of [listToTree]: the root nodes, and the map
    [nodes] from structure codes to node objects. The objects are linked
    into the tree when they are made and only ever get nodes pushed, so
    the map holds references into [rootNodes]. *)
Record ListState := mkListState {
  lt_rootNodes : list TreeNode;
  lt_nodes : gmap string ref
}.

(** The body of the loop. The parent code is shorter than the code
    itself, so that the entry [nodes.set(structure, node)] has just made is
    never the one [nodes.get(parentStructure)] finds. *)
Definition listToTree_step (st : ListState) (item : TocItem) : ListState :=
  let structure := default "" (toc_structure item) in
  let node :=
    mkTreeNode (toc_title item) None (toc_physicalIndex item) None None None None
      (Some []) in
  let parent :=
    match getParentStructure (Some structure) with
    | Some parentStructure =>
        if is_empty parentStructure then None else lt_nodes st !! parentStructure
    | None => None
    end in
  match parent with
  | Some parent =>
      let siblings :=
        match deref (lt_rootNodes st) parent ≫= tn_nodes with
        | Some cs => length cs
        | None => 0
        end in
      mkListState (mutate (push_child node) parent (lt_rootNodes st))
        (<[structure := parent ++ [siblings]]> (lt_nodes st))
  | None =>
      mkListState (lt_rootNodes st ++ [node])
        (<[structure := [length (lt_rootNodes st)]]> (lt_nodes st))
  end.

(** [cleanNode], the local function of [listToTree]. *)
Fixpoint cleanNode (node : TreeNode) : TreeNode :=
  match node with
  | mkTreeNode ttl id si ei sm ps tx ns =>
      mkTreeNode ttl id si ei sm ps tx
        match ns with
        | Some ((_ :: _) as cs) => Some (map cleanNode cs)
        | _ => None
        end
  end.

(** [listToTree(data)] *)
Definition listToTree (data : list TocItem) : list TreeNode :=
  map cleanNode (lt_rootNodes (foldl listToTree_step (mkListState [] ∅) data)).

(** A text without any [.]. *)
Fixpoint no_dot (s : string) : bool :=
  match s with
  | "" => true
  | String c r => negb (Ascii.eqb c dot) && no_dot r
  end.

(** What [listToTree] keeps about its references: each leads to a node
    that has a [nodes] array. *)
Definition refs_valid (st : ListState) : Prop :=
  ∀ code p, lt_nodes st !! code = Some p →
    p ≠ [] ∧ ∃ u, deref (lt_rootNodes st) p = Some u ∧ is_Some (tn_nodes u).


(** *** The heading lines of a document

    What the specification says of the Header Scanner, told of the
    document alone: a line whose trimmed content begins with three
    backticks flips the code-block toggle; a line is a heading if the
    toggle is off and the trimmed line matches the header pattern, one to
    six [#], white space, a title that is not empty. *)

(** The number of fence lines before the line at index [k]. *)
Definition fence_lines_before (lines : list string) (k : nat) : nat :=
  length (filter (λ line, is_fence_line line = true) (take k lines)).

(** The line at index [k] stands inside a fenced code block, or closes
    one: the number of fence lines before it is odd. *)
Definition in_code_block (lines : list string) (k : nat) : bool :=
  Nat.odd (fence_lines_before lines k).

Definition matches_header_pattern (line : string) : bool :=
  match headerPattern (trim line) with
  | Some _ => true
  | None => false
  end.

Definition is_heading_line (lines : list string) (k : nat) : bool :=
  match lines !! k with
  | Some line =>
      negb (is_fence_line line) && negb (in_code_block lines k)
      && matches_header_pattern line
  | None => false
  end.

(** The indices of the heading lines, counted from 0, in document order. *)
Definition heading_lines (lines : list string) : list nat :=
  filter (λ k, is_heading_line lines k = true) (seq 0 (length lines)).

(** No heading line has white space before its [#]. *)
Definition no_indented_heading (lines : list string) : bool :=
  forallb (λ k, match lines !! k with
                | Some line => startsWith line "#"
                | None => false
                end) (heading_lines lines).

(** The indices at which consecutive chunks of lines start, the first
    chunk starting at index [k]. *)
Fixpoint chunk_starts (k : nat) (chunks : list (list string)) : list nat :=
  match chunks with
  | [] => []
  | c :: cs => k :: chunk_starts (k + length c) cs
  end.

(** The lines cut at the indices [starts]: each chunk runs from its start
    up to the next start, the last one to the end of the document. *)
Fixpoint cut_at (lines : list string) (starts : list nat) : list (list string) :=
  match starts with
  | [] => []
  | k :: rest =>
      slice k (match rest with k' :: _ => k' | [] => length lines end) lines
      :: cut_at lines rest
  end.

(** A document with a preamble and a fenced code block. *)
Definition fenced_document : string :=
  "intro" +:+ nl +:+ "# A" +:+ nl +:+ fence +:+ nl +:+ "# not a heading" +:+ nl
  +:+ fence +:+ nl +:+ nl +:+ "## B" +:+ nl +:+ "b".


(** *** Zero-padded identifiers

    The identifiers as the specification tells them, without reference to
    [padStart]: the decimal numeral of the number with zeros in front of
    it up to four digits, "0000", "0001", ..., "9999"; from 10000 on the
    numeral alone. *)
Definition zero_padded (k : nat) : string :=
  (if k <? 10 then "000"
   else if k <? 100 then "00"
   else if k <? 1000 then "0"
   else "") +:+ String_of_nat k.

(** * Properties *)

(** ** Examples *)

Example thinning_ex1 :
  treeThinningForIndex [sec 1 "a" 1; sec 2 "b" 1; sec 2 "c" 1] 5
  = [mkMarkdownNode "a" 1 1 (Some ("a" +:+ nl +:+ nl +:+ "b" +:+ nl +:+ nl +:+ "c")) (Some 2%Z)].
Proof. vm_compute. reflexivity. Qed.

(** ** Strings *)

Lemma string_app_nil_l s : "" +:+ s = s.
Proof. reflexivity. Qed.

Lemma string_app_cons c s t : String c s +:+ t = String c (s +:+ t).
Proof. reflexivity. Qed.

Lemma string_app_nil_r s : s +:+ "" = s.
Proof. induction s as [|c s IH]; [done|]. by rewrite string_app_cons, IH. Qed.

Lemma string_app_assoc s t u : (s +:+ t) +:+ u = s +:+ t +:+ u.
Proof. induction s as [|c s IH]; [done|]. by rewrite !string_app_cons, IH. Qed.

Lemma strip_ws_app s t : strip_ws (s +:+ t) = strip_ws s +:+ strip_ws t.
Proof.
  induction s as [|c s IH]; [done|]. rewrite string_app_cons. simpl.
  destruct (is_ws c); [done|]. by rewrite string_app_cons, IH.
Qed.

Lemma strip_ws_trimStart s : strip_ws (trimStart s) = strip_ws s.
Proof.
  induction s as [|c s IH]; simpl; [done|].
  destruct (is_ws c) eqn:Hc; simpl; [done|]. by rewrite Hc.
Qed.

Lemma strip_ws_trimEnd s : strip_ws (trimEnd s) = strip_ws s.
Proof.
  induction s as [|c s IH]; simpl; [done|].
  destruct (is_ws c) eqn:Hc; simpl.
  - destruct (trimEnd s) eqn:Ht; simpl in *; [done|]. by rewrite Hc.
  - by rewrite Hc, IH.
Qed.

Lemma strip_ws_trim s : strip_ws (trim s) = strip_ws s.
Proof. unfold trim. by rewrite strip_ws_trimEnd, strip_ws_trimStart. Qed.

Lemma strip_ws_blank s : is_empty (trim s) = true → strip_ws s = "".
Proof.
  intros H. rewrite <- strip_ws_trim. by destruct (trim s).
Qed.

Lemma strip_ws_nl : strip_ws nl = "".
Proof. reflexivity. Qed.

(** ** Children of a section *)

Lemma findAllChildren_from_seq i lvl rest :
  findAllChildren_from i lvl rest = seq i (child_run lvl rest).
Proof.
  revert i. induction rest as [|n r IH]; intros i; simpl; [done|].
  destruct (md_level n <=? lvl); simpl; [done|]. by rewrite IH.
Qed.

Lemma findAllChildren_seq i lvl l :
  findAllChildren i lvl l = seq (S i) (child_run lvl (drop (S i) l)).
Proof. apply findAllChildren_from_seq. Qed.

Lemma child_run_le lvl rest : child_run lvl rest ≤ length rest.
Proof.
  induction rest as [|n r IH]; simpl; [lia|].
  destruct (md_level n <=? lvl); simpl; lia.
Qed.

Lemma child_run_spec lvl rest j :
  j < child_run lvl rest ↔
  ∀ y, y ≤ j → ∃ n, rest !! y = Some n ∧ lvl < md_level n.
Proof.
  revert j. induction rest as [|n r IH]; intros j; simpl.
  - split; [lia|]. intros H. destruct (H 0) as (? & ? & ?); [lia|done].
  - destruct (Nat.leb_spec (md_level n) lvl) as [Hle|Hlt].
    + split; [lia|]. intros H. destruct (H 0) as (? & ? & ?); [lia|].
      simplify_eq/=. lia.
    + split.
      * intros Hj [|y] Hy; simpl; [eauto|].
        apply (IH (j - 1)); lia.
      * intros H. destruct j as [|j]; [lia|].
        apply ->Nat.succ_lt_mono. apply IH. intros y Hy.
        apply (H (S y)). lia.
Qed.

Lemma elem_of_findAllChildren c i lvl l :
  c ∈ findAllChildren i lvl l ↔
  i < c ∧ ∀ y, i < y ≤ c → ∃ n, l !! y = Some n ∧ lvl < md_level n.
Proof.
  rewrite findAllChildren_seq, elem_of_seq. split.
  - intros [H1 H2]. split; [lia|]. intros y Hy.
    assert (c - S i < child_run lvl (drop (S i) l)) as Hr by lia.
    destruct (proj1 (child_run_spec _ _ _) Hr (y - S i)) as (n & Hn & Hl); [lia|].
    rewrite lookup_drop in Hn. replace (S i + (y - S i)) with y in Hn by lia. eauto.
  - intros [H1 H2]. split; [lia|].
    cut (c - S i < child_run lvl (drop (S i) l)); [lia|].
    apply child_run_spec. intros y Hy.
    destruct (H2 (S i + y)) as (n & Hn & Hl); [lia|].
    exists n. by rewrite lookup_drop.
Qed.

Lemma le_total : Total le.
Proof. intros x y. lia. Qed.

Lemma flip_le_total : Total (flip le).
Proof. intros x y. unfold flip. lia. Qed.

Lemma StronglySorted_seq a n : StronglySorted le (seq a n).
Proof.
  revert a. induction n as [|n IH]; intros a; simpl; constructor; [apply IH|].
  apply Forall_forall. intros x Hx%elem_of_seq. lia.
Qed.

Lemma sort_asc_seq a n : sort_asc (seq a n) = seq a n.
Proof.
  apply (StronglySorted_unique le).
  - apply StronglySorted_merge_sort; [apply _|apply le_total].
  - apply StronglySorted_seq.
  - apply merge_sort_Permutation.
Qed.

(** ** The splice loop leaves the sections that were not marked *)

Lemma survivors_from_ext i rm rm' l :
  (∀ x, i ≤ x < i + length l → x ∈ rm ↔ x ∈ rm') →
  survivors_from i rm l = survivors_from i rm' l.
Proof.
  revert i. induction l as [|a l IH]; intros i H; simpl; [done|].
  simpl in H. rewrite (IH (S i)) by (intros x Hx; apply H; lia).
  destruct (decide (i ∈ rm)) as [Hi|Hi], (decide (i ∈ rm')) as [Hi'|Hi']; try done.
  - apply H in Hi; [done|lia].
  - apply H in Hi'; [done|lia].
Qed.

Lemma survivors_from_app i rm l1 l2 :
  survivors_from i rm (l1 ++ l2)
  = survivors_from i rm l1 ++ survivors_from (i + length l1) rm l2.
Proof.
  revert i. induction l1 as [|a l1 IH]; intros i; simpl.
  - by rewrite Nat.add_0_r.
  - rewrite IH. replace (S i + length l1) with (i + S (length l1)) by lia.
    by destruct (decide (i ∈ rm)).
Qed.

Lemma survivors_from_none i rm l :
  (∀ x, i ≤ x < i + length l → x ∉ rm) → survivors_from i rm l = l.
Proof.
  revert i. induction l as [|a l IH]; intros i H; simpl; [done|].
  simpl in H. rewrite decide_False by (apply H; lia).
  f_equal. apply IH. intros x Hx. apply H. lia.
Qed.

Lemma survivors_from_all i rm l :
  (∀ x, i ≤ x < i + length l → x ∈ rm) → survivors_from i rm l = [].
Proof.
  revert i. induction l as [|a l IH]; intros i H; simpl; [done|].
  simpl in H. rewrite decide_True by (apply H; lia).
  apply IH. intros x Hx. apply H. lia.
Qed.

Lemma survivors_from_delete k i rm l :
  (∀ x, x ∈ rm → x < k + i) →
  survivors_from k rm (delete i l) = survivors_from k ({[k + i]} ∪ rm) l.
Proof.
  revert k i. induction l as [|a l IH]; intros k i H; [by destruct i|].
  destruct i as [|i]; simpl.
  - rewrite Nat.add_0_r in *. rewrite decide_True by set_solver.
    rewrite !survivors_from_none; [done|..].
    + intros x Hx [Hx'%elem_of_singleton|Hx'%H]%elem_of_union; lia.
    + intros x Hx Hx'%H. lia.
  - rewrite (IH (S k) i) by (intros x Hx; apply H in Hx; lia).
    replace (S k + i) with (k + S i) by lia.
    destruct (decide (k ∈ rm)) as [Hk|Hk].
    + rewrite decide_True by set_solver. done.
    + rewrite decide_False; [done|].
      intros [Hx'%elem_of_singleton|Hx']%elem_of_union; [lia|done].
Qed.

Lemma splice_all_survivors l (idxs : list nat) :
  StronglySorted (flip le) idxs → NoDup idxs →
  splice_all l idxs = survivors_from 0 (list_to_set idxs) l.
Proof.
  unfold splice_all. revert l.
  induction idxs as [|i idxs IH]; intros l Hs Hn; simpl.
  - symmetry. apply survivors_from_none. set_solver.
  - apply StronglySorted_inv in Hs as [Hs1 Hs2].
    apply NoDup_cons in Hn as [Hn1 Hn2].
    rewrite IH by done.
    apply (survivors_from_delete 0 i (list_to_set idxs)).
    intros x Hx%elem_of_list_to_set. simpl.
    rewrite Forall_forall in Hs2. specialize (Hs2 x Hx). unfold flip in Hs2.
    assert (x ≠ i) by (by intros ->). lia.
Qed.

Lemma splice_sort_desc l (rm : gset nat) :
  splice_all l (sort_desc (elements rm)) = survivors_from 0 rm l.
Proof.
  unfold sort_desc. rewrite splice_all_survivors.
  - apply survivors_from_ext. intros x _.
    rewrite elem_of_list_to_set, merge_sort_Permutation. apply elem_of_elements.
  - apply StronglySorted_merge_sort; [apply _|apply flip_le_total].
  - rewrite merge_sort_Permutation. apply NoDup_elements.
Qed.

(** ** One absorption *)

Lemma collect_children_seq l cnt s texts (rm : gset nat) :
  s + cnt ≤ length l →
  collect_children l (texts, rm) (seq s cnt)
  = (texts ++ nonblank_texts (survivors_from s rm (take cnt (drop s l))),
     rm ∪ list_to_set (seq s cnt)).
Proof.
  unfold collect_children.
  revert s texts rm. induction cnt as [|cnt IH]; intros s texts rm Hlen.
  - simpl. rewrite app_nil_r. f_equal. set_solver.
  - destruct (lookup_lt_is_Some_2 l s) as [x Hx]; [lia|].
    rewrite (drop_S _ _ _ Hx). cbn [seq foldl take survivors_from].
    destruct (decide (s ∈ rm)) as [Hs|Hs].
    + rewrite IH by lia. f_equal. set_solver.
    + rewrite IH by lia. rewrite Hx. cbn [mbind option_bind].
      rewrite (survivors_from_ext (S s) ({[s]} ∪ rm) rm).
      2:{ intros y Hy. split; [|set_solver].
          intros [Hy'%elem_of_singleton|Hy']%elem_of_union; [lia|done]. }
      f_equal; [|set_solver].
      unfold nonblank_texts. cbn [omap list_omap].
      destruct (md_text x) as [t|]; [|done].
      destruct (is_empty (trim t)); [done|].
      by rewrite <- app_assoc.
Qed.

Lemma strip_ws_merge_texts start texts :
  strip_ws (merge_texts start texts)
  = strip_ws start +:+ strip_ws (concat_strings texts).
Proof.
  unfold merge_texts. revert start.
  induction texts as [|t texts IH]; intros start; simpl.
  - by rewrite string_app_nil_r.
  - rewrite IH. rewrite !strip_ws_app.
    destruct (negb (is_empty start) && negb (endsWith start nl));
      rewrite ?strip_ws_app, ?strip_ws_nl, ?string_app_nil_r, ?string_app_assoc; done.
Qed.

Lemma strip_ws_nonblank_texts l :
  strip_ws (concat_strings (nonblank_texts l)) = strip_ws (concat_texts l).
Proof.
  induction l as [|n l IH]; [done|].
  unfold nonblank_texts, concat_texts, text_or_empty in *.
  cbn [omap list_omap foldr]. rewrite strip_ws_app, <- IH.
  destruct (md_text n) as [t|]; simpl; [|done].
  destruct (is_empty (trim t)) eqn:Hb; simpl.
  - by rewrite (strip_ws_blank t Hb).
  - by rewrite strip_ws_app.
Qed.

Lemma concat_texts_app l1 l2 :
  concat_texts (l1 ++ l2) = concat_texts l1 +:+ concat_texts l2.
Proof.
  unfold concat_texts. induction l1 as [|n l1 IH]; simpl; [done|].
  by rewrite IH, string_app_assoc.
Qed.

(** ** The backward pass of thinning *)

Lemma levels_lookup (l l0 : list MarkdownNode) y n :
  md_level <$> l = md_level <$> l0 →
  l !! y = Some n → ∃ n0, l0 !! y = Some n0 ∧ md_level n0 = md_level n.
Proof.
  intros Hl Hy.
  assert ((md_level <$> l0) !! y = Some (md_level n)) as H.
  { rewrite <- Hl, list_lookup_fmap, Hy. done. }
  rewrite list_lookup_fmap in H.
  destruct (l0 !! y) as [n0|]; simplify_eq/=. eauto.
Qed.

Lemma child_run_levels lvl (r r0 : list MarkdownNode) :
  md_level <$> r = md_level <$> r0 → child_run lvl r = child_run lvl r0.
Proof.
  revert r0. induction r as [|n r IH]; intros [|n0 r0] H; simplify_eq/=; try done.
  rewrite H. destruct (md_level n0 <=? lvl); [done|]. f_equal. by apply IH.
Qed.

Lemma findAllChildren_levels (l l0 : list MarkdownNode) a lvl :
  md_level <$> l = md_level <$> l0 →
  findAllChildren a lvl l = findAllChildren a lvl l0.
Proof.
  intros Hl. rewrite !findAllChildren_seq. f_equal.
  apply child_run_levels. by rewrite !fmap_drop, Hl.
Qed.

Lemma thin_inv_init T l0 : thin_inv T l0 (length l0) l0 ∅.
Proof.
  split; try set_solver.
  - intros a n c Ha _ Hn. apply lookup_lt_Some in Hn. lia.
  - rewrite survivors_from_none; [done|set_solver].
Qed.

(** The effect of one absorption on the surviving text: the absorbing
    section takes over what its surviving children held. *)
Lemma absorb_survivors i cnt (l : list MarkdownNode) (rm : gset nat) cur cur' :
  l !! i = Some cur → S i + cnt ≤ length l →
  (∀ x, x ∈ rm → i < x) →
  survivors_from 0 (rm ∪ list_to_set (seq (S i) cnt)) (<[i:=cur']> l)
  = take i l ++ cur' :: survivors_from (S i + cnt) rm (drop (S i + cnt) l)
  ∧ survivors_from 0 rm l
  = take i l ++ cur :: survivors_from (S i) rm (take cnt (drop (S i) l))
      ++ survivors_from (S i + cnt) rm (drop (S i + cnt) l).
Proof.
  intros Hi Hlen Hrm.
  assert (length (take i l) = i) as Hti by (rewrite length_take; lia).
  assert (l = take i l ++ cur :: take cnt (drop (S i) l) ++ drop (S i + cnt) l) as Hl.
  { rewrite <- (take_drop i l) at 1. f_equal.
    rewrite (drop_S _ _ _ Hi). f_equal.
    rewrite <- (take_drop cnt (drop (S i) l)) at 1. f_equal.
    rewrite drop_drop. done. }
  assert (length (take cnt (drop (S i) l)) = cnt) as Hmid.
  { rewrite length_take, length_drop. lia. }
  split.
  - rewrite Hl at 1.
    replace i with (length (take i l) + 0) at 2 by lia.
    rewrite insert_app_r. cbn [insert list_insert].
    rewrite survivors_from_app, Hti. cbn [survivors_from Nat.add].
    rewrite survivors_from_none.
    2:{ intros x Hx [Hx'%Hrm|Hx'%elem_of_list_to_set%elem_of_seq]%elem_of_union; lia. }
    f_equal. rewrite decide_False.
    2:{ intros [Hx'%Hrm|Hx'%elem_of_list_to_set%elem_of_seq]%elem_of_union; lia. }
    f_equal. rewrite survivors_from_app, Hmid.
    rewrite survivors_from_all.
    2:{ rewrite Hmid. intros x Hx. apply elem_of_union_r, elem_of_list_to_set, elem_of_seq. lia. }
    simpl. apply survivors_from_ext. intros x Hx. split; [|set_solver].
    intros [Hx'|Hx'%elem_of_list_to_set%elem_of_seq]%elem_of_union; [done|lia].
  - rewrite Hl at 1.
    rewrite survivors_from_app, Hti. cbn [survivors_from Nat.add].
    rewrite survivors_from_none by (intros x Hx Hx'%Hrm; lia).
    f_equal. rewrite decide_False by (intros Hx'%Hrm; lia).
    f_equal. by rewrite survivors_from_app, Hmid.
Qed.

Lemma thin_inv_absorb T l0 i l rm cur cur' :
  thin_inv T l0 (S i) l rm →
  l !! i = Some cur →
  md_level cur' = md_level cur →
  let cnt := child_run (md_level cur) (drop (S i) l) in
  strip_ws (text_or_empty cur')
  = strip_ws (text_or_empty cur)
    +:+ strip_ws (concat_texts (survivors_from (S i) rm (take cnt (drop (S i) l)))) →
  thin_inv T l0 i (<[i:=cur']> l) (rm ∪ list_to_set (seq (S i) cnt)).
Proof.
  intros [Hlev Hrange Hbig Hcov Htext] Hi Hlvl cnt Hcur.
  assert (length l = length l0) as Hlen.
  { by rewrite <- (length_fmap md_level l), Hlev, length_fmap. }
  assert (S i + cnt ≤ length l) as Hcnt.
  { pose proof (child_run_le (md_level cur) (drop (S i) l)) as H.
    rewrite length_drop in H. apply lookup_lt_Some in Hi. unfold cnt. lia. }
  assert (findAllChildren i (md_level cur) l0 = seq (S i) cnt) as Hch.
  { by rewrite <- (findAllChildren_levels l l0), findAllChildren_seq. }
  split.
  - rewrite list_fmap_insert, list_insert_id; [done|].
    by rewrite list_lookup_fmap, Hi, Hlvl.
  - intros x [Hx%Hrange|Hx%elem_of_list_to_set%elem_of_seq]%elem_of_union; lia.
  - intros a n c Ha Harm Hn Htok Hc.
    destruct (decide (a = i)) as [->|Hne].
    + rewrite list_lookup_insert_eq in Hn by (by eapply lookup_lt_Some).
      simplify_eq. rewrite Hlvl, Hch in Hc.
      by apply elem_of_union_r, elem_of_list_to_set.
    + rewrite list_lookup_insert_ne in Hn by done.
      apply elem_of_union_l. apply (Hbig a n c); [lia|set_solver|done..].
  - intros x [Hx|Hx%elem_of_list_to_set]%elem_of_union.
    + destruct (Hcov x Hx) as (a & na & Ha & Hna & Hy).
      exists a, na. split_and!; [done..|].
      intros y Hy'. destruct (Hy y Hy') as [? ?]. split; [set_solver|done].
    + destruct (levels_lookup l l0 i cur Hlev Hi) as (n0 & Hn0 & Hl0).
      exists i, n0. pose proof Hx as Hx'. apply elem_of_seq in Hx'.
      split_and!; [lia|done|]. intros y Hy. split.
      * apply elem_of_union_r, elem_of_list_to_set, elem_of_seq. lia.
      * rewrite <- Hch in Hx. apply elem_of_findAllChildren in Hx as [_ Hx].
        rewrite Hl0. by apply Hx.
  - rewrite <- Htext.
    destruct (absorb_survivors i cnt l rm cur cur' Hi Hcnt) as [-> ->].
    { intros x Hx%Hrange. lia. }
    rewrite !concat_texts_app. change (?a :: ?b) with ([a] ++ b).
    rewrite !concat_texts_app, !strip_ws_app.
    unfold concat_texts at 2 5. simpl. rewrite !string_app_nil_r, Hcur.
    by rewrite !string_app_assoc.
Qed.

Lemma thin_inv_skip T l0 i l rm :
  thin_inv T l0 (S i) l rm →
  (∀ n, i ∉ rm → l !! i = Some n → (T ≤ tokens_or_zero n)%Z) →
  thin_inv T l0 i l rm.
Proof.
  intros [Hlev Hrange Hbig Hcov Htext] Hi. split; try done.
  - intros x Hx%Hrange. lia.
  - intros a n c Ha Harm Hn Htok Hc.
    destruct (decide (a = i)) as [->|Hne].
    + specialize (Hi n Harm Hn). lia.
    + apply (Hbig a n c); [lia|done..].
Qed.

Lemma thin_step_inv T l0 i l rm :
  thin_inv T l0 (S i) l rm →
  thin_inv T l0 i (thin_step T i (l, rm)).1 (thin_step T i (l, rm)).2.
Proof.
  intros Hinv. unfold thin_step.
  destruct (decide (i ∈ rm)) as [Hi|Hi]; simpl.
  { by apply thin_inv_skip. }
  destruct (l !! i) as [cur|] eqn:Hcur; simpl.
  2:{ apply thin_inv_skip; [done|]. intros n _ Hn. congruence. }
  destruct (Z.ltb_spec (tokens_or_zero cur) T) as [Hlt|Hge]; simpl.
  2:{ apply thin_inv_skip; [done|]. intros n _ Hn. congruence. }
  rewrite findAllChildren_seq, sort_asc_seq.
  set (cnt := child_run (md_level cur) (drop (S i) l)).
  assert (S i + cnt ≤ length l) as Hcnt.
  { pose proof (child_run_le (md_level cur) (drop (S i) l)) as H.
    rewrite length_drop in H. apply lookup_lt_Some in Hcur. unfold cnt. lia. }
  pose proof (collect_children_seq l cnt (S i) [] rm Hcnt) as Hcol.
  simpl in Hcol. rewrite Hcol. clear Hcol.
  pose proof (strip_ws_nonblank_texts
    (survivors_from (S i) rm (take cnt (drop (S i) l)))) as Hnb.
  destruct (nonblank_texts _) as [|t ts] eqn:Hts; cbn [fst snd].
  - rewrite <- (list_insert_id l i cur Hcur) at 1.
    apply thin_inv_absorb; [done..|]. fold cnt. rewrite <- Hnb.
    by rewrite string_app_nil_r.
  - apply thin_inv_absorb; [done..|]. fold cnt. rewrite <- Hnb.
    unfold text_or_empty at 1. cbn [md_text].
    change (default "" (Some ?x)) with x. by rewrite strip_ws_merge_texts.
Qed.

Lemma thin_loop_inv T l0 k l rm :
  thin_inv T l0 k l rm →
  thin_inv T l0 0 (thin_loop T k (l, rm)).1 (thin_loop T k (l, rm)).2.
Proof.
  revert l rm. induction k as [|k IH]; intros l rm Hinv; cbn [thin_loop]; [done|].
  pose proof (thin_step_inv T l0 k l rm Hinv) as H.
  destruct (thin_step T k (l, rm)) as [l' rm']. by apply IH.
Qed.

Lemma treeThinningForIndex_inv l0 T :
  ∃ l rm, thin_inv T l0 0 l rm ∧ treeThinningForIndex l0 T = survivors_from 0 rm l.
Proof.
  pose proof (thin_loop_inv T l0 _ _ _ (thin_inv_init T l0)) as H.
  unfold treeThinningForIndex.
  destruct (thin_loop T (length l0) (l0, ∅)) as [l rm].
  exists l, rm. split; [done|]. apply splice_sort_desc.
Qed.

(** ** Neighbours among the survivors *)

Lemma survivors_first s rm (l : list MarkdownNode) y :
  survivors_from s rm l !! 0 = Some y →
  ∃ b, l !! b = Some y ∧ (s + b ∉ rm) ∧ ∀ m, m < b → s + m ∈ rm.
Proof.
  revert s. induction l as [|h r IH]; intros s; simpl; [done|].
  destruct (decide (s ∈ rm)) as [Hs|Hs].
  - intros (b & Hb & Hnb & Hm)%IH. exists (S b).
    replace (s + S b) with (S s + b) by lia. split_and!; [done..|].
    intros [|m] Hlt; [by rewrite Nat.add_0_r|].
    replace (s + S m) with (S s + m) by lia. apply Hm. lia.
  - intros [= ->]. exists 0. rewrite Nat.add_0_r. split_and!; [done..|lia].
Qed.

Lemma survivors_adjacent s rm (l : list MarkdownNode) i x y :
  survivors_from s rm l !! i = Some x →
  survivors_from s rm l !! S i = Some y →
  ∃ a b, a < b ∧ l !! a = Some x ∧ l !! b = Some y ∧
         (s + a ∉ rm) ∧ (s + b ∉ rm) ∧ ∀ m, a < m < b → s + m ∈ rm.
Proof.
  revert s i. induction l as [|h r IH]; intros s i; simpl; [done|].
  assert (∀ a b : nat,
    (∃ a b, a < b ∧ r !! a = Some x ∧ r !! b = Some y ∧
            (S s + a ∉ rm) ∧ (S s + b ∉ rm) ∧ ∀ m, a < m < b → S s + m ∈ rm) →
    ∃ a b, a < b ∧ (h :: r) !! a = Some x ∧ (h :: r) !! b = Some y ∧
            (s + a ∉ rm) ∧ (s + b ∉ rm) ∧ ∀ m, a < m < b → s + m ∈ rm) as Hshift.
  { intros _ _ (a & b & Hab & Ha & Hb & Hna & Hnb & Hm).
    exists (S a), (S b). replace (s + S a) with (S s + a) by lia.
    replace (s + S b) with (S s + b) by lia.
    split_and!; [lia|done..|].
    intros [|m] Hlt; [lia|]. replace (s + S m) with (S s + m) by lia.
    apply Hm. lia. }
  destruct (decide (s ∈ rm)) as [Hs|Hs].
  - intros Hx Hy. apply (Hshift 0 0). by apply (IH (S s) i).
  - destruct i as [|i]; simpl.
    + intros [= ->] (b & Hb & Hnb & Hm)%survivors_first.
      exists 0, (S b). rewrite Nat.add_0_r.
      replace (s + S b) with (S s + b) by lia.
      split_and!; [lia|done..|].
      intros [|m] Hlt; [lia|]. replace (s + S m) with (S s + m) by lia.
      apply Hm. lia.
    + intros Hx Hy. apply (Hshift 0 0). by apply (IH (S s) i).
Qed.

Lemma child_run_pos lvl (rest : list MarkdownNode) :
  child_run lvl rest ≠ 0 → ∃ y, rest !! 0 = Some y ∧ lvl < md_level y.
Proof.
  destruct rest as [|n r]; simpl; [done|].
  destruct (Nat.leb_spec (md_level n) lvl); [done|]. eauto.
Qed.

(** Every marked section between a survivor and the next survivor lies
    deeper than that survivor. *)
Lemma marked_run_deeper T l0 l rm a b na :
  thin_inv T l0 0 l rm →
  l0 !! a = Some na → a ∉ rm →
  (∀ m, a < m < b → m ∈ rm) →
  ∀ m, a < m < b → ∃ nm, l0 !! m = Some nm ∧ md_level na < md_level nm.
Proof.
  intros Hinv Ha Harm Hrun m.
  induction (lt_wf m) as [m _ IH]. intros Hm.
  destruct (ti_cover _ _ _ _ _ Hinv m (Hrun m Hm)) as (c & nc & Hc & Hnc & Hy).
  destruct (Hy m) as [_ (nm & Hnm & Hlt)]; [lia|].
  exists nm. split; [done|].
  destruct (Nat.lt_total c a) as [Hca|[->|Hca]].
  - destruct (Hy a) as [? _]; [lia|done].
  - by simplify_eq.
  - destruct (IH c) as (nc' & Hnc' & Hlt'); [lia..|]. simplify_eq. lia.
Qed.

(** ** Thinning: what survives *)

(** C1, as stated, fails: a parent below the threshold absorbs its child
    behind a blank line, so the concatenation gains two newlines. *)
Lemma C1_literal_concatenation_fails :
  ¬ thinning_keeps_concatenation two_small_sections 5.
Proof. unfold thinning_keeps_concatenation. vm_compute. discriminate. Qed.

(** C5: after [treeThinningForIndex] with threshold [T], a surviving section
    that still has children in the thinned list has a token count of at
    least [T]. *)
Theorem C5_surviving_parent_reaches_threshold
    (l : list MarkdownNode) (T : Z) (i : nat) (n : MarkdownNode) :
  treeThinningForIndex l T !! i = Some n →
  findAllChildren i (md_level n) (treeThinningForIndex l T) ≠ [] →
  (T ≤ tokens_or_zero n)%Z.
Proof.
  destruct (treeThinningForIndex_inv l T) as (l' & rm & Hinv & ->).
  intros Hn Hch. rewrite findAllChildren_seq in Hch.
  destruct (child_run_pos (md_level n) (drop (S i) (survivors_from 0 rm l')))
    as (y & Hy & Hlvl).
  { intros H0. by rewrite H0 in Hch. }
  rewrite lookup_drop, Nat.add_0_r in Hy.
  destruct (survivors_adjacent 0 rm l' i n y Hn Hy)
    as (a & b & Hab & Ha & Hb & Hna & Hnb & Hrun). simpl in *.
  destruct (Z.lt_ge_cases (tokens_or_zero n) T) as [Hlt|Hge]; [|done].
  exfalso. apply Hnb.
  apply (ti_big _ _ _ _ _ Hinv a n b); [lia|done..|].
  destruct (levels_lookup l' l a n (ti_levels _ _ _ _ _ Hinv) Ha) as (na & Hna0 & Hla).
  destruct (levels_lookup l' l b y (ti_levels _ _ _ _ _ Hinv) Hb) as (nb & Hnb0 & Hlb).
  apply elem_of_findAllChildren. split; [done|]. intros m Hm.
  destruct (decide (m = b)) as [->|Hne].
  - exists nb. split; [done|]. lia.
  - destruct (marked_run_deeper T l l' rm a b na Hinv Hna0 Hna Hrun m) as (nm & Hnm & Hlt');
      [lia|]. exists nm. split; [done|]. lia.
Qed.

Lemma C5_witness :
  treeThinningForIndex three_sections 4 !! 0
    = Some (mkMarkdownNode "A" 1 1 (Some "# A long enough") (Some 9%Z))
  ∧ findAllChildren 0 1 (treeThinningForIndex three_sections 4) ≠ []
  ∧ (4 ≤ 9)%Z.
Proof.
  split; [reflexivity|]. split; [vm_compute; discriminate|].
  exact (C5_surviving_parent_reaches_threshold three_sections 4 0 _
           eq_refl ltac:(vm_compute; discriminate)).
Defined.

(** ** Trees: induction and pre-order *)

Lemma TreeNode_nested_ind (P : TreeNode → Prop) :
  (∀ ttl id si ei sm ps tx ns,
     from_option (Forall P) True ns → P (mkTreeNode ttl id si ei sm ps tx ns)) →
  ∀ t, P t.
Proof.
  intros Hnode. fix IH 1. intros [ttl id si ei sm ps tx ns].
  apply Hnode. destruct ns as [cs|]; simpl; [|done].
  induction cs as [|c cs IHcs]; constructor; [apply IH|apply IHcs].
Qed.

Lemma structureToList_node_eq t :
  structureToList_node t = t :: structureToList (kids t).
Proof. by destruct t as [? ? ? ? ? ? ? [cs|]]. Qed.

Lemma structureToList_cons t F :
  structureToList (t :: F) = t :: structureToList (kids t) ++ structureToList F.
Proof. unfold structureToList. simpl. by rewrite structureToList_node_eq. Qed.

Lemma structureToList_app F G :
  structureToList (F ++ G) = structureToList F ++ structureToList G.
Proof. unfold structureToList. apply flat_map_app. Qed.

(** A statement about every tree follows from its proof for a node whose
    children satisfy it. *)
Lemma forest_ind (P : list TreeNode → Prop) :
  P [] →
  (∀ t F, P (kids t) → P F → P (t :: F)) →
  ∀ F, P F.
Proof.
  intros Hnil Hcons.
  assert (∀ t, ∀ F, P F → P (t :: F)) as Hall.
  { intros t. induction t as [ttl id si ei sm ps tx ns IH] using TreeNode_nested_ind.
    intros F HF. apply Hcons; [|done]. unfold kids. simpl.
    destruct ns as [cs|]; simpl in *; [|done].
    induction IH as [|c r Hc _ IHr]; [done|]. by apply Hc. }
  intros F. induction F as [|t F IH]; [done|]. by apply Hall.
Qed.

(** ** Identifiers *)

Lemma writeNodeId_node_eq t n :
  writeNodeId_node t n
  = (set_nodes (set_nodeId t (Some (format_id n)))
       (match tn_nodes t with
        | Some cs => Some (writeNodeId cs (S n)).1
        | None => None
        end),
     match tn_nodes t with
     | Some cs => (writeNodeId cs (S n)).2
     | None => S n
     end).
Proof.
  destruct t as [ttl id si ei sm ps tx [cs|]]; simpl; [|done].
  match goal with |- context [?f cs (S n)] =>
    assert (∀ l m, f l m = writeNodeId l m) as ->
  end.
  { intros l. induction l as [|c r IH]; intros m; simpl; [done|].
    destruct (writeNodeId_node c m) as [c' n1]. by rewrite IH. }
  by destruct (writeNodeId cs (S n)).
Qed.

Lemma writeNodeId_spec F : ∀ n,
  (tn_nodeId <$> structureToList (writeNodeId F n).1)
  = (λ k, Some (format_id k)) <$> seq n (length (structureToList F))
  ∧ (writeNodeId F n).2 = n + length (structureToList F).
Proof.
  induction F as [|t F IHk IHF] using forest_ind; intros n.
  - simpl. split; [done|lia].
  - cbn [writeNodeId]. rewrite writeNodeId_node_eq.
    rewrite structureToList_cons, length_cons, length_app.
    cbn [seq]. rewrite seq_app, fmap_cons, fmap_app.
    unfold kids in *. destruct (tn_nodes t) as [cs|] eqn:Hcs; cbn beta iota in *.
    + destruct (IHk (S n)) as [Hk1 Hk2]. rewrite Hk2.
      destruct (IHF (S n + length (structureToList cs))) as [HF1 HF2].
      destruct (writeNodeId F _) as [F' n2]. cbn [fst snd] in *.
      rewrite structureToList_cons, fmap_cons, fmap_app. unfold kids.
      cbn [set_nodes set_nodeId tn_nodes tn_nodeId].
      rewrite Hk1, HF1. split; [|lia]. done.
    + destruct (IHF (S n)) as [HF1 HF2].
      destruct (writeNodeId F _) as [F' n2]. cbn [fst snd] in *.
      rewrite structureToList_cons, fmap_cons, fmap_app. unfold kids.
      cbn [set_nodes set_nodeId tn_nodes tn_nodeId].
      rewrite HF1. change (structureToList []) with (@nil TreeNode).
      simpl. rewrite Nat.add_0_r. split; [done|lia].
Qed.

Lemma parse_id_zero s : parse_id (String zero_char s) = parse_id s.
Proof.
  unfold parse_id. simpl.
  destruct (DecimalString.NilEmpty.uint_of_string s); reflexivity.
Qed.

Lemma parse_id_format_id n : parse_id (format_id n) = Some n.
Proof.
  unfold format_id, padStart.
  induction (4 - String.length (String_of_nat n)) as [|k IH]; simpl.
  - unfold parse_id, String_of_nat. rewrite string_app_nil_l.
    rewrite DecimalString.NilEmpty.usu. simpl.
    by rewrite DecimalNat.Unsigned.of_to.
  - by rewrite string_app_cons, parse_id_zero.
Qed.

Lemma format_id_inj a b : format_id a = format_id b → a = b.
Proof.
  intros H. apply (f_equal parse_id) in H.
  rewrite !parse_id_format_id in H. by simplify_eq.
Qed.

Example format_id_examples :
  format_id 0 = "0000" ∧ format_id 7 = "0007" ∧ format_id 123 = "0123"
  ∧ format_id 10000 = "10000".
Proof. repeat split; reflexivity. Qed.

(** ** The tree builder *)

Lemma own_set_nodes t ns : own (set_nodes t ns) = own t.
Proof. done. Qed.

Lemma alter_last {A} (f : A → A) (l : list A) (x : A) :
  alter f (length l) (l ++ [x]) = l ++ [f x].
Proof. induction l as [|a l IH]; simpl; [done|]. f_equal. apply IH. Qed.

Lemma lookup_last {A} (l : list A) (x : A) : (l ++ [x]) !! length l = Some x.
Proof. induction l as [|a l IH]; simpl; done. Qed.

Lemma structureToList_singleton t : structureToList [t] = structureToList_node t.
Proof. unfold structureToList. simpl. apply app_nil_r. Qed.

Lemma structureToList_snoc F t :
  structureToList (F ++ [t]) = structureToList F ++ structureToList_node t.
Proof. by rewrite structureToList_app, structureToList_singleton. Qed.

Section push.
Variable leaf : TreeNode.
Hypothesis Hleaf : tn_nodes leaf = Some [].

Lemma structureToList_leaf : structureToList_node leaf = [leaf].
Proof. rewrite structureToList_node_eq. unfold kids. by rewrite Hleaf. Qed.

Lemma spine_node_target p t :
  spine_node p t → ∃ cs, get_node p t ≫= tn_nodes = Some cs.
Proof.
  revert t. induction p as [|i p IH]; intros t; simpl.
  - intros [cs ->]. eauto.
  - intros (cs & c & -> & -> & Hc). simpl. rewrite lookup_last. simpl.
    by apply IH.
Qed.

Lemma spine_node_push p t cs :
  spine_node p t → get_node p t ≫= tn_nodes = Some cs →
  spine_node (p ++ [length cs]) (alter_node (push_child leaf) p t).
Proof.
  revert t. induction p as [|i p IH]; intros t; simpl.
  - intros _ ->. simpl. exists cs, leaf. split_and!; [done..|]. by rewrite Hleaf.
  - intros (ks & c & -> & -> & Hc). simpl. rewrite lookup_last. simpl.
    intros Hcs. exists ks, (alter_node (push_child leaf) p c).
    split_and!; [by rewrite alter_last|done|by apply IH].
Qed.

Lemma spine_node_keep p q t :
  spine_node p t → spine_node q t → length q ≤ length p →
  spine_node q (alter_node (push_child leaf) p t).
Proof.
  revert q t. induction p as [|i p IH]; intros q t; simpl.
  - intros Hp Hq Hlen. destruct q; [|simpl in Hlen; lia]. simpl.
    destruct Hp as [cs ->]. simpl. eauto.
  - intros (ks & c & Ht & -> & Hc). rewrite Ht. simpl. rewrite alter_last.
    destruct q as [|j q]; simpl; [eauto|].
    intros (ks' & c' & Ht' & -> & Hc') Hlen.
    rewrite Ht in Ht'. simplify_eq. apply app_inj_tail in Ht' as [-> ->].
    exists ks', (alter_node (push_child leaf) p c').
    split_and!; [done..|]. apply IH; [done..|lia].
Qed.

Lemma spine_node_preorder p t :
  spine_node p t →
  own <$> structureToList_node (alter_node (push_child leaf) p t)
  = (own <$> structureToList_node t) ++ [own leaf].
Proof.
  revert t. induction p as [|i p IH]; intros t; cbn [alter_node spine_node].
  - intros [cs Hcs]. rewrite !structureToList_node_eq. unfold kids.
    unfold push_child. rewrite Hcs. cbn [set_nodes tn_nodes fmap option_fmap option_map].
    rewrite structureToList_snoc, structureToList_leaf.
    by rewrite !fmap_cons, !fmap_app.
  - intros (ks & c & Ht & -> & Hc). rewrite !structureToList_node_eq.
    unfold kids. rewrite Ht. cbn [set_nodes tn_nodes fmap option_fmap option_map].
    rewrite alter_last, !structureToList_snoc.
    rewrite !fmap_cons, !fmap_app, (IH c Hc).
    by rewrite own_set_nodes, app_assoc.
Qed.

Lemma spine_target p F :
  spine F p → ∃ cs, deref F p ≫= tn_nodes = Some cs.
Proof.
  destruct p as [|i p]; simpl; [done|].
  intros (F' & t & -> & -> & Ht). rewrite lookup_last. simpl.
  by apply spine_node_target.
Qed.

Lemma spine_push p F cs :
  spine F p → deref F p ≫= tn_nodes = Some cs →
  spine (mutate (push_child leaf) p F) (p ++ [length cs]).
Proof.
  destruct p as [|i p]; simpl; [done|].
  intros (F' & t & -> & -> & Ht). rewrite lookup_last. simpl. intros Hcs.
  exists F', (alter_node (push_child leaf) p t).
  split_and!; [by rewrite alter_last|done|by apply spine_node_push].
Qed.

Lemma spine_keep p q F :
  spine F p → spine F q → length q ≤ length p →
  spine (mutate (push_child leaf) p F) q.
Proof.
  destruct p as [|i p]; simpl; [done|].
  intros (F' & t & -> & -> & Ht). destruct q as [|j q]; simpl; [done|].
  intros (F'' & t' & HF & -> & Ht') Hlen.
  apply app_inj_tail in HF as [-> ->].
  exists F'', (alter_node (push_child leaf) p t').
  split_and!; [by rewrite alter_last|done|].
  apply spine_node_keep; [done..|lia].
Qed.

Lemma spine_preorder p F :
  spine F p →
  own <$> structureToList (mutate (push_child leaf) p F)
  = (own <$> structureToList F) ++ [own leaf].
Proof.
  destruct p as [|i p]; cbn [spine mutate]; [done|].
  intros (F' & t & -> & -> & Ht). rewrite alter_last.
  rewrite !structureToList_snoc, !fmap_app.
  rewrite (spine_node_preorder p t Ht). by rewrite app_assoc.
Qed.
End push.

Lemma pop_to_ok F lvl stk : stack_ok F stk → stack_ok F (pop_to lvl stk).
Proof.
  induction stk as [|[p l] below IH]; simpl; [done|].
  intros (Hp & Hlen & Hbelow). destruct (lvl <=? l); [by apply IH|done].
Qed.

Lemma stack_ok_keep leaf p F stk :
  tn_nodes leaf = Some [] → spine F p → stack_ok F stk →
  Forall (λ e, length e.1 ≤ length p) stk →
  stack_ok (mutate (push_child leaf) p F) stk.
Proof.
  intros Hleaf Hp. induction stk as [|[q l] below IH]; simpl; [done|].
  intros (Hq & Hlen & Hbelow) Hle. apply Forall_cons in Hle as [Hq' Hle].
  split_and!; [by apply spine_keep|done|by apply IH].
Qed.

Lemma build_step_inv st node :
  stack_ok (rootNodes st) (stack st) →
  stack_ok (rootNodes (build_step st node)) (stack (build_step st node))
  ∧ own <$> structureToList (rootNodes (build_step st node))
    = (own <$> structureToList (rootNodes st))
      ++ [own (new_tree_node (nodeCounter st) node)]
  ∧ nodeCounter (build_step st node) = S (nodeCounter st).
Proof.
  intros Hok. unfold build_step.
  pose proof (pop_to_ok _ (md_level node) _ Hok) as Hpop.
  set (leaf := new_tree_node (nodeCounter st) node).
  assert (tn_nodes leaf = Some []) as Hleaf by done.
  destruct (pop_to (md_level node) (stack st)) as [|[p l] below];
    cbn [rootNodes stack nodeCounter].
  - split_and!; [|..|done].
    + simpl. split_and!; [|done..].
      exists (rootNodes st), leaf. split_and!; [done..|]. by rewrite Hleaf.
    + by rewrite structureToList_snoc, (structureToList_leaf leaf Hleaf), fmap_app.
  - destruct Hpop as (Hp & Hlen & Hbelow).
    destruct (spine_target p _ Hp) as [cs Hcs]. rewrite Hcs.
    split_and!; [|by apply spine_preorder|done].
    assert (stack_ok (mutate (push_child leaf) p (rootNodes st)) ((p, l) :: below)) as Hkeep.
    { apply stack_ok_keep; [done..|by split_and!|].
      apply Forall_cons. split; [done|].
      eapply Forall_impl; [done|]. intros e He. simpl in He. lia. }
    split_and!; [by apply spine_push| |done].
    apply Forall_cons. rewrite length_app. simpl. split; [lia|].
    eapply Forall_impl; [done|]. intros e He. simpl in He. lia.
Qed.

Lemma build_fold l : ∀ st,
  stack_ok (rootNodes st) (stack st) →
  own <$> structureToList (rootNodes (foldl build_step st l))
  = (own <$> structureToList (rootNodes st)) ++ expected_from (nodeCounter st) l.
Proof.
  induction l as [|n l IH]; intros st Hok; simpl.
  - by rewrite app_nil_r.
  - destruct (build_step_inv st n Hok) as (Hok' & Hpre & Hcnt).
    rewrite IH by done. rewrite Hpre, Hcnt. by rewrite <- app_assoc.
Qed.

(** The builder keeps the sections in pre-order: the nodes of the tree,
    read in pre-order, are the sections in the order of the list, the
    [k]-th one numbered [k]. *)
Lemma buildTreeFromNodes_preorder (l : list MarkdownNode) :
  own <$> structureToList (buildTreeFromNodes l) = expected_from 1 l.
Proof.
  unfold buildTreeFromNodes. destruct l as [|n l]; [done|].
  by rewrite build_fold.
Qed.

(** ** Passes that keep the shape of the tree *)

Lemma childless_kids t : childless t = true ↔ kids t = [].
Proof. unfold childless, kids. by destruct (tn_nodes t) as [[|??]|]. Qed.

Lemma childless_eq t t' : (kids t' = [] ↔ kids t = []) → childless t' = childless t.
Proof.
  intros H. destruct (childless t) eqn:Ht.
  - by apply childless_kids, H, childless_kids.
  - destruct (childless t') eqn:Ht'; [|done].
    apply childless_kids, H, childless_kids in Ht'. congruence.
Qed.

Lemma nodewise_nil R : nodewise R [] [].
Proof. constructor. Qed.

Lemma nodewise_cons R t t' F G :
  R t t' → nodewise R (kids t) (kids t') → nodewise R F G →
  nodewise R (t :: F) (t' :: G).
Proof.
  unfold nodewise. intros Ht Hk HF. rewrite !structureToList_cons.
  constructor; [|by apply Forall2_app].
  split; [done|]. apply childless_eq.
  apply Forall2_length in Hk.
  destruct (kids t) as [|c cs], (kids t') as [|c' cs']; try done.
  - rewrite structureToList_cons in Hk. done.
  - rewrite structureToList_cons in Hk. done.
Qed.

Lemma nodewise_app R F1 F2 G1 G2 :
  nodewise R F1 G1 → nodewise R F2 G2 → nodewise R (F1 ++ F2) (G1 ++ G2).
Proof.
  unfold nodewise. intros H1 H2. rewrite !structureToList_app.
  by apply Forall2_app.
Qed.

Lemma nodewise_refl R F : (∀ t, R t t) → nodewise R F F.
Proof. intros HR. apply Forall2_same_length_lookup_2; [done|]. intros i t t' ??. by simplify_eq. Qed.

Lemma nodewise_impl (R R' : TreeNode → TreeNode → Prop) F G :
  nodewise R F G → (∀ t t', R t t' → R' t t') → nodewise R' F G.
Proof. intros H HR. eapply Forall2_impl; [done|]. naive_solver. Qed.

Lemma Forall2_compose {A} (R1 R2 R3 : A → A → Prop) l1 l2 l3 :
  Forall2 R1 l1 l2 → Forall2 R2 l2 l3 →
  (∀ x y z, R1 x y → R2 y z → R3 x z) → Forall2 R3 l1 l3.
Proof.
  intros H1. revert l3. induction H1 as [|x y l1 l2 Hxy _ IH]; intros l3 H2 HR.
  - inversion H2. constructor.
  - inversion H2 as [|? z ? l3' Hyz H2']; simplify_eq. constructor; eauto.
Qed.

(** *** writeNodeId *)

Lemma kids_set_nodes t ns :
  kids (set_nodes t ns) = match ns with Some cs => cs | None => [] end.
Proof. done. Qed.

Lemma writeNodeId_cons t F n :
  writeNodeId (t :: F) n
  = ((writeNodeId_node t n).1 :: (writeNodeId F (writeNodeId_node t n).2).1,
     (writeNodeId F (writeNodeId_node t n).2).2).
Proof.
  cbn [writeNodeId]. destruct (writeNodeId_node t n) as [t' n1].
  cbn [fst snd]. by destruct (writeNodeId F n1).
Qed.

Lemma writeNodeId_nodewise F : ∀ n,
  nodewise (λ t t', ∃ id, own t' = set_nodeId (own t) id) F (writeNodeId F n).1.
Proof.
  induction F as [|t F IHk IHF] using forest_ind; intros n.
  - apply nodewise_nil.
  - rewrite writeNodeId_cons. cbn [fst]. apply nodewise_cons; [| |apply IHF].
    + rewrite writeNodeId_node_eq. cbn [fst]. eauto.
    + rewrite writeNodeId_node_eq. cbn [fst]. rewrite kids_set_nodes.
      unfold kids in *. destruct (tn_nodes t) as [cs|]; [apply IHk|apply nodewise_nil].
Qed.

(** *** formatStructure *)

Lemma formatStructure_node_eq order t :
  formatStructure_node order t
  = reorderDict
      (set_nodes t match tn_nodes t with
                   | Some cs =>
                       match formatStructure cs order with
                       | [] => None
                       | cs' => Some cs'
                       end
                   | None => None
                   end) order.
Proof. by destruct t as [? ? ? ? ? ? ? [cs|]]. Qed.

Lemma own_reorderDict t order : own (reorderDict t order) = reorderDict (own t) order.
Proof.
  destruct order as [|k o]; [done|].
  unfold own, without_nodes, set_nodes, reorderDict, keep. cbn -[bool_decide].
  f_equal. by destruct (bool_decide ("nodes" ∈ k :: o)).
Qed.

Lemma kids_formatStructure_node order t :
  "nodes" ∈ order →
  kids (formatStructure_node order t) = formatStructure (kids t) order.
Proof.
  intros Hin. rewrite formatStructure_node_eq.
  unfold reorderDict. destruct order as [|k order]; [by apply elem_of_nil in Hin|].
  unfold kids. cbn [tn_nodes set_nodes]. unfold keep.
  rewrite bool_decide_true by done.
  destruct (tn_nodes t) as [cs|]; [|done].
  by destruct (formatStructure cs (k :: order)).
Qed.

Lemma formatStructure_nodewise order F :
  "nodes" ∈ order →
  nodewise (λ t t', own t' = reorderDict (own t) order) F (formatStructure F order).
Proof.
  intros Hin. induction F as [|t F IHk IHF] using forest_ind.
  - apply nodewise_nil.
  - change (formatStructure (t :: F) order)
      with (formatStructure_node order t :: formatStructure F order).
    apply nodewise_cons; [| |done].
    + rewrite formatStructure_node_eq. by rewrite own_reorderDict.
    + by rewrite kids_formatStructure_node.
Qed.

(** *** Mutation through a reference *)

Section mutate.
Variable f : TreeNode → TreeNode.
Hypothesis Hf : ∀ t, tn_nodes (f t) = tn_nodes t.

Lemma nodewise_alter (g : TreeNode → TreeNode) i F :
  (∀ t, nodewise (touched f) [t] [g t]) → nodewise (touched f) F (alter g i F).
Proof.
  intros Hg. revert i. induction F as [|t F IH]; intros i; [apply nodewise_nil|].
  destruct i as [|i].
  - change (nodewise (touched f) ([t] ++ F) ([g t] ++ F)).
    apply nodewise_app; [done|]. apply nodewise_refl. by left.
  - change (nodewise (touched f) ([t] ++ F) ([t] ++ alter g i F)).
    apply nodewise_app; [|apply IH]. apply nodewise_refl. by left.
Qed.

Lemma alter_node_nodewise p : ∀ t, nodewise (touched f) [t] [alter_node f p t].
Proof.
  induction p as [|i p IH]; intros t; cbn [alter_node].
  - apply nodewise_cons; [by right| |apply nodewise_nil].
    unfold kids. rewrite Hf. apply nodewise_refl. by left.
  - apply nodewise_cons; [by left| |apply nodewise_nil].
    rewrite kids_set_nodes. unfold kids.
    destruct (tn_nodes t) as [cs|]; simpl; [|apply nodewise_nil].
    by apply nodewise_alter.
Qed.

Lemma mutate_nodewise p F : nodewise (touched f) F (mutate f p F).
Proof.
  destruct p as [|i p]; simpl.
  - apply nodewise_refl. by left.
  - apply nodewise_alter, alter_node_nodewise.
Qed.
End mutate.

(** ** The scanner and the materializer *)

Lemma ascending_from_weaken lo lo' hi l :
  lo' ≤ lo → ascending_from lo hi l → ascending_from lo' hi l.
Proof. destruct l as [|x r]; simpl; [done|]. intros ? [? ?]. split; [lia|done]. Qed.

Lemma scan_line_spec k line b acc :
  ∃ b' new, scan_line k line (b, acc) = (b', acc ++ new)
    ∧ scan_line k line (b, []) = (b', new)
    ∧ (new = [] ∨ ∃ ttl, new = [mkHeaderRef ttl k]).
Proof.
  unfold scan_line.
  destruct (codeBlockPattern (trim line)).
  { exists (negb b), []. rewrite app_nil_r. eauto. }
  destruct (is_empty (trim line)).
  { exists b, []. rewrite app_nil_r. eauto. }
  destruct (negb b).
  2:{ exists b, []. rewrite app_nil_r. eauto. }
  destruct (headerPattern (trim line)) as [[h m2]|].
  - exists b, [mkHeaderRef (trim m2) k]. eauto.
  - exists b, []. rewrite app_nil_r. eauto.
Qed.

Lemma scan_lines_acc lines : ∀ k b acc,
  (scan_lines k lines (b, acc)).2 = acc ++ (scan_lines k lines (b, [])).2.
Proof.
  induction lines as [|line rest IH]; intros k b acc; cbn [scan_lines].
  - simpl. by rewrite app_nil_r.
  - destruct (scan_line_spec k line b acc) as (b' & new & -> & -> & _).
    rewrite (IH _ b' (acc ++ new)), (IH _ b' new). by rewrite app_assoc.
Qed.

Lemma scan_lines_ascending lines : ∀ k b,
  ascending_from k (k + length lines) (lineNum <$> (scan_lines k lines (b, [])).2).
Proof.
  induction lines as [|line rest IH]; intros k b; cbn [scan_lines length]; [done|].
  destruct (scan_line_spec k line b []) as (b' & new & -> & _ & Hnew).
  rewrite scan_lines_acc. specialize (IH (S k) b').
  replace (k + S (length rest)) with (S k + length rest) by lia.
  destruct Hnew as [->|[ttl ->]]; simpl.
  - eapply ascending_from_weaken; [|done]. lia.
  - split; [lia|done].
Qed.

Lemma extractNodesFromMarkdown_ascending content :
  ascending_from 1 (S (length (extractNodesFromMarkdown content).2))
    (lineNum <$> (extractNodesFromMarkdown content).1).
Proof. apply (scan_lines_ascending _ 1 false). Qed.

Lemma header_nodes_ok lines nodeList : ∀ lo,
  1 ≤ lo → ascending_from lo (S (length lines)) (lineNum <$> nodeList) →
  ∃ allNodes, header_nodes nodeList lines = Ok allNodes
    ∧ ascending_from lo (S (length lines)) (md_lineNum <$> allNodes).
Proof.
  induction nodeList as [|[ttl ln] rest IH]; intros lo Hlo; simpl.
  - intros _. by exists [].
  - intros [Hr Hasc]. destruct ln as [|k]; [lia|].
    destruct (lookup_lt_is_Some_2 lines k) as [line ->]; [lia|].
    destruct (IH (S (S k))) as (allNodes & -> & Hall); [lia|done|].
    simpl. destruct (headerMatch line) as [len|].
    + eexists. split; [done|]. simpl. split; [lia|done].
    + exists allNodes. split; [done|].
      eapply ascending_from_weaken; [|done]. lia.
Qed.

Lemma fill_text_lineNum lines allNodes :
  md_lineNum <$> fill_text lines allNodes = md_lineNum <$> allNodes.
Proof.
  induction allNodes as [|n r IH]; [done|].
  cbn [fill_text]. rewrite !fmap_cons. by rewrite IH.
Qed.

(** The materializer never throws on what the scanner hands over. *)
Lemma extractNodeTextContent_ok content :
  ∃ sections,
    extractNodeTextContent (extractNodesFromMarkdown content).1
      (extractNodesFromMarkdown content).2 = Ok sections
    ∧ ascending_from 1 (S (length (extractNodesFromMarkdown content).2))
        (md_lineNum <$> sections).
Proof.
  unfold extractNodeTextContent.
  destruct (header_nodes_ok _ _ 1 (le_n 1) (extractNodesFromMarkdown_ascending content))
    as (allNodes & -> & Hasc).
  simpl. eexists. split; [done|]. by rewrite fill_text_lineNum.
Qed.

(** *** The spans cover the document from the first section on *)

Lemma strip_ws_join_cons x l :
  strip_ws (join nl (x :: l)) = strip_ws x +:+ strip_ws (join nl l).
Proof.
  destruct l as [|y l]; simpl.
  - by rewrite string_app_nil_r.
  - by rewrite !strip_ws_app, strip_ws_nl.
Qed.

Lemma strip_ws_join_app l1 l2 :
  strip_ws (join nl (l1 ++ l2)) = strip_ws (join nl l1) +:+ strip_ws (join nl l2).
Proof.
  induction l1 as [|x l1 IH]; [done|].
  rewrite <- app_comm_cons, !strip_ws_join_cons, IH.
  by rewrite string_app_assoc.
Qed.

Lemma slice_split {A} (a b c : nat) (l : list A) :
  a ≤ b ≤ c → slice a c l = slice a b l ++ slice b c l.
Proof.
  intros H. unfold slice.
  replace (c - a) with ((b - a) + (c - b)) by lia.
  rewrite <- take_take_drop, drop_drop. do 3 f_equal. lia.
Qed.

Lemma slice_to_end {A} (a : nat) (l : list A) : slice a (length l) l = drop a l.
Proof. unfold slice. apply take_ge. rewrite length_drop. lia. Qed.

Lemma concat_texts_cons n l : concat_texts (n :: l) = text_or_empty n +:+ concat_texts l.
Proof. done. Qed.

Lemma fill_text_cover lines allNodes : ∀ lo,
  1 ≤ lo → ascending_from lo (S (length lines)) (md_lineNum <$> allNodes) →
  strip_ws (concat_texts (fill_text lines allNodes))
  = match allNodes with
    | [] => ""
    | n :: _ => strip_ws (join nl (drop (md_lineNum n - 1) lines))
    end.
Proof.
  induction allNodes as [|n rest IH]; intros lo Hlo; [done|].
  rewrite fmap_cons. cbn [ascending_from fill_text]. intros [Hn Hasc].
  rewrite concat_texts_cons, strip_ws_app, (IH (S (md_lineNum n))) by (done || lia).
  unfold text_or_empty, set_text. cbn [md_text default from_option id].
  rewrite strip_ws_trim, <- slice_to_end.
  destruct rest as [|next r].
  - by rewrite string_app_nil_r.
  - rewrite fmap_cons in Hasc. destruct Hasc as [Hnext _].
    rewrite <- slice_to_end, <- strip_ws_join_app, <- slice_split; [done|lia].
Qed.

(** ** The conversion, stage by stage *)

Lemma own_fields t t' :
  own t' = own t →
  tn_title t' = tn_title t ∧ tn_nodeId t' = tn_nodeId t
  ∧ tn_startIndex t' = tn_startIndex t ∧ tn_endIndex t' = tn_endIndex t
  ∧ tn_summary t' = tn_summary t ∧ tn_prefixSummary t' = tn_prefixSummary t
  ∧ tn_text t' = tn_text t.
Proof.
  destruct t, t'. unfold own, without_nodes, set_nodes. simpl.
  intros [= -> -> -> -> -> -> ->]. done.
Qed.

Lemma nodewise_impl_childless (R R' : TreeNode → TreeNode → Prop) F G :
  nodewise R F G →
  (∀ t t', R t t' → childless t' = childless t → R' t t') →
  nodewise R' F G.
Proof. intros H HR. eapply Forall2_impl; [done|]. naive_solver. Qed.

Lemma nodewise_compose (R1 R2 R3 : TreeNode → TreeNode → Prop) F G H :
  nodewise R1 F G → nodewise R2 G H →
  (∀ t t' t'', R1 t t' → childless t' = childless t →
               R2 t' t'' → childless t'' = childless t' → R3 t t'') →
  nodewise R3 F H.
Proof.
  intros H1 H2 HR. eapply Forall2_compose; [done..|].
  simpl. intros t t' t'' [? ?] [? ?]. split; [eauto|congruence].
Qed.

Lemma nodewise_fmap {A} (g : TreeNode → A) R F G :
  nodewise R F G → (∀ t t', R t t' → g t' = g t) →
  g <$> structureToList G = g <$> structureToList F.
Proof.
  unfold nodewise. intros H Hg.
  induction H as [|t t' l l' [Ht _] _ IH]; [done|].
  rewrite !fmap_cons, IH. f_equal. by apply Hg.
Qed.

Lemma nodewise_Forall (P P' : TreeNode → Prop) R F G :
  nodewise R F G → (∀ t t', R t t' → childless t' = childless t → P t → P' t') →
  Forall P (structureToList F) → Forall P' (structureToList G).
Proof.
  unfold nodewise. intros H HP.
  induction H as [|t t' l l' [Ht Hc] _ IH]; [done|].
  intros [Hpt Hl]%Forall_cons. constructor; eauto.
Qed.

(** *** The summarizer's write-back loop *)

Lemma assign_summary_nodes s t : tn_nodes (assign_summary s t) = tn_nodes t.
Proof. unfold assign_summary. by destruct (childless t). Qed.

Lemma write_summaries_nodewise nodes : ∀ summaries F,
  nodewise (λ t t', same_fields t t' ∧ tn_text t' = tn_text t
                    ∧ (summary_fits t → summary_fits t'))
    F (write_summaries nodes summaries F).
Proof.
  induction nodes as [|p nodes IH]; intros summaries F; simpl.
  { apply nodewise_refl. intros t. unfold same_fields. by split_and!. }
  destruct summaries as [|s summaries].
  { apply nodewise_refl. intros t. unfold same_fields. by split_and!. }
  eapply nodewise_compose;
    [apply (mutate_nodewise (assign_summary s) (assign_summary_nodes s) p F)
    |apply IH|].
  intros t t' t'' Hm Hc (Hs & Hx & Hq) Hc'.
  assert (same_fields t t' ∧ tn_text t' = tn_text t
          ∧ (summary_fits t → summary_fits t')) as (Hs0 & Hx0 & Hq0).
  { destruct Hm as [Hm|Hm].
    - apply own_fields in Hm as (? & ? & ? & ? & Hsm & Hps & ?).
      split_and!; try done. unfold summary_fits.
      rewrite Hc, Hsm, Hps. done.
    - apply own_fields in Hm as (H1 & H2 & H3 & H4 & Hsm & Hps & H5).
      unfold summary_fits. rewrite Hc, Hsm, Hps.
      unfold assign_summary in *. destruct (childless t); simpl in *.
      + split_and!; try done. intros [_ Hq1]. split; [done|auto].
      + split_and!; try done. intros [Hq1 _]. split; [auto|done]. }
  destruct Hs as (? & ? & ?), Hs0 as (? & ? & ?).
  unfold same_fields. split; [split_and!; congruence|].
  split; [congruence|]. intros Hf. by apply Hq, Hq0.
Qed.

(** *** The two key orders *)

Lemma formatStructure_keyOrder F :
  nodewise (λ t t', same_fields t t' ∧ tn_text t' = tn_text t
                    ∧ tn_summary t' = tn_summary t
                    ∧ tn_prefixSummary t' = tn_prefixSummary t)
    F (formatStructure F keyOrder).
Proof.
  eapply nodewise_impl_childless.
  - apply formatStructure_nodewise. by vm_compute; set_solver.
  - intros t t' Hown _.
    assert (own t' = own (reorderDict (own t) keyOrder)) as H.
    { rewrite Hown. by destruct t. }
    apply own_fields in H as (? & ? & ? & ? & ? & ? & ?).
    by split_and!.
Qed.

Lemma formatStructure_orderWithoutText F :
  nodewise (λ t t', same_fields t t' ∧ tn_text t' = None
                    ∧ tn_summary t' = tn_summary t
                    ∧ tn_prefixSummary t' = tn_prefixSummary t)
    F (formatStructure F orderWithoutText).
Proof.
  eapply nodewise_impl_childless.
  - apply formatStructure_nodewise. by vm_compute; set_solver.
  - intros t t' Hown _.
    assert (own t' = own (reorderDict (own t) orderWithoutText)) as H.
    { rewrite Hown. by destruct t. }
    apply own_fields in H as (? & ? & ? & ? & ? & ? & ?).
    by split_and!.
Qed.

(** *** Sections and tree *)

Lemma sections_of_ok content config : ∃ secs, sections_of content config = Ok secs.
Proof.
  unfold sections_of.
  destruct (extractNodeTextContent_ok content) as (secs & Hs & _).
  destruct (extractNodesFromMarkdown content) as [nodeList lines].
  simpl in Hs. rewrite Hs. simpl. eauto.
Qed.

Lemma tree_of_spec content config F :
  tree_of content config = Ok F ↔
  ∃ secs, sections_of content config = Ok secs
    ∧ F = if ifAddNodeId config then (writeNodeId (buildTreeFromNodes secs) 0).1
          else buildTreeFromNodes secs.
Proof.
  unfold tree_of. destruct (sections_of content config) as [secs|e]; simpl.
  - split; [intros [= <-]; eauto|]. by intros (? & [= <-] & ->).
  - split; [done|]. by intros (? & ? & _).
Qed.

Lemma expected_from_fields c secs :
  tn_title <$> expected_from c secs = md_title <$> secs
  ∧ tn_text <$> expected_from c secs = md_text <$> secs
  ∧ tn_nodeId <$> expected_from c secs
    = (λ k, Some (format_id k)) <$> seq c (length secs)
  ∧ Forall no_summaries (expected_from c secs).
Proof.
  revert c. induction secs as [|n secs IH]; intros c.
  - by split_and!.
  - destruct (IH (S c)) as (H1 & H2 & H3 & H4).
    cbn [expected_from length seq]. rewrite !fmap_cons, H1, H2, H3.
    split_and!; try done. constructor; [|done]. by split.
Qed.

Lemma own_fmap {A} (g : TreeNode → A) (l : list TreeNode) :
  (∀ t, g (own t) = g t) → g <$> (own <$> l) = g <$> l.
Proof. intros Hg. rewrite <- list_fmap_compose. apply list_fmap_ext. intros ? t _. apply Hg. Qed.

Lemma buildTreeFromNodes_fields secs :
  tn_title <$> structureToList (buildTreeFromNodes secs) = md_title <$> secs
  ∧ tn_text <$> structureToList (buildTreeFromNodes secs) = md_text <$> secs
  ∧ tn_nodeId <$> structureToList (buildTreeFromNodes secs)
    = (λ k, Some (format_id k)) <$> seq 1 (length secs)
  ∧ Forall no_summaries (structureToList (buildTreeFromNodes secs)).
Proof.
  pose proof (buildTreeFromNodes_preorder secs) as Hpre.
  destruct (expected_from_fields 1 secs) as (H1 & H2 & H3 & H4).
  rewrite <- Hpre in H1, H2, H3, H4.
  rewrite own_fmap in H1 by done. rewrite own_fmap in H2 by done.
  rewrite own_fmap in H3 by done.
  split_and!; try done.
  rewrite Forall_fmap in H4. eapply Forall_impl; [exact H4|].
  intros t Ht. exact Ht.
Qed.

Lemma own_set_nodeId_fields t t' id :
  own t' = set_nodeId (own t) id →
  tn_title t' = tn_title t ∧ tn_text t' = tn_text t
  ∧ tn_summary t' = tn_summary t ∧ tn_prefixSummary t' = tn_prefixSummary t.
Proof.
  destruct t, t'. unfold own, without_nodes, set_nodes, set_nodeId. simpl.
  intros [= -> -> -> -> -> -> ->]. done.
Qed.

Lemma tree_of_fields content config F secs :
  tree_of content config = Ok F → sections_of content config = Ok secs →
  tn_title <$> structureToList F = md_title <$> secs
  ∧ tn_text <$> structureToList F = md_text <$> secs
  ∧ tn_nodeId <$> structureToList F
    = (λ k, Some (format_id k)) <$>
        seq (if ifAddNodeId config then 0 else 1) (length secs)
  ∧ Forall no_summaries (structureToList F).
Proof.
  intros (secs' & Hs & ->)%tree_of_spec Hsecs.
  rewrite Hs in Hsecs. injection Hsecs as ->.
  destruct (buildTreeFromNodes_fields secs) as (H1 & H2 & H3 & H4).
  destruct (ifAddNodeId config); [|by split_and!].
  pose proof (writeNodeId_nodewise (buildTreeFromNodes secs) 0) as Hw.
  destruct (writeNodeId_spec (buildTreeFromNodes secs) 0) as [Hid _].
  assert (length (structureToList (buildTreeFromNodes secs)) = length secs) as Hlen.
  { by rewrite <- (length_fmap tn_title), H1, length_fmap. }
  rewrite Hlen in Hid.
  split_and!; [| |done|].
  - rewrite <- H1. eapply nodewise_fmap; [done|].
    by intros t t' [id (? & ? & ? & ?)%own_set_nodeId_fields].
  - rewrite <- H2. eapply nodewise_fmap; [done|].
    by intros t t' [id (? & ? & ? & ?)%own_set_nodeId_fields].
  - eapply nodewise_Forall; [done| |done].
    intros t t' [id (? & ? & ? & ?)%own_set_nodeId_fields] _ [??].
    split; congruence.
Qed.

(** *** Summaries *)

Lemma summarize_spec config F G :
  summarize config F = Ok G →
  nodewise (λ t t', same_fields t t'
                    ∧ tn_text t' = (if ifAddNodeText config then tn_text t else None)
                    ∧ (no_summaries t → summary_fits t')
                    ∧ (llm config = None → no_summaries t → no_summaries t'))
    F G.
Proof.
  unfold summarize.
  assert (∀ order, order = (if ifAddNodeText config then keyOrder else orderWithoutText) →
    nodewise (λ t t', same_fields t t'
                    ∧ tn_text t' = (if ifAddNodeText config then tn_text t else None)
                    ∧ tn_summary t' = tn_summary t
                    ∧ tn_prefixSummary t' = tn_prefixSummary t)
      F (formatStructure F order)) as Hplain.
  { intros order ->. destruct (ifAddNodeText config).
    - apply formatStructure_keyOrder.
    - apply formatStructure_orderWithoutText. }
  assert (∀ G, Ok (formatStructure F
            (if ifAddNodeText config then keyOrder else orderWithoutText)) = Ok G →
    nodewise (λ t t', same_fields t t'
                    ∧ tn_text t' = (if ifAddNodeText config then tn_text t else None)
                    ∧ (no_summaries t → summary_fits t')
                    ∧ (llm config = None → no_summaries t → no_summaries t'))
      F G) as Hskip.
  { intros G' [= <-]. eapply nodewise_impl; [by apply Hplain|].
    intros t t' (? & ? & Hs & Hp). unfold no_summaries, summary_fits.
    rewrite Hs, Hp. split_and!; try done. by intros [-> ->]. }
  destruct (ifAddNodeSummary config); [|by apply Hskip].
  destruct (llm config) as [f|]; [|by apply Hskip].
  unfold generateSummariesForStructureMd.
  destruct (mapM _ _) as [summaries|e]; simpl; [|done].
  intros [= <-].
  pose proof (formatStructure_keyOrder F) as H1.
  pose proof (write_summaries_nodewise (node_refs (formatStructure F keyOrder))
                summaries (formatStructure F keyOrder)) as H2.
  assert (nodewise (λ t t', same_fields t t' ∧ tn_text t' = tn_text t
                            ∧ (no_summaries t → summary_fits t'))
            F (write_summaries (node_refs (formatStructure F keyOrder))
                 summaries (formatStructure F keyOrder))) as H12.
  { eapply nodewise_compose; [done..|].
    intros t t' t'' ((? & ? & ?) & ? & Hs & Hp) Hc ((? & ? & ?) & ? & Hq) Hc'.
    unfold same_fields. split; [split_and!; congruence|].
    split; [congruence|]. intros [Hn1 Hn2]. apply Hq.
    unfold summary_fits. rewrite Hs, Hp, Hn1, Hn2. done. }
  destruct (ifAddNodeText config).
  - eapply nodewise_impl; [done|]. intros t t' (? & ? & ?). by split_and!.
  - eapply nodewise_compose; [done|apply formatStructure_orderWithoutText|].
    intros t t' t'' ((? & ? & ?) & ? & Hq) Hc ((? & ? & ?) & ? & Hs & Hp) Hc'.
    unfold same_fields. split; [split_and!; congruence|].
    split; [done|]. split; [|done]. intros Hn. specialize (Hq Hn).
    unfold summary_fits in *. rewrite Hs, Hp, Hc'. done.
Qed.

Section ConversionFacts.
Variable JSON_stringify : list CleanNode → string.

Lemma mdToTree_spec content name options r :
  mdToTree JSON_stringify content name options = Ok r →
  ∃ F, tree_of content (loadMarkdownConfig options) = Ok F
    ∧ summarize (loadMarkdownConfig options) F = Ok (structure r)
    ∧ docName r = name
    ∧ (llm (loadMarkdownConfig options) = None → docDescription r = None).
Proof.
  unfold mdToTree. set (config := loadMarkdownConfig options).
  destruct (tree_of content config) as [F|e] eqn:HF; cbn [bind]; [|done].
  destruct (summarize config F) as [G|e] eqn:HG; cbn [bind]; [|done].
  destruct (describe JSON_stringify config G) as [d|e] eqn:Hd; cbn [bind]; [|done].
  intros [= <-]. exists F. split_and!; try done. cbn [docDescription].
  intros Hllm. unfold describe in Hd. rewrite Hllm in Hd.
  destruct (_ && _); by simplify_eq.
Qed.
End ConversionFacts.

(** ** The conversion: what the returned tree carries *)

Lemma mapM_Err {A B} (f : A → result B) (l : list A) x e :
  x ∈ l → f x = Err e → ∃ e', mapM f l = Err e'.
Proof.
  induction l as [|y l IH]; intros Hx Hf; [by apply elem_of_nil in Hx|].
  apply elem_of_cons in Hx as [->|Hx]; simpl.
  - rewrite Hf. simpl. eauto.
  - destruct (f y); simpl; [|eauto].
    destruct (IH Hx Hf) as [e' ->]. simpl. eauto.
Qed.

Section ConversionClaims.
Variable JSON_stringify : list CleanNode → string.

(** In the tree [mdToTree] returns, a node with children carries no
    [summary] and a childless node carries no [prefixSummary]. *)
Lemma mdToTree_summary_fits content name options r :
  mdToTree JSON_stringify content name options = Ok r →
  Forall summary_fits (structureToList (structure r)).
Proof.
  intros (F & HF & HG & _)%mdToTree_spec.
  destruct (sections_of_ok content (loadMarkdownConfig options)) as [secs Hsecs].
  destruct (tree_of_fields _ _ _ _ HF Hsecs) as (_ & _ & _ & Hno).
  eapply nodewise_Forall; [by apply summarize_spec| |done].
  intros t t' (_ & _ & Hfit & _) _ Hn. by apply Hfit.
Qed.

(** C8: when the request for one node of the tree fails, the summarizer
    throws and leaves the tree as it was, no [summary] or
    [prefixSummary] written, and [mdToTree] rejects. *)
Theorem C8_summaries_all_or_nothing content name options f F node e :
  ifAddNodeSummary (loadMarkdownConfig options) = true →
  llm (loadMarkdownConfig options) = Some f →
  tree_of content (loadMarkdownConfig options) = Ok F →
  node ∈ structureToList (formatStructure F keyOrder) →
  getNodeSummary node (summaryTokenThreshold (loadMarkdownConfig options)) f = Err e →
  (∃ e', generateSummariesForStructureMd (formatStructure F keyOrder)
           (summaryTokenThreshold (loadMarkdownConfig options)) f
         = (formatStructure F keyOrder, Err e'))
  ∧ ∃ e', mdToTree JSON_stringify content name options = Err e'.
Proof.
  intros Hsum Hllm HF Hnode Herr.
  destruct (mapM_Err (λ n, getNodeSummary n
              (summaryTokenThreshold (loadMarkdownConfig options)) f)
              _ node e Hnode Herr) as [e' He'].
  assert (generateSummariesForStructureMd (formatStructure F keyOrder)
           (summaryTokenThreshold (loadMarkdownConfig options)) f
         = (formatStructure F keyOrder, Err e')) as Hgen.
  { unfold generateSummariesForStructureMd. by rewrite He'. }
  split; [eauto|]. exists e'.
  unfold mdToTree. rewrite HF. cbn [bind].
  unfold summarize. rewrite Hsum, Hllm, Hgen. done.
Qed.

(** C3, amended: when no [llm] function is supplied, [mdToTree] does not
    fail, whatever the options ask for: it skips the summaries and the
    description and returns the tree without any [summary] or
    [prefixSummary]. *)
Theorem C3_no_llm_skips_summaries content name options :
  llm (loadMarkdownConfig options) = None →
  ∃ r, mdToTree JSON_stringify content name options = Ok r
    ∧ docDescription r = None
    ∧ Forall no_summaries (structureToList (structure r)).
Proof.
  intros Hllm.
  destruct (sections_of_ok content (loadMarkdownConfig options)) as [secs Hsecs].
  assert (∃ F, tree_of content (loadMarkdownConfig options) = Ok F) as [F HF].
  { eexists. apply tree_of_spec. eauto. }
  assert (∃ G, summarize (loadMarkdownConfig options) F = Ok G) as [G HG].
  { unfold summarize. rewrite Hllm. destruct (ifAddNodeSummary _); eauto. }
  exists (mkPageIndexResult name None G). split_and!; [|done|].
  - unfold mdToTree. rewrite HF. cbn [bind]. rewrite HG. cbn [bind].
    unfold describe. rewrite Hllm. by destruct (_ && _).
  - destruct (tree_of_fields _ _ _ _ HF Hsecs) as (_ & _ & _ & Hno).
    eapply nodewise_Forall; [by apply summarize_spec| |done].
    intros t t' (_ & _ & _ & Hkeep) _ Hn. by apply Hkeep.
Qed.

(** C10: with [ifAddNodeId] off, the nodes of the returned tree, read in
    pre-order, are the flat sections in document order, and the [k]-th
    of them carries the identifier the builder gave it, the zero-padded
    decimal of [k], counted from 1. *)
Theorem C10_builder_ids_survive content name options r :
  ifAddNodeId (loadMarkdownConfig options) = false →
  mdToTree JSON_stringify content name options = Ok r →
  ∃ secs, sections_of content (loadMarkdownConfig options) = Ok secs
    ∧ tn_title <$> structureToList (structure r) = md_title <$> secs
    ∧ tn_nodeId <$> structureToList (structure r)
      = (λ k, Some (format_id k)) <$> seq 1 (length secs).
Proof.
  intros Hid (F & HF & HG & _)%mdToTree_spec.
  destruct (sections_of_ok content (loadMarkdownConfig options)) as [secs Hsecs].
  destruct (tree_of_fields _ _ _ _ HF Hsecs) as (Ht & _ & Hids & _).
  rewrite Hid in Hids. apply summarize_spec in HG.
  exists secs. split_and!; [done| |].
  - rewrite <- Ht. eapply nodewise_fmap; [done|].
    by intros t t' ((? & ? & ?) & _).
  - rewrite <- Hids. eapply nodewise_fmap; [done|].
    by intros t t' ((? & ? & ?) & _).
Qed.

(** The identifiers of C6 in the tree [mdToTree] returns: with
    [ifAddNodeId] on they count from "0000" in pre-order. *)
Corollary mdToTree_node_ids content name options r :
  ifAddNodeId (loadMarkdownConfig options) = true →
  mdToTree JSON_stringify content name options = Ok r →
  tn_nodeId <$> structureToList (structure r)
  = (λ k, Some (format_id k)) <$> seq 0 (length (structureToList (structure r))).
Proof.
  intros Hid (F & HF & HG & _)%mdToTree_spec.
  destruct (sections_of_ok content (loadMarkdownConfig options)) as [secs Hsecs].
  destruct (tree_of_fields _ _ _ _ HF Hsecs) as (Ht & _ & Hids & _).
  rewrite Hid in Hids. apply summarize_spec in HG.
  assert (tn_nodeId <$> structureToList (structure r)
          = tn_nodeId <$> structureToList F) as Heq.
  { eapply nodewise_fmap; [done|]. by intros t t' ((? & ? & ?) & _). }
  rewrite Heq, Hids. f_equal. f_equal.
  rewrite <- (length_fmap tn_nodeId), Heq, Hids. by rewrite length_fmap, length_seq.
Qed.
End ConversionClaims.

(** C3, as stated, fails: with the default options and no [llm] the
    conversion returns a tree. *)
Lemma C3_missing_llm_is_no_error :
  ¬ fails_fast_without_llm sample_document "doc" None.
Proof.
  intros H. destruct H as [e He]; [reflexivity..|]. vm_compute in He. discriminate.
Qed.

Lemma C3_witness :
  llm (loadMarkdownConfig None) = None
  ∧ ∃ r, mdToTree no_stringify sample_document "doc" None = Ok r
      ∧ docDescription r = None
      ∧ Forall no_summaries (structureToList (structure r)).
Proof.
  split; [reflexivity|].
  exact (C3_no_llm_skips_summaries no_stringify sample_document "doc" None eq_refl).
Defined.

Lemma C10_witness :
  ifAddNodeId (loadMarkdownConfig (options_with None None None (Some false))) = false
  ∧ ∃ r, mdToTree no_stringify sample_document "doc"
           (options_with None None None (Some false)) = Ok r
      ∧ tn_nodeId <$> structureToList (structure r)
        = [Some "0001"; Some "0002"; Some "0003"].
Proof.
  split; [reflexivity|]. eexists. split; [vm_compute; reflexivity|].
  destruct (C10_builder_ids_survive no_stringify sample_document "doc"
              (options_with None None None (Some false))
              _ eq_refl eq_refl) as (secs & Hsecs & _ & Hids).
  vm_compute in Hsecs. injection Hsecs as <-. exact Hids.
Defined.

Lemma C8_witness :
  ∃ e', mdToTree no_stringify sample_document "doc"
          (options_with (Some failing_llm) (Some 0%Z) None None) = Err e'.
Proof.
  eapply proj2.
  eapply (C8_summaries_all_or_nothing no_stringify sample_document "doc"
            (options_with (Some failing_llm) (Some 0%Z) None None)
            failing_llm _ _ GenerationFailure).
  - reflexivity.
  - reflexivity.
  - vm_compute. reflexivity.
  - vm_compute. left.
  - reflexivity.
Defined.

(** ** Text of the tree against the document *)

Lemma headerMatch_startsWith line :
  startsWith line "#" = true → ∃ len, headerMatch line = Some len.
Proof.
  destruct line as [|c r]; cbn [startsWith]; [done|].
  intros [Hc _]%andb_true_iff. apply Ascii.eqb_eq in Hc as <-. by eexists.
Qed.

(** Where no recognized heading is indented, the materializer makes one
    section per recognized heading, in the same order. *)
Lemma header_nodes_unindented lines nodeList :
  forallb (heading_unindented lines) nodeList = true →
  ∃ allNodes, header_nodes nodeList lines = Ok allNodes
    ∧ md_lineNum <$> allNodes = lineNum <$> nodeList
    ∧ md_title <$> allNodes = nodeTitle <$> nodeList.
Proof.
  induction nodeList as [|[ttl ln] rest IH]; simpl; [by exists []|].
  intros [Hh Hrest]%andb_true_iff. unfold heading_unindented in Hh. simpl in Hh.
  destruct ln as [|k]; [done|].
  destruct (lines !! k) as [line|]; [|done].
  destruct (IH Hrest) as (allNodes & -> & Hl & Ht).
  destruct (headerMatch_startsWith line Hh) as [len ->].
  simpl. eexists. split; [done|]. rewrite !fmap_cons, Hl, Ht. done.
Qed.

Lemma concat_node_texts_fmap F secs :
  tn_text <$> F = md_text <$> secs → concat_node_texts F = concat_texts secs.
Proof.
  revert secs. induction F as [|t F IH]; intros [|n secs] H; simplify_eq/=; [done|].
  unfold text_or_empty. f_equal; [congruence|]. by apply IH.
Qed.

(** C2, as stated, fails: the text under the heading of an inner node is
    in no leaf. *)
Lemma C2_leaf_texts_miss_inner_text :
  ∃ r, mdToTree no_stringify sample_document "doc"
         (options_with None None (Some true) None) = Ok r
    ∧ ¬ leaves_cover_document sample_document r
    ∧ leaf_text (structure r) ≠ content_from_first_heading sample_document.
Proof.
  eexists. split; [vm_compute; reflexivity|].
  split; [unfold leaves_cover_document|]; vm_compute; discriminate.
Qed.

(** ** An indented heading *)

(** C4 at an indented heading: the scanner recognizes the heading on the
    trimmed line, the materializer looks for [#] at the start of the raw
    line, finds none and makes no section. *)
Theorem C4_indented_heading_yields_no_section :
  (extractNodesFromMarkdown indented_heading_document).1 = [mkHeaderRef "Title" 1]
  ∧ extractNodeTextContent (extractNodesFromMarkdown indented_heading_document).1
      (extractNodesFromMarkdown indented_heading_document).2 = Ok [].
Proof. split; reflexivity. Qed.

(** ** extractJson *)

Section ExtractJsonClaims.
Variable JsonValue : Type.
Variable empty_object : JsonValue.
Variable JSON_parse : string → result JsonValue.

(** C9: for every input string [extractJson] returns a value and never
    throws; when both the first parse and the parse of the retry fail,
    the value is the empty object. *)
Theorem C9_extractJson_never_throws content :
  (∃ v, extractJson JsonValue empty_object JSON_parse content = Ok v)
  ∧ ((∃ e, JSON_parse (first_attempt_text content) = Err e) →
     (∃ e, JSON_parse (retry_text content) = Err e) →
     extractJson JsonValue empty_object JSON_parse content = Ok empty_object).
Proof.
  unfold extractJson, try_catch. split.
  - destruct (JSON_parse (first_attempt_text content)); [eauto|].
    destruct (JSON_parse (retry_text content)); eauto.
  - by intros [e1 ->] [e2 ->].
Qed.
End ExtractJsonClaims.

Lemma C9_witness :
  extractJson unit tt (λ _, Err SyntaxError) "{,}" = Ok tt.
Proof.
  apply (C9_extractJson_never_throws unit tt (λ _, Err SyntaxError) "{,}");
    by exists SyntaxError.
Defined.

(** ** Unindented headings become sections *)

Lemma split_lines_nonempty s : split_lines s ≠ [].
Proof.
  destruct s as [|c r]; cbn [split_lines]; [done|].
  destruct (Ascii.eqb c newline); [done|]. by destruct (split_lines r).
Qed.

(** Splitting on the newline loses nothing: the lines joined by newlines
    are the document. *)
Lemma join_split_lines s : join nl (split_lines s) = s.
Proof.
  induction s as [|c s IH]; [done|]. cbn [split_lines].
  pose proof (split_lines_nonempty s) as Hne.
  destruct (split_lines s) as [|l ls]; [done|].
  destruct (Ascii.eqb_spec c newline) as [->|Hc].
  - change (join nl ("" :: l :: ls)) with (nl +:+ join nl (l :: ls)).
    by rewrite IH.
  - rewrite <- IH. by destruct ls.
Qed.

Lemma match_space_title_ws s t :
  match_space_title s = Some t → count_hashes s = 0.
Proof.
  destruct s as [|c r]; [done|]. cbn [match_space_title count_hashes].
  destruct (Ascii.eqb_spec c hash) as [->|_]; done.
Qed.

Lemma match_hashes_count fuel : ∀ s k t,
  match_hashes fuel s = Some (k, t) → count_hashes s = k ∧ 1 ≤ k ≤ fuel.
Proof.
  induction fuel as [|fuel IH]; intros s k t; [done|].
  destruct s as [|c r]; [done|]. cbn [match_hashes count_hashes].
  destruct (Ascii.eqb c hash); [|done].
  destruct (match_hashes fuel r) as [[h t']|] eqn:Hm.
  - intros [= <- <-]. destruct (IH _ _ _ Hm) as [-> ?]. lia.
  - destruct (match_space_title r) as [t'|] eqn:Hs; [|done].
    intros [= <- <-]. rewrite (match_space_title_ws _ _ Hs). lia.
Qed.

Lemma leading_hashes_count fuel : ∀ s,
  count_hashes s ≤ fuel → leading_hashes fuel s = count_hashes s.
Proof.
  induction fuel as [|fuel IH]; intros s; cbn [leading_hashes].
  - destruct s; simpl; [done|]. destruct (Ascii.eqb _ _); lia.
  - destruct s as [|c r]; [done|]. cbn [count_hashes].
    destruct (Ascii.eqb c hash); [|done]. intros H. rewrite IH; lia.
Qed.

Lemma count_hashes_trimEnd s : count_hashes (trimEnd s) = count_hashes s.
Proof.
  induction s as [|c s IH]; [done|]. cbn [trimEnd count_hashes].
  destruct (Ascii.eqb_spec c hash) as [->|Hc].
  - change (is_ws hash) with false. cbn [andb count_hashes].
    change (Ascii.eqb hash hash) with true. by rewrite IH.
  - destruct (is_ws c && is_empty (trimEnd s)); [done|].
    cbn [count_hashes]. by destruct (Ascii.eqb_spec c hash).
Qed.

Lemma count_hashes_trim line :
  startsWith line "#" = true → count_hashes (trim line) = count_hashes line.
Proof.
  destruct line as [|c r]; cbn [startsWith]; [done|].
  intros [Hc _]%andb_true_iff. apply Ascii.eqb_eq in Hc as <-.
  unfold trim. change (trimStart (String "#" r)) with (String "#" r).
  apply count_hashes_trimEnd.
Qed.

Lemma scan_lines_recognized lines : ∀ k b,
  Forall (λ h, ∃ line m m2, lines !! (lineNum h - k) = Some line ∧ k ≤ lineNum h
               ∧ headerPattern (trim line) = Some (m, m2) ∧ nodeTitle h = trim m2)
    (scan_lines k lines (b, [])).2.
Proof.
  induction lines as [|line rest IH]; intros k b; cbn [scan_lines]; [constructor|].
  assert (∃ b' new, scan_line k line (b, []) = (b', new)
    ∧ (new = [] ∨ ∃ m m2, headerPattern (trim line) = Some (m, m2)
                     ∧ new = [mkHeaderRef (trim m2) k])) as (b' & new & -> & Hnew).
  { unfold scan_line. destruct (codeBlockPattern _); [eauto|].
    destruct (is_empty _); [eauto|]. destruct (negb b); [|eauto].
    destruct (headerPattern (trim line)) as [[m m2]|]; [|eauto].
    do 2 eexists. split; [done|]. right. eauto. }
  rewrite scan_lines_acc. apply Forall_app. split.
  - destruct Hnew as [->|(m & m2 & Hm & ->)]; constructor; [|constructor].
    exists line, m, m2. simpl. rewrite Nat.sub_diag. by split_and!.
  - eapply Forall_impl; [apply (IH (S k) b')|].
    intros h (l & m & m2 & Hl & Hk & Hm & Ht). exists l, m, m2.
    replace (lineNum h - k) with (S (lineNum h - S k)) by lia.
    split_and!; [done|lia|done..].
Qed.

Lemma extractNodesFromMarkdown_recognized content :
  Forall (recognized (extractNodesFromMarkdown content).2)
    (extractNodesFromMarkdown content).1.
Proof.
  eapply Forall_impl; [apply (scan_lines_recognized _ 1 false)|].
  intros h (l & m & m2 & Hl & Hk & Hm & Ht). by exists l, m, m2.
Qed.

Lemma header_nodes_sections lines nodeList :
  Forall (recognized lines) nodeList →
  forallb (heading_unindented lines) nodeList = true →
  ∃ allNodes, header_nodes nodeList lines = Ok allNodes
    ∧ Forall2 (section_of_heading lines) nodeList allNodes.
Proof.
  induction nodeList as [|[ttl ln] rest IH]; cbn [forallb header_nodes lineNum].
  { intros _ _. exists []. split; [done|constructor]. }
  intros [Hrec Hall]%Forall_cons [Hh Hrest]%andb_true_iff.
  destruct Hrec as (line & k & m2 & Hline & Hln & Hm & Ht).
  cbn [lineNum nodeTitle] in *.
  unfold heading_unindented in Hh. cbn [lineNum] in Hh.
  destruct ln as [|n]; [done|]. replace (S n - 1) with n in Hline by lia.
  rewrite Hline in *. destruct (IH Hall Hrest) as (allNodes & -> & HF).
  destruct (match_hashes_count _ _ _ _ Hm) as [Hcount Hk].
  rewrite (count_hashes_trim _ Hh) in Hcount.
  unfold headerMatch. rewrite leading_hashes_count by lia.
  rewrite Hcount. destruct k as [|k]; [lia|]. cbn [bind].
  eexists. split; [done|]. constructor; [|done].
  split_and!; [done..|]. exists line. cbn [lineNum md_level].
  replace (S n - 1) with n by lia. split_and!; [done|lia..].
Qed.

Lemma fill_text_sections lines nodeList allNodes :
  Forall2 (section_of_heading lines) nodeList allNodes →
  Forall2 (section_of_heading lines) nodeList (fill_text lines allNodes).
Proof.
  intros H. induction H as [|h n hs ns Hn _ IH]; cbn [fill_text]; constructor; done.
Qed.

(** Where no recognized heading is indented, every recognized heading
    yields exactly one flat section, in document order, whose level is the
    number of [#] at the head of the heading's line. *)
Theorem unindented_headings_become_sections content :
  headings_unindented content = true →
  ∃ sections,
    extractNodeTextContent (extractNodesFromMarkdown content).1
      (extractNodesFromMarkdown content).2 = Ok sections
    ∧ Forall2 (section_of_heading (extractNodesFromMarkdown content).2)
        (extractNodesFromMarkdown content).1 sections.
Proof.
  unfold headings_unindented. intros Hind.
  pose proof (extractNodesFromMarkdown_recognized content) as Hrec.
  destruct (extractNodesFromMarkdown content) as [nodeList lines]. cbn [fst snd] in *.
  destruct (header_nodes_sections lines nodeList Hrec Hind) as (allNodes & Hhn & HF).
  unfold extractNodeTextContent. rewrite Hhn. cbn [bind].
  eexists. split; [done|]. by apply fill_text_sections.
Qed.

(** ** The examples of the specification *)

Example estimateTokens_examples :
  estimateTokens "abcd" = 1%Z ∧ estimateTokens "" = 0%Z ∧ estimateTokens "abcde" = 2%Z.
Proof. repeat split. Qed.

Example sample_document_tree :
  ∃ r : PageIndexResult,
    mdToTree no_stringify sample_document "doc"
      (options_with None None (Some true) (Some true)) = Ok r
    ∧ map tn_title (structure r) = ["A"]
    ∧ map tn_text (structure r) = [Some ("# A" +:+ nl +:+ "text1")]
    ∧ map (λ t, map tn_title (kids t)) (structure r) = [["B"; "C"]].
Proof. eexists. split; [vm_compute; reflexivity|]. by repeat split. Qed.

Example skipped_level_is_direct_child :
  map (λ t, map tn_title (kids t))
    (buildTreeFromNodes [sec 1 "H1" 0; sec 3 "H3" 0])
  = [["H3"]].
Proof. reflexivity. Qed.

Example fenced_heading_is_ignored :
  (extractNodesFromMarkdown
     ("# A" +:+ nl +:+ fence +:+ nl +:+ "# not a heading" +:+ nl +:+ fence
      +:+ nl +:+ "## B")).1
  = [mkHeaderRef "A" 1; mkHeaderRef "B" 5].
Proof. reflexivity. Qed.

Example no_heading_no_section :
  mdToTree no_stringify "plain text" "doc" None
  = Ok (mkPageIndexResult "doc" None []).
Proof. reflexivity. Qed.

(** ** References and the nodes behind them *)

Lemma node_refs_node_eq p t :
  node_refs_node p t = p :: child_refs p 0 (kids t).
Proof.
  destruct t as [? ? ? ? ? ? ? [cs|]]; [|done]. unfold kids. cbn.
  f_equal. generalize 0. induction cs as [|c cs IH]; intros i; [done|].
  cbn. by rewrite IH.
Qed.

Lemma get_node_snoc p i t :
  get_node (p ++ [i]) t = get_node p t ≫= λ u, tn_nodes u ≫= (.!! i).
Proof.
  revert t. induction p as [|j p IH]; intros t; cbn [app get_node].
  - cbn. destruct (tn_nodes t) as [cs|]; [|done]. cbn. by destruct (cs !! i).
  - destruct (tn_nodes t) as [cs|]; [|done]. cbn.
    destruct (cs !! j) as [c|]; [|done]. cbn. apply IH.
Qed.

Lemma deref_snoc F p i :
  p ≠ [] → deref F (p ++ [i]) = deref F p ≫= λ u, tn_nodes u ≫= (.!! i).
Proof.
  destruct p as [|j p]; [done|]. intros _. cbn [app deref].
  destruct (F !! j) as [t|]; [|done]. cbn. apply get_node_snoc.
Qed.

Lemma structureToList_cons_node t F :
  structureToList (t :: F) = structureToList_node t ++ structureToList F.
Proof. done. Qed.

Lemma app_singleton_ne_nil {A} (p : list A) i : p ++ [i] ≠ [].
Proof. by destruct p. Qed.

Lemma child_refs_deref F cs :
  Forall (λ c, ∀ p, p ≠ [] → deref F p = Some c →
               Forall2 (λ u q, deref F q = Some u)
                 (structureToList_node c) (node_refs_node p c)) cs →
  ∀ p i, (∀ j c, cs !! j = Some c → deref F (p ++ [i + j]) = Some c) →
  Forall2 (λ u q, deref F q = Some u) (structureToList cs) (child_refs p i cs).
Proof.
  intros IH. induction IH as [|c cs Hc _ IHcs]; intros p i Hl; [constructor|].
  rewrite structureToList_cons_node. cbn [child_refs].
  apply Forall2_app.
  - apply (Hc (p ++ [i])); [apply app_singleton_ne_nil|].
    specialize (Hl 0 c eq_refl). by rewrite Nat.add_0_r in Hl.
  - apply IHcs. intros j c' Hj. specialize (Hl (S j) c' Hj).
    by replace (S i + j) with (i + S j) by lia.
Qed.

(** Each reference of [node_refs] denotes the node that [structureToList]
    lists at the same position. *)
Lemma node_refs_node_deref F t : ∀ p,
  p ≠ [] → deref F p = Some t →
  Forall2 (λ u q, deref F q = Some u) (structureToList_node t) (node_refs_node p t).
Proof.
  induction t as [ttl id si ei sm ps tx ns IH] using TreeNode_nested_ind.
  intros p Hp Hd. rewrite structureToList_node_eq, node_refs_node_eq.
  constructor; [done|]. unfold kids. cbn [tn_nodes].
  destruct ns as [cs|]; [|constructor]. cbn in IH.
  apply child_refs_deref; [done|].
  intros j c Hj. rewrite deref_snoc, Hd by done. cbn. by rewrite Hj.
Qed.

Lemma node_refs_deref F :
  Forall2 (λ u q, deref F q = Some u) (structureToList F) (node_refs F).
Proof.
  unfold node_refs.
  assert (∀ G i, (∀ j t, G !! j = Some t → F !! (i + j) = Some t) →
    Forall2 (λ u q, deref F q = Some u) (structureToList G) (node_refs_from i G)) as H.
  { induction G as [|t G IH]; intros i Hl; [constructor|].
    rewrite structureToList_cons_node. cbn [node_refs_from].
    apply Forall2_app.
    - apply node_refs_node_deref; [done|]. cbn.
      specialize (Hl 0 t eq_refl). rewrite Nat.add_0_r in Hl. by rewrite Hl.
    - apply IH. intros j t' Hj. specialize (Hl (S j) t' Hj).
      by replace (S i + j) with (i + S j) by lia. }
  apply H. by intros j t Hj.
Qed.

(** *** Mutation keeps the references *)

Section mutate_refs.
Variable f : TreeNode → TreeNode.
Hypothesis Hf : ∀ t, tn_nodes (f t) = tn_nodes t.

Lemma kids_f t : kids (f t) = kids t.
Proof. unfold kids. by rewrite Hf. Qed.

Lemma child_refs_alter (g : TreeNode → TreeNode) cs :
  (∀ c q, node_refs_node q (g c) = node_refs_node q c) →
  ∀ j p i, child_refs p i (alter g j cs) = child_refs p i cs.
Proof.
  intros Hg. induction cs as [|c cs IH]; intros j p i; [done|].
  destruct j as [|j]; cbn [alter list_alter child_refs].
  - by rewrite Hg.
  - f_equal. apply IH.
Qed.

Lemma node_refs_alter_node p : ∀ t q,
  node_refs_node q (alter_node f p t) = node_refs_node q t.
Proof.
  induction p as [|j p IH]; intros t q; cbn [alter_node];
    rewrite !node_refs_node_eq.
  - by rewrite kids_f.
  - rewrite kids_set_nodes. unfold kids.
    destruct (tn_nodes t) as [cs|]; cbn; [|done].
    f_equal. by apply child_refs_alter.
Qed.

Lemma node_refs_mutate p F : node_refs (mutate f p F) = node_refs F.
Proof.
  destruct p as [|j p]; [done|]. unfold node_refs, mutate. generalize 0.
  revert j. induction F as [|t F IH]; intros j i; [done|].
  destruct j as [|j]; cbn [alter list_alter node_refs_from].
  - by rewrite node_refs_alter_node.
  - f_equal. apply IH.
Qed.

Lemma childless_alter (g : TreeNode → TreeNode) j t :
  childless (set_nodes t (alter g j <$> tn_nodes t)) = childless t.
Proof.
  unfold childless. cbn. destruct (tn_nodes t) as [[|c cs]|]; [done| |done].
  by destruct j.
Qed.

Lemma get_node_alter_node p : ∀ q t u,
  get_node q t = Some u →
  ∃ u', get_node q (alter_node f p t) = Some u'
    ∧ childless u' = childless u
    ∧ own u' = if decide (q = p) then own (f u) else own u.
Proof.
  induction p as [|j p IH]; intros q t u Hq; cbn [alter_node].
  - destruct q as [|i q]; cbn [get_node] in *.
    + simplify_eq. exists (f u). rewrite decide_True by done.
      split_and!; [done| |done]. unfold childless. by rewrite Hf.
    + rewrite Hf. exists u. by rewrite decide_False.
  - destruct q as [|i q]; cbn [get_node] in *.
    + simplify_eq. eexists. split; [done|]. rewrite decide_False by done.
      split; [apply childless_alter|done].
    + cbn [tn_nodes set_nodes].
      destruct (tn_nodes t) as [cs|]; [|done]. cbn in *.
      destruct (cs !! i) as [c|] eqn:Hc; [|done]. cbn in *.
      destruct (decide (i = j)) as [->|Hij].
      * rewrite list_lookup_alter_eq, Hc. cbn.
        destruct (IH q c u Hq) as (u' & Hu' & Hcl & Hown).
        exists u'. split_and!; [done..|].
        rewrite Hown. repeat case_decide; by simplify_eq.
      * rewrite list_lookup_alter_ne, Hc by done. cbn.
        exists u. split_and!; [done..|]. rewrite decide_False; [done|].
        by intros [= ? ?].
Qed.

Lemma deref_mutate p q F u :
  deref F q = Some u →
  ∃ u', deref (mutate f p F) q = Some u'
    ∧ childless u' = childless u
    ∧ own u' = if decide (q = p) then own (f u) else own u.
Proof.
  destruct q as [|i q]; [done|]. cbn [deref].
  destruct (F !! i) as [t|] eqn:Ht; [|done]. cbn. intros Hq.
  destruct p as [|j p]; cbn [mutate].
  { rewrite Ht. cbn. exists u. by rewrite decide_False. }
  destruct (decide (i = j)) as [->|Hij].
  - rewrite list_lookup_alter_eq, Ht. cbn.
    destruct (get_node_alter_node p q t u Hq) as (u' & Hu' & Hcl & Hown).
    exists u'. split_and!; [done..|]. rewrite Hown.
    repeat case_decide; by simplify_eq.
  - rewrite list_lookup_alter_ne, Ht by done. cbn.
    exists u. split_and!; [done..|]. rewrite decide_False; [done|].
    by intros [= ? ?].
Qed.
End mutate_refs.

(** *** Every node gets its summary *)

Lemma summary_written_own u u' :
  own u' = own u → childless u' = childless u →
  summary_written u → summary_written u'.
Proof.
  intros (_ & _ & _ & _ & Hs & Hp & _)%own_fields Hc.
  unfold summary_written. by rewrite Hc, Hs, Hp.
Qed.

Lemma summary_written_assign s u u' :
  own u' = own (assign_summary s u) → childless u' = childless u →
  summary_written u'.
Proof.
  intros (_ & _ & _ & _ & Hs & Hp & _)%own_fields Hc.
  unfold summary_written. rewrite Hc, Hs, Hp. unfold assign_summary.
  destruct (childless u); cbn; eauto.
Qed.

Lemma mutate_assign_keeps s p F q u :
  deref F q = Some u →
  ∃ u', deref (mutate (assign_summary s) p F) q = Some u'
    ∧ (summary_written u ∨ q = p → summary_written u').
Proof.
  intros Hq.
  destruct (deref_mutate _ (assign_summary_nodes s) p q F u Hq)
    as (u' & Hu' & Hc & Hown).
  exists u'. split; [done|]. case_decide.
  - intros _. by eapply summary_written_assign.
  - intros [Hw|?]; [|done]. by eapply summary_written_own.
Qed.

Lemma write_summaries_keeps nodes : ∀ summaries F q u,
  deref F q = Some u →
  ∃ u', deref (write_summaries nodes summaries F) q = Some u'
    ∧ (summary_written u → summary_written u').
Proof.
  induction nodes as [|p nodes IH]; intros summaries F q u Hq; cbn [write_summaries].
  { eauto. }
  destruct summaries as [|s summaries]; [eauto|].
  destruct (mutate_assign_keeps s p F q u Hq) as (u1 & Hu1 & Hw1).
  destruct (IH summaries _ q u1 Hu1) as (u' & Hu' & Hw').
  exists u'. split; [done|]. auto.
Qed.

Lemma write_summaries_all nodes : ∀ summaries F,
  length summaries = length nodes →
  Forall (λ q, is_Some (deref F q)) nodes →
  Forall (λ q, ∃ u', deref (write_summaries nodes summaries F) q = Some u'
                 ∧ summary_written u') nodes.
Proof.
  induction nodes as [|p nodes IH]; intros summaries F Hlen Hvalid; [constructor|].
  destruct summaries as [|s summaries]; [done|]. cbn [write_summaries].
  apply Forall_cons in Hvalid as [[u Hu] Hvalid].
  destruct (mutate_assign_keeps s p F p u Hu) as (u1 & Hu1 & Hw1).
  constructor.
  - destruct (write_summaries_keeps nodes summaries _ p u1 Hu1) as (u' & Hu' & Hw').
    exists u'. split; [done|]. apply Hw', Hw1. by right.
  - apply IH; [by injection Hlen|].
    eapply Forall_impl; [done|]. intros q [v Hv].
    destruct (mutate_assign_keeps s p F q v Hv) as (v' & -> & _). eauto.
Qed.

Lemma write_summaries_refs nodes : ∀ summaries F,
  node_refs (write_summaries nodes summaries F) = node_refs F.
Proof.
  induction nodes as [|p nodes IH]; intros summaries F; [done|].
  destruct summaries as [|s summaries]; [done|]. cbn [write_summaries].
  rewrite IH. apply node_refs_mutate, assign_summary_nodes.
Qed.

Lemma mapM_length {A B} (f : A → result B) (l : list A) (l' : list B) :
  mapM f l = Ok l' → length l' = length l.
Proof.
  revert l'. induction l as [|x l IH]; intros l'; cbn [mapM].
  - by intros [= <-].
  - destruct (f x) as [y|]; [|done]. cbn [bind].
    destruct (mapM f l) as [ys|]; [|done]. cbn [bind].
    intros [= <-]. cbn. by rewrite (IH ys).
Qed.

(** When the summarizer returns, every node of the tree carries the field
    that fits it. *)
Lemma generateSummariesForStructureMd_written F threshold f F' :
  generateSummariesForStructureMd F threshold f = (F', Ok tt) →
  Forall summary_written (structureToList F').
Proof.
  unfold generateSummariesForStructureMd.
  destruct (mapM _ _) as [summaries|e] eqn:Hm; [|done]. intros [= <-].
  pose proof (node_refs_deref F) as Hrefs.
  pose proof (node_refs_deref (write_summaries (node_refs F) summaries F)) as Hrefs'.
  rewrite write_summaries_refs in Hrefs'.
  assert (Forall (λ q, ∃ u', deref (write_summaries (node_refs F) summaries F) q = Some u'
                         ∧ summary_written u') (node_refs F)) as Hall.
  { apply write_summaries_all.
    - rewrite (mapM_length _ _ _ Hm). by apply Forall2_length in Hrefs.
    - apply Forall2_Forall_r with (P := λ u q, deref F q = Some u) (l := structureToList F);
        [done|]. apply Forall_forall. intros u _ q Hq. eauto. }
  rewrite Forall_forall in Hall.
  apply Forall_forall. intros u Hu.
  apply list_elem_of_lookup in Hu as [i Hi].
  destruct (Forall2_lookup_l _ _ _ _ _ Hrefs' Hi) as (q & Hq & Hd).
  destruct (Hall q) as (u' & Hu' & Hw); [by eapply list_elem_of_lookup_2|].
  by simplify_eq.
Qed.

Lemma summarize_written config F G f :
  ifAddNodeSummary config = true → llm config = Some f →
  summarize config F = Ok G →
  Forall summary_written (structureToList G).
Proof.
  intros Hsum Hllm. unfold summarize. rewrite Hsum, Hllm.
  destruct (generateSummariesForStructureMd _ _ _) as [F' [[]|e]] eqn:Hgen;
    cbn [bind]; [|done].
  apply generateSummariesForStructureMd_written in Hgen.
  destruct (ifAddNodeText config); intros [= <-]; [done|].
  eapply nodewise_Forall; [apply formatStructure_orderWithoutText| |done].
  intros t t' (_ & _ & Hs & Hp) Hc. unfold summary_written.
  by rewrite Hc, Hs, Hp.
Qed.

Section SummaryClaims.
Variable JSON_stringify : list CleanNode → string.

(** C7: in the tree [mdToTree] returns, a node with children carries no
    [summary] and a childless node carries no [prefixSummary], so no node
    carries both; and when the summarizer ran (summaries requested and an
    [llm] supplied), every node carries the one field that fits it, chosen
    by whether the node has children. *)
Theorem C7_summary_field_follows_children content name options r :
  mdToTree JSON_stringify content name options = Ok r →
  Forall (λ t, summary_fits t
               ∧ (ifAddNodeSummary (loadMarkdownConfig options) = true →
                  is_Some (llm (loadMarkdownConfig options)) →
                  summary_written t))
    (structureToList (structure r)).
Proof.
  intros H. apply Forall_and. split.
  - by eapply mdToTree_summary_fits.
  - apply mdToTree_spec in H as (F & HF & HG & _).
    destruct (ifAddNodeSummary _) eqn:Hsum, (llm _) as [f|] eqn:Hllm.
    + eapply Forall_impl; [by eapply summarize_written|]. auto.
    + apply Forall_true. by intros t _ [? ?].
    + by apply Forall_true.
    + by apply Forall_true.
Qed.
End SummaryClaims.

Lemma C7_witness :
  ∃ r, mdToTree no_stringify sample_document "doc"
         (options_with (Some constant_llm) None None None) = Ok r
    ∧ Forall (λ t, summary_fits t ∧ summary_written t) (structureToList (structure r)).
Proof.
  eexists. split; [vm_compute; reflexivity|].
  eapply Forall_impl.
  - apply (C7_summary_field_follows_children no_stringify sample_document "doc"
             (options_with (Some constant_llm) None None None)).
    vm_compute. reflexivity.
  - intros t [Hfit Hw]. split; [done|]. apply Hw; [reflexivity|]. by eexists.
Defined.

(** ** Thinning of solid texts: groups joined by blank lines *)

Lemma is_empty_trimEnd s : is_empty (trimEnd s) = is_empty (strip_ws s).
Proof.
  induction s as [|c s IH]; [done|]. cbn [trimEnd strip_ws].
  destruct (is_ws c); cbn; [|done]. rewrite <- IH. by destruct (trimEnd s).
Qed.

Lemma is_empty_trim s : is_empty (trim s) = is_empty (strip_ws s).
Proof. unfold trim. by rewrite is_empty_trimEnd, strip_ws_trimStart. Qed.

Lemma is_empty_app s t : is_empty (s +:+ t) = is_empty s && is_empty t.
Proof. by destruct s. Qed.

Lemma solid_nonempty t : solid t → is_empty t = false.
Proof. intros [H _]. by destruct t. Qed.

Lemma string_length_app s t :
  String.length (s +:+ t) = String.length s + String.length t.
Proof. induction s as [|c s IH]; [done|]. rewrite string_app_cons. cbn. by rewrite IH. Qed.

Lemma endsWith_nl_app s t :
  is_empty t = false → endsWith (s +:+ t) nl = endsWith t nl.
Proof.
  intros Ht. induction s as [|c s IH]; [done|].
  rewrite string_app_cons. cbn [endsWith]. rewrite IH.
  assert ((String.length (String c (s +:+ t)) =? String.length nl) = false) as ->.
  { apply Nat.eqb_neq. cbn. rewrite string_length_app. destruct t; [done|]. cbn. lia. }
  done.
Qed.

Lemma solid_app s t : solid t → solid (s +:+ t).
Proof.
  intros [Hb He]. split.
  - rewrite is_empty_trim, strip_ws_app, is_empty_app.
    rewrite is_empty_trim in Hb. by rewrite Hb, andb_false_r.
  - rewrite endsWith_nl_app; [done|]. apply solid_nonempty. by split.
Qed.

Lemma join_cons_cons sep x y l :
  join sep (x :: y :: l) = x +:+ sep +:+ join sep (y :: l).
Proof. done. Qed.

Lemma solid_join g : g ≠ [] → Forall solid g → solid (join blank_line g).
Proof.
  induction g as [|x g IH]; [done|]. intros _ [Hx Hg]%Forall_cons.
  destruct g as [|y g]; [done|]. rewrite join_cons_cons.
  do 2 apply solid_app. by apply IH.
Qed.

Lemma merge_texts_join s texts :
  solid s → Forall solid texts → merge_texts s texts = join blank_line (s :: texts).
Proof.
  unfold merge_texts. revert s. induction texts as [|t texts IH]; intros s Hs Ht; [done|].
  apply Forall_cons in Ht as [Ht Hts]. cbn [foldl].
  destruct Hs as [Hb He]. rewrite He, (solid_nonempty s) by done. cbn [negb andb].
  rewrite IH; [|by apply solid_app|done].
  rewrite join_cons_cons. destruct texts as [|t' texts].
  - cbn [join]. unfold blank_line. by rewrite !string_app_assoc.
  - rewrite !join_cons_cons. unfold blank_line. by rewrite !string_app_assoc.
Qed.

Lemma join_groups g0 (groups : list (list string)) :
  g0 ≠ [] → Forall (λ g, g ≠ []) groups →
  join blank_line (join blank_line g0 :: (join blank_line <$> groups))
  = join blank_line (g0 ++ concat groups).
Proof.
  assert (∀ g h : list string, g ≠ [] → h ≠ [] →
    join blank_line (g ++ h) = join blank_line g +:+ blank_line +:+ join blank_line h) as Happ.
  { induction g as [|x g IH]; intros h Hg Hh; [done|].
    destruct g as [|y g].
    - destruct h; [done|]. done.
    - change ((x :: y :: g) ++ h) with (x :: y :: (g ++ h)).
      rewrite !join_cons_cons. change (y :: g ++ h) with ((y :: g) ++ h).
      rewrite (IH h) by done. by rewrite !string_app_assoc. }
  intros Hg0 Hgs. revert g0 Hg0. induction Hgs as [|g groups Hg _ IH]; intros g0 Hg0.
  - cbn. by rewrite app_nil_r.
  - rewrite fmap_cons, join_cons_cons. cbn [concat].
    rewrite app_assoc, <- (IH (g0 ++ g)) by (by destruct g0).
    destruct groups as [|g' groups].
    + cbn. by rewrite Happ.
    + rewrite fmap_cons, !join_cons_cons, Happ by done.
      by rewrite !string_app_assoc.
Qed.

Lemma nonblank_texts_solid (groups : list (list string)) (mids : list MarkdownNode) :
  Forall2 (λ g n, g ≠ [] ∧ Forall solid g ∧ md_text n = Some (join blank_line g))
    groups mids →
  nonblank_texts mids = join blank_line <$> groups
  ∧ Forall solid (join blank_line <$> groups)
  ∧ Forall (λ g, g ≠ []) groups.
Proof.
  intros H. induction H as [|g n groups mids (Hg & Hs & Ht) _ (IH1 & IH2 & IH3)].
  { by split_and!. }
  pose proof (solid_join g Hg Hs) as Hsolid.
  unfold nonblank_texts in *. cbn [omap list_omap]. rewrite Ht.
  destruct Hsolid as [Hb He]. rewrite Hb, IH1. rewrite fmap_cons.
  split_and!; [done| |by constructor]. constructor; [by split|done].
Qed.

(** The state of the backward pass on solid texts: the surviving sections
    hold the original texts in groups. *)
Lemma thin_step_groups T l0 i l rm :
  thin_inv T l0 (S i) l rm →
  merged_in_groups l0 (survivors_from 0 rm l) →
  merged_in_groups l0
    (survivors_from 0 (thin_step T i (l, rm)).2 (thin_step T i (l, rm)).1).
Proof.
  intros Hinv Hgr. unfold thin_step.
  destruct (decide (i ∈ rm)) as [Hi|Hi]; [done|].
  destruct (l !! i) as [cur|] eqn:Hcur; [|done].
  destruct (Z.ltb_spec (tokens_or_zero cur) T) as [Hlt|Hge]; [|done].
  rewrite findAllChildren_seq, sort_asc_seq.
  set (cnt := child_run (md_level cur) (drop (S i) l)).
  assert (S i + cnt ≤ length l) as Hcnt.
  { pose proof (child_run_le (md_level cur) (drop (S i) l)) as H.
    rewrite length_drop in H. apply lookup_lt_Some in Hcur. unfold cnt. lia. }
  pose proof (collect_children_seq l cnt (S i) [] rm Hcnt) as Hcol.
  cbn [app] in Hcol. rewrite Hcol. clear Hcol.
  assert (∀ x, x ∈ rm → i < x) as Hrm.
  { intros x Hx%(ti_range _ _ _ _ _ Hinv). lia. }
  destruct Hgr as (groups & Hconcat & HF).
  destruct (absorb_survivors i cnt l rm cur cur Hcur Hcnt Hrm) as [_ Hbefore].
  rewrite Hbefore in HF.
  apply Forall2_app_inv_r in HF as (Gpre & Grest & Hpre & Hrest & ->).
  apply Forall2_cons_inv_r in Hrest as (g & Grest' & (Hg & Hsg & Htg) & Hrest & ->).
  apply Forall2_app_inv_r in Hrest as (Gmid & Gpost & Hmid & Hpost & ->).
  destruct (nonblank_texts_solid Gmid _ Hmid) as (Hnb & Hsolid & Hne).
  rewrite Hnb.
  assert (merged_in_groups l0
    (take i l ++ mkMarkdownNode (md_title cur) (md_lineNum cur) (md_level cur)
                   (Some (join blank_line (g ++ concat Gmid)))
                   (Some (estimateTokens (join blank_line (g ++ concat Gmid))))
       :: survivors_from (S i + cnt) rm (drop (S i + cnt) l))) as Hnew.
  { exists (Gpre ++ (g ++ concat Gmid) :: Gpost). split.
    - rewrite <- Hconcat, !concat_app. cbn [concat]. rewrite concat_app.
      by rewrite !app_assoc.
    - apply Forall2_app; [done|]. constructor; [|done].
      split_and!; [by destruct g| |done].
      apply Forall_app. split; [done|]. apply Forall_concat.
      eapply Forall2_Forall_l; [exact Hmid|]. apply Forall_forall.
      intros n _ g' (_ & Hs' & _). done. }
  destruct (join blank_line <$> Gmid) as [|t ts] eqn:Hts; cbn [fst snd].
  - destruct Gmid; [|done]. cbn [concat] in Hnew. rewrite app_nil_r in Hnew.
    apply Forall2_nil_inv_l in Hmid.
    pose proof (absorb_survivors i cnt l rm cur cur Hcur Hcnt Hrm) as [Hafter _].
    rewrite list_insert_id in Hafter by done. rewrite Hafter.
    exists (Gpre ++ g :: Gpost). split.
    + rewrite <- Hconcat. by rewrite !concat_app.
    + apply Forall2_app; [done|]. by constructor.
  - pose proof (absorb_survivors i cnt l rm cur
      (mkMarkdownNode (md_title cur) (md_lineNum cur) (md_level cur)
         (Some (merge_texts (text_or_empty cur) (t :: ts)))
         (Some (estimateTokens (merge_texts (text_or_empty cur) (t :: ts)))))
      Hcur Hcnt Hrm) as [Hafter _].
    rewrite Hafter.
    assert (merge_texts (text_or_empty cur) (t :: ts)
            = join blank_line (g ++ concat Gmid)) as ->; [|done].
    unfold text_or_empty. rewrite Htg. cbn [default from_option id].
    rewrite merge_texts_join; [|by apply solid_join|done].
    rewrite <- Hts. by apply join_groups.
Qed.

Lemma thin_loop_groups T l0 k : ∀ l rm,
  thin_inv T l0 k l rm →
  merged_in_groups l0 (survivors_from 0 rm l) →
  merged_in_groups l0
    (survivors_from 0 (thin_loop T k (l, rm)).2 (thin_loop T k (l, rm)).1).
Proof.
  induction k as [|k IH]; intros l rm Hinv Hgr; cbn [thin_loop]; [done|].
  pose proof (thin_step_inv T l0 k l rm Hinv) as Hinv'.
  pose proof (thin_step_groups T l0 k l rm Hinv Hgr) as Hgr'.
  destruct (thin_step T k (l, rm)) as [l' rm']. by apply IH.
Qed.

Lemma merged_in_groups_refl l : Forall solid_section l → merged_in_groups l l.
Proof.
  intros H. exists ((λ n, [text_or_empty n]) <$> l). split.
  - induction l as [|n l IH]; [done|]. apply Forall_cons in H as [_ H].
    rewrite !fmap_cons. cbn [concat app]. by rewrite IH.
  - induction H as [|n l (t & Ht & Hs) _ IH]; [constructor|].
    rewrite fmap_cons. constructor; [|done].
    unfold text_or_empty. rewrite Ht. cbn. split_and!; [done| |done].
    by constructor.
Qed.

Lemma treeThinningForIndex_groups (l : list MarkdownNode) (T : Z) :
  Forall solid_section l → merged_in_groups l (treeThinningForIndex l T).
Proof.
  intros Hsolid. unfold treeThinningForIndex.
  pose proof (thin_loop_groups T l (length l) l ∅ (thin_inv_init T l)) as H.
  destruct (thin_loop T (length l) (l, ∅)) as [l' rm].
  rewrite splice_sort_desc. apply H.
  rewrite survivors_from_none by set_solver. by apply merged_in_groups_refl.
Qed.

(** C1, amended: for every flat section list and every threshold, the
    surviving texts of [treeThinningForIndex], concatenated, hold the same
    code units in the same order as the original texts, concatenated, once
    white space is left out; and where every text is solid (not blank, no
    newline at its end, as the Materializer leaves it), the surviving texts
    are the original texts in document order, cut into consecutive groups,
    each group joined by blank lines. *)
Theorem C1_thinning_keeps_text (l : list MarkdownNode) (T : Z) :
  strip_ws (concat_texts (treeThinningForIndex l T)) = strip_ws (concat_texts l)
  ∧ (Forall solid_section l → merged_in_groups l (treeThinningForIndex l T)).
Proof.
  split.
  - destruct (treeThinningForIndex_inv l T) as (l' & rm & Hinv & ->).
    apply (ti_text _ _ _ _ _ Hinv).
  - apply treeThinningForIndex_groups.
Qed.

Lemma C1_witness :
  Forall solid_section two_small_sections
  ∧ merged_in_groups two_small_sections (treeThinningForIndex two_small_sections 5).
Proof.
  assert (Forall solid_section two_small_sections) as H.
  { repeat constructor; eexists; (split; [reflexivity|split; reflexivity]). }
  split; [exact H|].
  exact (proj2 (C1_thinning_keeps_text two_small_sections 5) H).
Defined.

(** *** The Materializer leaves solid texts *)

Lemma endsWith_trimEnd s : endsWith (trimEnd s) nl = false.
Proof.
  induction s as [|c s IH]; [done|]. cbn [trimEnd].
  destruct (is_ws c && is_empty (trimEnd s)) eqn:Hc; [done|].
  cbn [endsWith]. rewrite IH, orb_false_r.
  destruct (trimEnd s) as [|d r]; [|done]. cbn [is_empty] in Hc.
  rewrite andb_true_r in Hc. cbn.
  destruct (Ascii.eqb_spec c newline) as [->|_]; [done|]. by destruct c as [[][][][][][][][]].
Qed.

Lemma solid_trim x : is_empty (strip_ws x) = false → solid (trim x).
Proof.
  intros H. split.
  - by rewrite is_empty_trim, strip_ws_trim.
  - apply endsWith_trimEnd.
Qed.

Lemma header_nodes_heads lines nodeList allNodes :
  header_nodes nodeList lines = Ok allNodes →
  Forall (λ n, ∃ k r, md_lineNum n = S k ∧ lines !! k = Some (String hash r)) allNodes.
Proof.
  revert allNodes. induction nodeList as [|[ttl ln] rest IH]; intros allNodes;
    cbn [header_nodes lineNum nodeTitle].
  { intros [= <-]. constructor. }
  destruct ln as [|k]; [done|]. destruct (lines !! k) as [line|] eqn:Hk; [|done].
  destruct (header_nodes rest lines) as [nodes|]; [|done]. cbn [bind].
  unfold headerMatch. destruct (leading_hashes 6 line) as [|len] eqn:Hh.
  - intros [= <-]. by apply IH.
  - intros [= <-]. constructor; [|by apply IH].
    destruct line as [|c r]; [done|]. cbn [leading_hashes] in Hh.
    destruct (Ascii.eqb_spec c hash) as [->|]; [|done]. by exists k, r.
Qed.

Lemma fill_text_solid lines allNodes : ∀ lo,
  ascending_from lo (S (length lines)) (md_lineNum <$> allNodes) →
  Forall (λ n, ∃ k r, md_lineNum n = S k ∧ lines !! k = Some (String hash r)) allNodes →
  Forall solid_section (fill_text lines allNodes).
Proof.
  induction allNodes as [|n rest IH]; intros lo; [constructor|].
  rewrite fmap_cons. cbn [ascending_from fill_text].
  intros [Hn Hasc] [(k & r0 & Hk & Hline) Hrest]%Forall_cons.
  constructor; [|by eapply IH].
  eexists. split; [done|]. apply solid_trim.
  assert (∃ e, slice (md_lineNum n - 1)
                 match rest with
                 | [] => length lines
                 | next :: _ => md_lineNum next - 1
                 end lines = String hash r0 :: e) as [e ->].
  { unfold slice. rewrite Hk. replace (S k - 1) with k by lia.
    rewrite (drop_S _ _ _ Hline).
    assert (∃ m, match rest with
                 | [] => length lines
                 | next :: _ => md_lineNum next - 1
                 end - k = S m) as [m ->]; [|by eexists].
    destruct rest as [|next r].
    - exists (length lines - S k). apply lookup_lt_Some in Hline. lia.
    - rewrite fmap_cons in Hasc. destruct Hasc as [Hnext _].
      exists (md_lineNum next - 1 - S k). lia. }
  rewrite strip_ws_join_cons, is_empty_app. done.
Qed.

(** Every flat section the Materializer makes from a scanned document
    holds a solid text. *)
Lemma extractNodeTextContent_solid content sections :
  extractNodeTextContent (extractNodesFromMarkdown content).1
    (extractNodesFromMarkdown content).2 = Ok sections →
  Forall solid_section sections.
Proof.
  unfold extractNodeTextContent.
  destruct (header_nodes_ok _ _ 1 (le_n 1) (extractNodesFromMarkdown_ascending content))
    as (allNodes & Hhn & Hasc).
  rewrite Hhn. cbn [bind]. intros [= <-].
  eapply fill_text_solid; [done|]. by eapply header_nodes_heads.
Qed.

Lemma count_loop_texts k : ∀ l,
  md_text <$> count_loop k l = md_text <$> l.
Proof.
  induction k as [|k IH]; intros l; cbn [count_loop]; [done|].
  rewrite IH. unfold count_step. destruct (l !! k) as [n|] eqn:Hn; [|done].
  rewrite list_fmap_insert. apply list_insert_id.
  by rewrite list_lookup_fmap, Hn.
Qed.

Lemma merged_in_groups_texts l1 l2 l' :
  md_text <$> l1 = md_text <$> l2 →
  merged_in_groups l1 l' → merged_in_groups l2 l'.
Proof.
  intros Heq (groups & Hc & HF). exists groups. split; [|done].
  rewrite Hc. clear Hc HF. revert l2 Heq.
  induction l1 as [|n l1 IH]; intros [|m l2] Heq; simplify_eq/=; [done|].
  unfold text_or_empty at 1 3. f_equal; [by f_equal|]. by apply IH.
Qed.

Lemma solid_section_texts l1 l2 :
  md_text <$> l1 = md_text <$> l2 →
  Forall solid_section l1 → Forall solid_section l2.
Proof.
  intros Heq H. revert l2 Heq.
  induction H as [|n l1 (t & Ht & Hs) _ IH]; intros [|m l2] Heq; simplify_eq/=;
    constructor; [|by apply IH].
  exists t. split; [congruence|done].
Qed.

(** In the conversion with thinning on, the sections the tree is built
    from hold the texts of the flat sections of the document, in document
    order, in groups joined by blank lines. *)
Theorem thinned_sections_hold_all_texts content config :
  ifThinning config = true →
  ∃ flat sections,
    extractNodeTextContent (extractNodesFromMarkdown content).1
      (extractNodesFromMarkdown content).2 = Ok flat
    ∧ sections_of content config = Ok sections
    ∧ merged_in_groups flat sections.
Proof.
  intros Hthin. destruct (extractNodeTextContent_ok content) as (flat & Hflat & _).
  pose proof (extractNodeTextContent_solid content flat Hflat) as Hsolid.
  exists flat. eexists. split; [done|]. unfold sections_of.
  destruct (extractNodesFromMarkdown content) as [nodeList lines].
  cbn [fst snd] in Hflat. rewrite Hflat, Hthin. cbn [bind]. split; [done|].
  pose proof (count_loop_texts (length flat) flat) as Htexts.
  apply (merged_in_groups_texts (updateNodeListWithTextTokenCount flat)); [done|].
  apply treeThinningForIndex_groups.
  by apply (solid_section_texts flat).
Qed.

(** * Further properties of the code *)

(** ** The tree utilities *)

Lemma getNodes_node_eq t : getNodes_node t = without_nodes t :: getNodes (kids t).
Proof. by destruct t as [? ? ? ? ? ? ? [cs|]]. Qed.

Lemma getLeafNodes_node_eq t :
  getLeafNodes_node t
  = if childless t then [without_nodes t] else getLeafNodes (kids t).
Proof. by destruct t as [? ? ? ? ? ? ? [[|c cs]|]]. Qed.

Lemma getNodes_structureToList F : getNodes F = without_nodes <$> structureToList F.
Proof.
  induction F as [|t F IHk IHF] using forest_ind; [done|].
  rewrite structureToList_cons, fmap_cons, fmap_app, <- IHk, <- IHF.
  change (getNodes (t :: F)) with (getNodes_node t ++ getNodes F).
  by rewrite getNodes_node_eq.
Qed.

Lemma getLeafNodes_structureToList F :
  getLeafNodes F
  = without_nodes <$> filter (λ t, childless t = true) (structureToList F).
Proof.
  induction F as [|t F IHk IHF] using forest_ind; [done|].
  rewrite structureToList_cons.
  change (getLeafNodes (t :: F)) with (getLeafNodes_node t ++ getLeafNodes F).
  rewrite getLeafNodes_node_eq, IHF.
  destruct (childless t) eqn:Hc.
  - rewrite filter_cons_True by done. rewrite filter_app, fmap_cons, fmap_app.
    apply childless_kids in Hc. rewrite Hc. done.
  - rewrite filter_cons_False by congruence.
    by rewrite filter_app, fmap_app, IHk.
Qed.

(** X1: [getNodes] lists every node of the tree without its children, in
    the order of [structureToList]; [getLeafNodes] lists, in that order,
    exactly those of them whose node is childless. *)
Theorem getLeafNodes_are_the_childless_getNodes (structure : list TreeNode) :
  getNodes structure = without_nodes <$> structureToList structure
  ∧ getLeafNodes structure
    = without_nodes <$> filter (λ t, childless t = true) (structureToList structure).
Proof. split; [apply getNodes_structureToList|apply getLeafNodes_structureToList]. Qed.

Lemma findNode_node_eq id t :
  findNode_node id t
  = if bool_decide (tn_nodeId t = Some id) then Some t else findNode id (kids t).
Proof.
  destruct t as [? nid ? ? ? ? ? [cs|]]; cbn -[bool_decide]; [|done].
  destruct (bool_decide (nid = Some id)); [done|].
  induction cs as [|c cs IH]; [done|]. cbn -[bool_decide]. by rewrite IH.
Qed.

Lemma findNode_app id F G :
  findNode id (F ++ G)
  = match findNode id F with Some found => Some found | None => findNode id G end.
Proof.
  induction F as [|t F IH]; [done|]. cbn [app findNode].
  by destruct (findNode_node id t).
Qed.

Lemma findNode_structureToList id F :
  findNode id F = head (filter (λ t, tn_nodeId t = Some id) (structureToList F)).
Proof.
  induction F as [|t F IHk IHF] using forest_ind; [done|].
  rewrite structureToList_cons. cbn [findNode]. rewrite findNode_node_eq.
  case_bool_decide as Hc.
  - by rewrite filter_cons_True.
  - rewrite filter_cons_False, filter_app by done. rewrite IHk, IHF.
    by destruct (filter (λ t, tn_nodeId t = Some id) (structureToList (kids t))).
Qed.

(** X2: [isLeafNode] looks at the first node, in the order of
    [structureToList], that carries the identifier, and tells whether that
    node is childless; an identifier that no node carries gives [false]. *)
Theorem isLeafNode_first_in_preorder (data : list TreeNode) (nodeId : string) :
  isLeafNode data nodeId
  = match head (filter (λ node, tn_nodeId node = Some nodeId) (structureToList data)) with
    | Some node => childless node
    | None => false
    end.
Proof. unfold isLeafNode. by rewrite findNode_structureToList. Qed.

Lemma NoDup_fmap_eq {A B} (g : A → B) (l : list A) x y :
  NoDup (g <$> l) → x ∈ l → y ∈ l → g x = g y → x = y.
Proof.
  induction l as [|a l IH]; [by intros _ ?%elem_of_nil|].
  rewrite fmap_cons, NoDup_cons.
  intros [Ha Hl] [->|Hx]%elem_of_cons [->|Hy]%elem_of_cons Heq; [done| | |by apply IH].
  - destruct Ha. rewrite Heq. by apply list_elem_of_fmap_2.
  - destruct Ha. rewrite <- Heq. by apply list_elem_of_fmap_2.
Qed.

Lemma isLeafNode_distinct_ids F id :
  NoDup (tn_nodeId <$> structureToList F) →
  isLeafNode F id = true ↔ Some id ∈ tn_nodeId <$> getLeafNodes F.
Proof.
  intros Hnd. unfold isLeafNode.
  rewrite findNode_structureToList, getLeafNodes_structureToList.
  rewrite <- list_fmap_compose.
  split.
  - destruct (filter (λ t, tn_nodeId t = Some id) (structureToList F)) as [|t r] eqn:Hf; [done|].
    cbn [head]. intros Hc.
    assert (t ∈ filter (λ t, tn_nodeId t = Some id) (structureToList F)) as Ht by (rewrite Hf; left).
    apply list_elem_of_filter in Ht as [Hid Ht].
    apply list_elem_of_fmap. exists t. split; [by rewrite <- Hid|].
    by apply list_elem_of_filter.
  - intros (t & Hid & [Hc Ht]%list_elem_of_filter)%list_elem_of_fmap.
    cbn in Hid.
    destruct (filter (λ t, tn_nodeId t = Some id) (structureToList F)) as [|t' r] eqn:Hf.
    + assert (t ∈ filter (λ t, tn_nodeId t = Some id) (structureToList F)) as Hin
        by (apply list_elem_of_filter; by split).
      rewrite Hf in Hin. by apply elem_of_nil in Hin.
    + cbn [head].
      assert (t' ∈ filter (λ t, tn_nodeId t = Some id) (structureToList F)) as Ht' by (rewrite Hf; left).
      apply list_elem_of_filter in Ht' as [Hid' Ht'].
      rewrite (NoDup_fmap_eq tn_nodeId _ t' t Hnd Ht' Ht); [done|].
      cbn in Hid'. congruence.
Qed.

(** X3: once [writeNodeId] has numbered a tree, [isLeafNode] answers
    [true] exactly for the identifiers of the nodes [getLeafNodes]
    returns. *)
Theorem isLeafNode_agrees_with_getLeafNodes (data : list TreeNode) (nodeId : string) :
  isLeafNode (writeNodeId data 0).1 nodeId = true
  ↔ Some nodeId ∈ tn_nodeId <$> getLeafNodes (writeNodeId data 0).1.
Proof.
  apply isLeafNode_distinct_ids.
  rewrite (proj1 (writeNodeId_spec data 0)).
  apply NoDup_fmap_2; [|apply NoDup_seq].
  intros a b [= H]. by apply format_id_inj.
Qed.

Lemma removeStructureText_node_eq t :
  removeStructureText_node t
  = set_nodes (without_text t)
      match tn_nodes t with
      | Some cs => Some (removeStructureText cs)
      | None => None
      end.
Proof. by destruct t as [? ? ? ? ? ? ? [cs|]]. Qed.

Lemma kids_removeStructureText_node t :
  kids (removeStructureText_node t) = removeStructureText (kids t).
Proof. rewrite removeStructureText_node_eq. unfold kids. cbn. by destruct (tn_nodes t). Qed.

(** X4: after [removeStructureText] no node holds a text; every other
    field of every node is as it was, and so is the shape of the tree,
    empty [nodes] arrays included. *)
Theorem removeStructureText_removes_only_text (data : list TreeNode) :
  Forall2 (λ t t', own t' = without_text (own t)
                   ∧ (tn_nodes t' = None ↔ tn_nodes t = None)
                   ∧ length (kids t') = length (kids t))
    (structureToList data) (structureToList (removeStructureText data)).
Proof.
  induction data as [|t F IHk IHF] using forest_ind; [constructor|].
  change (removeStructureText (t :: F))
    with (removeStructureText_node t :: removeStructureText F).
  rewrite !structureToList_cons, kids_removeStructureText_node.
  constructor; [|by apply Forall2_app].
  rewrite removeStructureText_node_eq. split_and!.
  - done.
  - cbn. by destruct (tn_nodes t).
  - unfold kids. cbn. destruct (tn_nodes t); [|done].
    unfold removeStructureText. by rewrite length_map.
Qed.

(** X5: [removeFields] with its default field list, [['text']], returns
    the tree that [removeStructureText] leaves behind. *)
Theorem removeFields_text_is_removeStructureText (data : list TreeNode) :
  removeFields data ["text"] = removeStructureText data.
Proof.
  unfold removeFields, removeStructureText.
  induction data as [|t F IHk IHF] using forest_ind; [done|].
  cbn [map]. rewrite IHF. f_equal.
  destruct t as [ttl id si ei sm ps tx [cs|]]; [|done].
  unfold kids in IHk. cbn [tn_nodes] in IHk.
  cbn [removeFields_node removeStructureText_node].
  rewrite IHk. done.
Qed.

Lemma cleanTreeForOutput_node_eq t :
  cleanTreeForOutput_node t
  = mkTreeNode (tn_title t) (tn_nodeId t) (tn_startIndex t) None None None (tn_text t)
      match cleanTreeForOutput (kids t) with
      | [] => None
      | cs' => Some cs'
      end.
Proof. by destruct t as [? ? ? ? ? ? ? [[|c cs]|]]. Qed.

Lemma cleanTreeForOutput_formatStructure F :
  cleanTreeForOutput F = formatStructure F cleanOrder.
Proof.
  induction F as [|t F IHk IHF] using forest_ind; [done|].
  change (cleanTreeForOutput (t :: F))
    with (cleanTreeForOutput_node t :: cleanTreeForOutput F).
  change (formatStructure (t :: F) cleanOrder)
    with (formatStructure_node cleanOrder t :: formatStructure F cleanOrder).
  rewrite IHF. f_equal.
  rewrite cleanTreeForOutput_node_eq, formatStructure_node_eq, IHk.
  unfold kids. destruct t as [ttl id si ei sm ps tx [cs|]]; [|done].
  cbn [tn_nodes]. by destruct (formatStructure cs cleanOrder).
Qed.

Lemma formatStructure_keyOrder_cleanOrder F :
  Forall (λ t, tn_endIndex t = None ∧ no_summaries t) (structureToList F) →
  formatStructure F keyOrder = formatStructure F cleanOrder.
Proof.
  induction F as [|t F IHk IHF] using forest_ind; [done|].
  rewrite structureToList_cons.
  intros [(He & Hs & Hp) [Hk HF]%Forall_app]%Forall_cons.
  change (formatStructure (t :: F) ?o)
    with (formatStructure_node o t :: formatStructure F o).
  rewrite IHF by done. f_equal.
  rewrite !formatStructure_node_eq.
  destruct t as [ttl id si ei sm ps tx ns]. cbn in He, Hs, Hp. subst.
  unfold kids in IHk, Hk. cbn [tn_nodes] in *.
  destruct ns as [cs|]; [|done]. by rewrite IHk.
Qed.

Lemma buildTreeFromNodes_bare l :
  Forall (λ t, tn_endIndex t = None ∧ no_summaries t)
    (structureToList (buildTreeFromNodes l)).
Proof.
  assert (Forall (λ t, tn_endIndex t = None ∧ no_summaries t)
            (own <$> structureToList (buildTreeFromNodes l))) as H.
  { rewrite buildTreeFromNodes_preorder. generalize 1.
    induction l as [|n l IH]; intros c; constructor; [done|apply IH]. }
  rewrite Forall_fmap in H. eapply Forall_impl; [exact H|].
  by intros [ttl id si ei sm ps tx ns].
Qed.

(** X6: [cleanTreeForOutput] keeps of every node the title, the
    identifier, the text and the start index, and the children where there
    are some: it is [formatStructure] with these keys and [nodes]; on a
    tree that [buildTreeFromNodes] made it returns what [formatStructure]
    returns with the key order of [mdToTree]. *)
Theorem cleanTreeForOutput_is_formatStructure
    (treeNodes : list TreeNode) (nodeList : list MarkdownNode) :
  cleanTreeForOutput treeNodes = formatStructure treeNodes cleanOrder
  ∧ cleanTreeForOutput (buildTreeFromNodes nodeList)
    = formatStructure (buildTreeFromNodes nodeList) keyOrder.
Proof.
  split; [apply cleanTreeForOutput_formatStructure|].
  rewrite cleanTreeForOutput_formatStructure.
  symmetry. apply formatStructure_keyOrder_cleanOrder, buildTreeFromNodes_bare.
Qed.

Lemma reorderDict_idem t order :
  reorderDict (reorderDict t order) order = reorderDict t order.
Proof.
  destruct order as [|k o]; [done|].
  unfold reorderDict, keep. cbn -[bool_decide].
  f_equal; by case_bool_decide.
Qed.

Lemma tn_nodes_reorderDict t order :
  tn_nodes (reorderDict t order)
  = match order with [] => tn_nodes t | _ => keep order "nodes" (tn_nodes t) end.
Proof. by destruct order. Qed.

Lemma formatStructure_normal_form (structure : list TreeNode) (order : list string) :
  Forall (λ t, tn_nodes t ≠ Some []) (structureToList (formatStructure structure order))
  ∧ formatStructure (formatStructure structure order) order
    = formatStructure structure order.
Proof.
  induction structure as [|t F [IHk1 IHk2] [IHF1 IHF2]] using forest_ind; [by split|].
  change (formatStructure (t :: F) order)
    with (formatStructure_node order t :: formatStructure F order).
  change (formatStructure (?a :: ?b) order)
    with (formatStructure_node order a :: formatStructure b order).
  rewrite structureToList_cons.
  assert (tn_nodes (formatStructure_node order t) = None
          ∨ tn_nodes (formatStructure_node order t) = Some (formatStructure (kids t) order)
            ∧ formatStructure (kids t) order ≠ []) as Hn.
  { rewrite formatStructure_node_eq, tn_nodes_reorderDict. cbn [tn_nodes set_nodes].
    unfold kids, keep.
    destruct (tn_nodes t) as [cs|]; [|destruct order; [|case_bool_decide]; by left].
    destruct (formatStructure cs order) eqn:Hcs;
      [destruct order; [|case_bool_decide]; by left|].
    destruct order; [by right|]. case_bool_decide; [by right|by left]. }
  split.
  - constructor.
    + destruct Hn as [->|[-> Hne]]; [done|]. intros [=]. done.
    + apply Forall_app. split; [|done].
      unfold kids at 1. destruct Hn as [->|[-> _]]; [constructor|done].
  - rewrite IHF2. f_equal.
    set (u := formatStructure_node order t) in *.
    rewrite (formatStructure_node_eq order u).
    destruct Hn as [Hn|[Hn Hne]]; rewrite Hn.
    + replace (set_nodes u None) with u by (rewrite <- Hn; by destruct u).
      unfold u. rewrite formatStructure_node_eq. apply reorderDict_idem.
    + rewrite IHk2.
      destruct (formatStructure (kids t) order) as [|g G] eqn:HG; [done|].
      replace (set_nodes u (Some (g :: G))) with u by (rewrite <- Hn; by destruct u).
      unfold u. rewrite formatStructure_node_eq. apply reorderDict_idem.
Qed.

(** X7: for every key order that lists [title], the key every node
    has, [formatStructure] leaves no empty [nodes] array, at any depth;
    and applying it a second time with the same order changes nothing. *)
Theorem formatStructure_idempotent (structure : list TreeNode) (order : list string) :
  "title" ∈ order →
  Forall (λ t, tn_nodes t ≠ Some []) (structureToList (formatStructure structure order))
  ∧ formatStructure (formatStructure structure order) order
    = formatStructure structure order.
Proof.
  intros _. split.
  - apply (proj1 (formatStructure_normal_form structure order)).
  - apply (proj2 (formatStructure_normal_form structure order)).
Qed.

Lemma formatStructure_witness :
  Forall (λ t, tn_nodes t ≠ Some [])
    (structureToList
       (formatStructure (buildTreeFromNodes two_small_sections) orderWithoutText))
  ∧ formatStructure
      (formatStructure (buildTreeFromNodes two_small_sections) orderWithoutText)
      orderWithoutText
    = formatStructure (buildTreeFromNodes two_small_sections) orderWithoutText.
Proof.
  apply (formatStructure_idempotent (buildTreeFromNodes two_small_sections)
           orderWithoutText).
  vm_compute. apply list_elem_of_here.
Defined.

(** ** The Header Scanner *)

Lemma trimEnd_tail c r : trimEnd (String c r) = String c r → trimEnd r = r.
Proof.
  cbn [trimEnd]. destruct (is_ws c && is_empty (trimEnd r)); [done|]. by intros [= ->].
Qed.

Lemma trimEnd_suffix s t : trimEnd (s +:+ t) = s +:+ t → trimEnd t = t.
Proof.
  induction s as [|c s IH]; [done|]. rewrite string_app_cons.
  intros H%trimEnd_tail. by apply IH.
Qed.

Lemma trimEnd_idem s : trimEnd (trimEnd s) = trimEnd s.
Proof.
  induction s as [|c s IH]; [done|]. cbn [trimEnd].
  destruct (is_ws c && is_empty (trimEnd s)) eqn:Hc; [done|].
  cbn [trimEnd]. by rewrite IH, Hc.
Qed.

Lemma trimStart_idem s : trimStart (trimStart s) = trimStart s.
Proof.
  induction s as [|c s IH]; [done|]. cbn [trimStart].
  destruct (is_ws c) eqn:Hc; [done|]. cbn [trimStart]. by rewrite Hc.
Qed.

Lemma trimStart_trimEnd s : trimStart s = s → trimStart (trimEnd s) = trimEnd s.
Proof.
  destruct s as [|c r]; [done|]. cbn [trimStart].
  destruct (is_ws c) eqn:Hc.
  - intros H. exfalso. assert (String.length (trimStart r) ≤ String.length r) as Hle.
    { clear. induction r as [|d r IH]; [done|]. cbn [trimStart].
      destruct (is_ws d); cbn; lia. }
    rewrite H in Hle. cbn in Hle. lia.
  - intros _. cbn [trimEnd]. rewrite Hc. cbn [andb trimStart]. by rewrite Hc.
Qed.

Lemma trimEnd_trim s : trimEnd (trim s) = trim s.
Proof. apply trimEnd_idem. Qed.

Lemma trim_idem s : trim (trim s) = trim s.
Proof.
  unfold trim. rewrite (trimStart_trimEnd (trimStart s)) by apply trimStart_idem.
  apply trimEnd_idem.
Qed.

Lemma no_line_terminator_tail c r :
  no_line_terminator (String c r) = true → no_line_terminator r = true.
Proof. cbn [no_line_terminator]. by intros [_ ?]%andb_true_iff. Qed.

Lemma match_title_Some s t :
  match_title s = Some t → t = s ∧ is_empty s = false ∧ no_line_terminator s = true.
Proof.
  unfold match_title. destruct (is_empty s); [done|].
  destruct (no_line_terminator s); [|done]. by intros [= <-].
Qed.

Lemma match_space_title_shape s : ∀ t,
  match_space_title s = Some t → trimEnd s = s →
  ∃ ws, s = ws +:+ t ∧ is_empty ws = false ∧ all_ws ws = true
    ∧ is_empty t = false ∧ no_line_terminator t = true
    ∧ trimStart t = t ∧ trimEnd t = t.
Proof.
  induction s as [|c r IH]; intros t; [done|]. cbn [match_space_title].
  destruct (is_ws c) eqn:Hc; [|done]. intros Hm Hend.
  pose proof (trimEnd_tail _ _ Hend) as Hr.
  destruct (match_space_title r) as [t'|] eqn:Hsp.
  - injection Hm as ->. destruct (IH t eq_refl Hr) as (ws & -> & _ & Hws & Ht).
    exists (String c ws). rewrite string_app_cons. cbn [all_ws is_empty].
    rewrite Hc, Hws. destruct Ht as (? & ? & ? & ?). by split_and!.
  - apply match_title_Some in Hm as (-> & Hne & Hnt).
    exists (String c ""). cbn [all_ws is_empty]. rewrite Hc.
    split_and!; try done.
    destruct r as [|d r']; [done|]. cbn [trimStart].
    destruct (is_ws d) eqn:Hd; [|done]. exfalso.
    cbn [match_space_title] in Hsp. rewrite Hd in Hsp.
    destruct (match_space_title r'); [done|].
    unfold match_title in Hsp. rewrite (no_line_terminator_tail _ _ Hnt) in Hsp.
    destruct r' as [|e r'']; [|done].
    cbn [trimEnd] in Hr. rewrite Hd in Hr. done.
Qed.

Lemma match_hashes_shape fuel : ∀ s k t,
  match_hashes fuel s = Some (k, t) → trimEnd s = s →
  ∃ ws, s = repeat_char hash k +:+ ws +:+ t ∧ 1 ≤ k ≤ fuel
    ∧ is_empty ws = false ∧ all_ws ws = true
    ∧ is_empty t = false ∧ no_line_terminator t = true
    ∧ trimStart t = t ∧ trimEnd t = t.
Proof.
  induction fuel as [|fuel IH]; intros s k t; [done|].
  destruct s as [|c r]; [done|]. cbn [match_hashes].
  destruct (Ascii.eqb_spec c hash) as [->|_]; [|done]. intros Hm Hend.
  pose proof (trimEnd_tail _ _ Hend) as Hr.
  destruct (match_hashes fuel r) as [[h t']|] eqn:Hh.
  - injection Hm as <- ->. destruct (IH r h t Hh Hr) as (ws & -> & Hk & Hrest).
    exists ws. cbn [repeat_char]. rewrite string_app_cons.
    split_and!; [done|lia|lia|apply Hrest..].
  - destruct (match_space_title r) as [t'|] eqn:Hsp; [|done].
    injection Hm as <- ->.
    destruct (match_space_title_shape r t Hsp Hr) as (ws & -> & Hrest).
    exists ws. cbn [repeat_char]. rewrite string_app_cons, string_app_nil_l.
    split_and!; [done|lia|lia|apply Hrest..].
Qed.

Lemma recognized_heading_shape lines h : recognized lines h → heading_shape lines h.
Proof.
  intros (line & k & m2 & Hline & Hpos & Hm & Ht).
  destruct (match_hashes_shape 6 (trim line) k m2 Hm (trimEnd_trim line))
    as (ws & Heq & Hk & Hws1 & Hws2 & Hne & Hnt & Hs & He).
  assert (trim m2 = m2) as Htrim by (unfold trim; by rewrite Hs).
  rewrite Htrim in Ht. exists line, k, ws. rewrite Ht.
  split_and!; try done; lia.
Qed.

(** X8: the scanner splits the document at its newlines, so that joining
    the lines with newlines gives the document back; the headings it
    returns stand on lines whose numbers increase strictly, from 1 to the
    number of lines; and each of these lines, trimmed, is one to six [#],
    then white space, then the title, a title that is not empty and has no
    white space at either end and no line terminator. *)
Theorem scanned_headings_shape (markdownContent : string) :
  join nl (extractNodesFromMarkdown markdownContent).2 = markdownContent
  ∧ ascending_from 1 (S (length (extractNodesFromMarkdown markdownContent).2))
      (lineNum <$> (extractNodesFromMarkdown markdownContent).1)
  ∧ Forall (heading_shape (extractNodesFromMarkdown markdownContent).2)
      (extractNodesFromMarkdown markdownContent).1.
Proof.
  split_and!.
  - apply join_split_lines.
  - apply extractNodesFromMarkdown_ascending.
  - eapply Forall_impl; [apply extractNodesFromMarkdown_recognized|].
    apply recognized_heading_shape.
Qed.

Lemma scan_lines_app l1 : ∀ l2 k st,
  scan_lines k (l1 ++ l2) st = scan_lines (k + length l1) l2 (scan_lines k l1 st).
Proof.
  induction l1 as [|line l1 IH]; intros l2 k st; cbn [app scan_lines length].
  - by rewrite Nat.add_0_r.
  - rewrite IH. f_equal. lia.
Qed.

Lemma scan_line_fence k line b acc :
  is_fence_line line = true → scan_line k line (b, acc) = (negb b, acc).
Proof. unfold is_fence_line, scan_line. by intros ->. Qed.

Lemma scan_line_inside k line acc :
  is_fence_line line = false → scan_line k line (true, acc) = (true, acc).
Proof.
  unfold is_fence_line, scan_line. intros ->. by destruct (is_empty (trim line)).
Qed.

Lemma scan_lines_inside body : ∀ k acc,
  Forall (λ line, is_fence_line line = false) body →
  scan_lines k body (true, acc) = (true, acc).
Proof.
  induction body as [|line body IH]; intros k acc; [done|].
  intros [Hl Hb]%Forall_cons. cbn [scan_lines]. rewrite scan_line_inside by done.
  by apply IH.
Qed.

Lemma scan_lines_state lines : ∀ k b acc,
  (scan_lines k lines (b, acc)).1
  = xorb b (Nat.odd (length (filter (λ line, is_fence_line line = true) lines))).
Proof.
  induction lines as [|line lines IH]; intros k b acc; cbn [scan_lines].
  - by rewrite xorb_false_r.
  - destruct (is_fence_line line) eqn:Hf.
    + rewrite scan_line_fence, IH by done. rewrite filter_cons_True by done.
      cbn [length]. rewrite Nat.odd_succ, <- Nat.negb_odd.
      by destruct b, (Nat.odd _).
    + rewrite filter_cons_False by congruence.
      destruct (scan_line_spec k line b acc) as (b' & new & Hs & _ & _).
      assert (b' = b) as ->.
      { revert Hs. unfold scan_line. unfold is_fence_line in Hf. rewrite Hf.
        destruct (is_empty _); [by intros [= <-]|].
        destruct (negb b); [|by intros [= <-]].
        destruct (headerPattern _) as [[]|]; by intros [= <-]. }
      rewrite Hs. apply IH.
Qed.

Lemma ascending_from_bounds lo hi l :
  ascending_from lo hi l → Forall (λ x, lo ≤ x < hi) l.
Proof.
  revert lo. induction l as [|x l IH]; intros lo; [constructor|].
  cbn [ascending_from]. intros [Hx Hl]. constructor; [done|].
  eapply Forall_impl; [by apply IH|]. cbn. lia.
Qed.

Lemma scan_lines_bounds lines k b :
  Forall (λ h, k ≤ lineNum h < k + length lines) (scan_lines k lines (b, [])).2.
Proof.
  pose proof (ascending_from_bounds _ _ _ (scan_lines_ascending lines k b)) as H.
  by rewrite Forall_fmap in H.
Qed.

(** X9: a fenced code block hides its lines from the scanner. Where the
    lines before an opening fence line close every fence, and no line
    between it and the next fence line (or the end of the document) is a
    fence line, no heading is recognized on the opening line, on the lines
    of the block or on the closing line. *)
Theorem fenced_block_hides_headings
    (markdownContent : string) (before : list string) (opening : string)
    (block rest : list string) :
  (extractNodesFromMarkdown markdownContent).2 = before ++ opening :: block ++ rest →
  fences_closed before →
  is_fence_line opening = true →
  Forall (λ line, is_fence_line line = false) block →
  (∀ closing, head rest = Some closing → is_fence_line closing = true) →
  Forall (λ h, ¬ (length before < lineNum h ≤ length before + length block + 2))
    (extractNodesFromMarkdown markdownContent).1.
Proof.
  unfold extractNodesFromMarkdown. cbn [fst snd]. intros -> Hclosed Hopen Hblock Hrest.
  rewrite scan_lines_app. cbn [scan_lines].
  pose proof (scan_lines_state before 1 false []) as Hst.
  unfold fences_closed in Hclosed. rewrite <- Nat.negb_even, Hclosed in Hst.
  pose proof (scan_lines_bounds before 1 false) as Hbefore.
  destruct (scan_lines 1 before (false, [])) as [b acc]. cbn in Hst, Hbefore. subst b.
  rewrite scan_line_fence by done. cbn [negb].
  rewrite scan_lines_app, scan_lines_inside by done.
  destruct rest as [|closing post]; cbn [scan_lines snd].
  - eapply Forall_impl; [exact Hbefore|]. cbn. lia.
  - rewrite scan_line_fence by (by apply Hrest). cbn [negb].
    rewrite scan_lines_acc. apply Forall_app. split.
    + eapply Forall_impl; [exact Hbefore|]. cbn. lia.
    + eapply Forall_impl; [apply scan_lines_bounds|]. cbn. lia.
Qed.

Lemma fenced_block_witness :
  let markdownContent := "# A" +:+ nl +:+ fence +:+ nl +:+ "# not a heading" +:+ nl +:+ fence in
  (extractNodesFromMarkdown markdownContent).2 = ["# A"] ++ fence :: ["# not a heading"] ++ [fence]
  ∧ Forall (λ h, ¬ (1 < lineNum h ≤ 1 + 1 + 2))
      (extractNodesFromMarkdown markdownContent).1.
Proof.
  split; [reflexivity|].
  apply (fenced_block_hides_headings _ ["# A"] fence ["# not a heading"] [fence]).
  - reflexivity.
  - reflexivity.
  - reflexivity.
  - repeat constructor.
  - intros closing [= <-]. reflexivity.
Defined.

(** ** The Section Materializer *)

Lemma leading_hashes_le fuel : ∀ s, leading_hashes fuel s ≤ fuel.
Proof.
  induction fuel as [|fuel IH]; intros s; [done|].
  destruct s as [|c r]; cbn [leading_hashes]; [lia|].
  destruct (Ascii.eqb c hash); [|lia]. specialize (IH r). lia.
Qed.

Lemma header_nodes_result nodeList lines :
  match header_nodes nodeList lines with
  | Ok allNodes =>
      Forall (λ h, 1 ≤ lineNum h ≤ length lines) nodeList
      ∧ length allNodes ≤ length nodeList
      ∧ Forall (λ n, 1 ≤ md_level n ≤ 6) allNodes
  | Err e =>
      e = TypeError ∧ Exists (λ h, lineNum h = 0 ∨ length lines < lineNum h) nodeList
  end.
Proof.
  induction nodeList as [|[ttl ln] rest IH]; cbn [header_nodes lineNum nodeTitle].
  { split_and!; [constructor|done|constructor]. }
  destruct ln as [|k].
  { split; [done|]. left. by left. }
  destruct (lines !! k) as [line|] eqn:Hk.
  2:{ split; [done|]. left. right. apply lookup_ge_None in Hk. cbn. lia. }
  apply lookup_lt_Some in Hk.
  destruct (header_nodes rest lines) as [nodes|e]; cbn [bind].
  2:{ destruct IH as [-> IH]. split; [done|]. by right. }
  destruct IH as (Hall & Hlen & Hlev).
  unfold headerMatch. pose proof (leading_hashes_le 6 line) as Hle.
  destruct (leading_hashes 6 line) as [|len].
  - split_and!; [constructor; [cbn; lia|done]|cbn; lia|done].
  - split_and!; [constructor; [cbn; lia|done]|cbn; lia|].
    constructor; [cbn; lia|done].
Qed.

Lemma fill_text_length lines allNodes : length (fill_text lines allNodes) = length allNodes.
Proof. induction allNodes as [|n r IH]; [done|]. cbn [fill_text length]. by rewrite IH. Qed.

Lemma fill_text_level lines allNodes :
  md_level <$> fill_text lines allNodes = md_level <$> allNodes.
Proof.
  induction allNodes as [|n r IH]; [done|].
  cbn [fill_text]. rewrite !fmap_cons. by rewrite IH.
Qed.

(** X10: [extractNodeTextContent] returns exactly when every entry names a
    line of the document, with at most one section per entry, each of
    level 1 to 6; when an entry names line 0 or a line past the end, it
    throws a [TypeError]. *)
Theorem materializer_needs_valid_line_numbers
    (nodeList : list HeaderRef) (markdownLines : list string) :
  match extractNodeTextContent nodeList markdownLines with
  | Ok sections =>
      Forall (λ h, 1 ≤ lineNum h ≤ length markdownLines) nodeList
      ∧ length sections ≤ length nodeList
      ∧ Forall (λ n, 1 ≤ md_level n ≤ 6) sections
  | Err e =>
      e = TypeError
      ∧ Exists (λ h, lineNum h = 0 ∨ length markdownLines < lineNum h) nodeList
  end.
Proof.
  unfold extractNodeTextContent.
  pose proof (header_nodes_result nodeList markdownLines) as H.
  destruct (header_nodes nodeList markdownLines) as [allNodes|e]; cbn [bind]; [|done].
  destruct H as (Hall & Hlen & Hlev). rewrite fill_text_length.
  split_and!; [done..|].
  assert (Forall (λ x, 1 ≤ x ≤ 6) (md_level <$> fill_text markdownLines allNodes)) as H.
  { rewrite fill_text_level. by apply Forall_fmap. }
  by rewrite Forall_fmap in H.
Qed.

Lemma join_hash_head r0 e : ∃ x, join nl (String hash r0 :: e) = String hash x.
Proof.
  destruct e as [|y e]; [by eexists|].
  cbn [join]. rewrite string_app_cons. by eexists.
Qed.

Lemma trim_hash_head x : ∃ y, trim (String hash x) = String hash y.
Proof.
  unfold trim. change (trimStart (String hash x)) with (String hash x).
  cbn [trimEnd]. change (is_ws hash) with false. by eexists.
Qed.

Lemma fill_text_heading_first lines allNodes : ∀ lo,
  ascending_from lo (S (length lines)) (md_lineNum <$> allNodes) →
  Forall (λ n, ∃ k r, md_lineNum n = S k ∧ lines !! k = Some (String hash r)) allNodes →
  Forall (λ n, ∃ t, md_text n = Some (String hash t) ∧ trim (String hash t) = String hash t)
    (fill_text lines allNodes).
Proof.
  induction allNodes as [|n rest IH]; intros lo; [constructor|].
  rewrite fmap_cons. cbn [ascending_from fill_text].
  intros [Hn Hasc] [(k & r0 & Hk & Hline) Hrest]%Forall_cons.
  constructor; [|by eapply IH].
  assert (∃ e, slice (md_lineNum n - 1)
                 match rest with
                 | [] => length lines
                 | next :: _ => md_lineNum next - 1
                 end lines = String hash r0 :: e) as [e ->].
  { unfold slice. rewrite Hk. replace (S k - 1) with k by lia.
    rewrite (drop_S _ _ _ Hline).
    assert (∃ m, match rest with
                 | [] => length lines
                 | next :: _ => md_lineNum next - 1
                 end - k = S m) as [m ->]; [|by eexists].
    destruct rest as [|next r].
    - exists (length lines - S k). apply lookup_lt_Some in Hline. lia.
    - rewrite fmap_cons in Hasc. destruct Hasc as [Hnext _].
      exists (md_lineNum next - 1 - S k). lia. }
  destruct (join_hash_head r0 e) as [x Hx]. destruct (trim_hash_head x) as [y Hy].
  exists y. cbn [md_text set_text]. rewrite Hx, <- Hy. split; [done|apply trim_idem].
Qed.

(** X11: on what the scanner returns for a document,
    [extractNodeTextContent] never throws; the sections stand on lines
    whose numbers increase strictly, and the text of every section starts
    with the [#] of its heading line and has no white space at either
    end. *)
Theorem materializer_accepts_scanner_output (markdownContent : string) :
  ∃ sections,
    extractNodeTextContent (extractNodesFromMarkdown markdownContent).1
      (extractNodesFromMarkdown markdownContent).2 = Ok sections
    ∧ ascending_from 1 (S (length (extractNodesFromMarkdown markdownContent).2))
        (md_lineNum <$> sections)
    ∧ Forall (λ n, ∃ t, md_text n = Some (String hash t)
                     ∧ trim (String hash t) = String hash t) sections.
Proof.
  unfold extractNodeTextContent.
  destruct (header_nodes_ok _ _ 1 (le_n 1)
              (extractNodesFromMarkdown_ascending markdownContent))
    as (allNodes & Hhn & Hasc).
  rewrite Hhn. cbn [bind]. eexists. split_and!; [done| |].
  - by rewrite fill_text_lineNum.
  - eapply fill_text_heading_first; [done|]. by eapply header_nodes_heads.
Qed.

(** ** Token counts *)

Lemma total_text_ext (l l' : list MarkdownNode) n n' idxs :
  md_text <$> l' = md_text <$> l → md_text n' = md_text n →
  total_text l' n' idxs = total_text l n idxs.
Proof.
  intros Hl Hn. unfold total_text, text_or_empty. rewrite Hn.
  generalize (default "" (md_text n)). induction idxs as [|j idxs IH]; intros acc; [done|].
  cbn [foldl].
  assert (l' !! j ≫= md_text = l !! j ≫= md_text) as Hj.
  { pose proof (f_equal (.!! j) Hl) as H. rewrite !list_lookup_fmap in H.
    destruct (l' !! j), (l !! j); cbn in *; congruence. }
  destruct (l' !! j) as [c'|], (l !! j) as [c|]; cbn in Hj.
  - rewrite Hj. apply IH.
  - rewrite Hj. apply IH.
  - rewrite <- Hj. apply IH.
  - apply IH.
Qed.

Lemma count_step_fields i l :
  md_text <$> count_step i l = md_text <$> l
  ∧ md_level <$> count_step i l = md_level <$> l.
Proof.
  unfold count_step. destruct (l !! i) as [n|] eqn:Hn; [|done].
  rewrite !list_fmap_insert. split; apply list_insert_id; by rewrite list_lookup_fmap, Hn.
Qed.

Lemma count_loop_spec l k : ∀ l',
  md_text <$> l' = md_text <$> l → md_level <$> l' = md_level <$> l →
  (∀ j, l' !! j = if decide (k ≤ j) then with_count l j <$> l !! j else l !! j) →
  ∀ j, count_loop k l' !! j = with_count l j <$> l !! j.
Proof.
  induction k as [|k IH]; intros l' Ht Hl Hl' j; cbn [count_loop].
  { rewrite Hl'. by rewrite decide_True by lia. }
  destruct (count_step_fields k l') as [Ht' Hlv'].
  apply IH; [congruence..|]. clear j. intros j.
  unfold count_step. pose proof (Hl' k) as Hk. rewrite decide_False in Hk by lia.
  rewrite Hk. destruct (l !! k) as [n|] eqn:Hn.
  - destruct (decide (j = k)) as [->|Hne].
    + rewrite list_lookup_insert_eq by (apply lookup_lt_Some in Hk; lia).
      rewrite decide_True, Hn by lia. cbn. unfold with_count.
      rewrite (findAllChildren_levels l' l) by done.
      by rewrite (total_text_ext l l' n n).
    + rewrite list_lookup_insert_ne by done. rewrite Hl'.
      destruct (decide (S k ≤ j)); [by rewrite decide_True by lia|].
      by rewrite decide_False by lia.
  - rewrite Hl'. destruct (decide (S k ≤ j)); [by rewrite decide_True by lia|].
    destruct (decide (k ≤ j)); [|done]. assert (j = k) as -> by lia. by rewrite Hn.
Qed.

Lemma updateNodeListWithTextTokenCount_lookup l j :
  updateNodeListWithTextTokenCount l !! j = with_count l j <$> l !! j.
Proof.
  unfold updateNodeListWithTextTokenCount. apply count_loop_spec; [done..|].
  intros i. destruct (decide (length l ≤ i)); [|done].
  by rewrite (lookup_ge_None_2 l i).
Qed.


Lemma added_weight_app l a b :
  added_weight l (a ++ b) = added_weight l a + added_weight l b.
Proof.
  unfold added_weight. induction a as [|x a IH]; [done|].
  cbn [app foldr]. rewrite IH. lia.
Qed.

Lemma total_text_length l n idxs :
  String.length (total_text l n idxs)
  = String.length (text_or_empty n) + added_weight l idxs.
Proof.
  unfold total_text, added_weight. generalize (text_or_empty n).
  induction idxs as [|j idxs IH]; intros acc; cbn [foldl foldr]; [lia|].
  rewrite IH. unfold text_weight.
  destruct (l !! j) as [c|]; cbn; [|lia].
  destruct (md_text c) as [t|]; [|lia].
  destruct (is_empty t); [lia|].
  rewrite !string_length_app. cbn. lia.
Qed.

Lemma text_weight_own (l : list MarkdownNode) c nc :
  l !! c = Some nc → String.length (text_or_empty nc) ≤ text_weight (l !! c).
Proof.
  intros ->. unfold text_weight, text_or_empty. cbn.
  destruct (md_text nc) as [[|a t]|]; cbn; lia.
Qed.

Lemma estimateTokens_mono s t :
  String.length s ≤ String.length t → (estimateTokens s ≤ estimateTokens t)%Z.
Proof. intros H. unfold estimateTokens. apply Z.div_le_mono; lia. Qed.

Lemma findAllChildren_nested l i lvl c nc :
  c ∈ findAllChildren i lvl l → l !! c = Some nc →
  ∃ a b, findAllChildren i lvl l
         = a ++ c :: findAllChildren c (md_level nc) l ++ b.
Proof.
  intros Hc Hnc. pose proof Hc as Hc'. apply elem_of_findAllChildren in Hc' as [Hic Hrun].
  rewrite !findAllChildren_seq.
  set (ki := child_run lvl (drop (S i) l)).
  set (kc := child_run (md_level nc) (drop (S c) l)).
  assert (c < S i + ki) as Hlt.
  { rewrite findAllChildren_seq in Hc. apply elem_of_seq in Hc. lia. }
  assert (S c + kc ≤ S i + ki) as Hle.
  { destruct kc as [|m] eqn:Hkc; [lia|].
    assert (c + S m ∈ findAllChildren i lvl l) as Hin.
    { apply elem_of_findAllChildren. split; [lia|]. intros y Hy.
      destruct (decide (y ≤ c)) as [|Hyc]; [apply Hrun; lia|].
      assert (y ∈ findAllChildren c (md_level nc) l) as Hy'.
      { rewrite findAllChildren_seq. apply elem_of_seq. fold kc. lia. }
      apply elem_of_findAllChildren in Hy' as [_ Hy'].
      destruct (Hy' y) as (n & Hn & Hlv); [lia|]. exists n. split; [done|].
      destruct (Hrun c) as (nc' & Hnc' & Hlvc); [lia|].
      assert (nc' = nc) as -> by congruence. lia. }
    rewrite findAllChildren_seq in Hin. apply elem_of_seq in Hin. fold ki in Hin. lia. }
  exists (seq (S i) (c - S i)), (seq (S c + kc) (S i + ki - (S c + kc))).
  replace ki with ((c - S i) + S (kc + (S i + ki - (S c + kc)))) by lia.
  rewrite seq_app. f_equal. replace (S i + (c - S i)) with c by lia.
  cbn [seq]. f_equal. rewrite seq_app. do 2 f_equal. lia.
Qed.

(** X13: after [updateNodeListWithTextTokenCount] the token count of
    every section, with or without sections below it, is at least the
    estimate for its own text; and it is at least the token count of every
    section below it. *)
Theorem token_counts_grow_towards_the_root
    (nodeList : list MarkdownNode) (i : nat) (n : MarkdownNode) :
  updateNodeListWithTextTokenCount nodeList !! i = Some n →
  (estimateTokens (text_or_empty n) ≤ tokens_or_zero n)%Z
  ∧ (∀ c nc,
       updateNodeListWithTextTokenCount nodeList !! c = Some nc →
       c ∈ findAllChildren i (md_level n) nodeList →
       (tokens_or_zero nc ≤ tokens_or_zero n)%Z).
Proof.
  rewrite updateNodeListWithTextTokenCount_lookup.
  destruct (nodeList !! i) as [n0|] eqn:Hi; [|done].
  intros [= <-].
  change (md_level (with_count nodeList i n0)) with (md_level n0).
  change (text_or_empty (with_count nodeList i n0)) with (text_or_empty n0).
  change (tokens_or_zero (with_count nodeList i n0))
    with (estimateTokens (total_text nodeList n0
            (findAllChildren i (md_level n0) nodeList))).
  split.
  - apply estimateTokens_mono. rewrite !total_text_length. lia.
  - intros c nc. rewrite updateNodeListWithTextTokenCount_lookup.
    destruct (nodeList !! c) as [c0|] eqn:Hc; [|done].
    intros [= <-] Hin.
    change (tokens_or_zero (with_count nodeList c c0))
      with (estimateTokens (total_text nodeList c0
              (findAllChildren c (md_level c0) nodeList))).
    apply estimateTokens_mono. rewrite !total_text_length.
    destruct (findAllChildren_nested _ _ _ _ _ Hin Hc) as (a & b & ->).
    rewrite !added_weight_app. cbn [added_weight foldr].
    fold (added_weight nodeList (findAllChildren c (md_level c0) nodeList ++ b)).
    rewrite added_weight_app.
    pose proof (text_weight_own nodeList c c0 Hc). lia.
Qed.

Lemma token_counts_witness :
  ((estimateTokens "# A" ≤ 2)%Z ∧ (1 ≤ 2)%Z) ∧ (estimateTokens "## B" ≤ 1)%Z.
Proof.
  split; [split|].
  - apply (token_counts_grow_towards_the_root two_small_sections 0
             (mkMarkdownNode "A" 1 1 (Some "# A") (Some 2%Z))).
    reflexivity.
  - apply (proj2 (token_counts_grow_towards_the_root two_small_sections 0
                    (mkMarkdownNode "A" 1 1 (Some "# A") (Some 2%Z)) eq_refl)
             1 (mkMarkdownNode "B" 2 2 (Some "## B") (Some 1%Z))).
    + reflexivity.
    + vm_compute. apply list_elem_of_here.
  - apply (token_counts_grow_towards_the_root two_small_sections 1
             (mkMarkdownNode "B" 2 2 (Some "## B") (Some 1%Z))).
    reflexivity.
Defined.

(** ** Thinning: which sections are left *)

Lemma thin_step_headings T i l rm :
  heading_of <$> (thin_step T i (l, rm)).1 = heading_of <$> l.
Proof.
  unfold thin_step. destruct (decide (i ∈ rm)) as [|Hni]; [done|].
  destruct (l !! i) as [n|] eqn:Hn; [|done].
  destruct (tokens_or_zero n <? T)%Z; [|done].
  destruct (collect_children _ _ _) as [[|t ts] rm']; [done|]. cbn [fst].
  rewrite list_fmap_insert. apply list_insert_id. by rewrite list_lookup_fmap, Hn.
Qed.

Lemma thin_loop_headings T k : ∀ l rm,
  heading_of <$> (thin_loop T k (l, rm)).1 = heading_of <$> l.
Proof.
  induction k as [|k IH]; intros l rm; [done|]. cbn [thin_loop].
  pose proof (thin_step_headings T k l rm) as H.
  destruct (thin_step T k (l, rm)) as [l1 rm1]. by rewrite IH.
Qed.

Lemma survivors_from_sublist {A} (g : MarkdownNode → A) rm l : ∀ s,
  g <$> survivors_from s rm l `sublist_of` g <$> l.
Proof.
  induction l as [|n l IH]; intros s; [done|]. cbn [survivors_from].
  destruct (decide (s ∈ rm)) as [|Hni].
  - rewrite fmap_cons. by apply sublist_cons.
  - rewrite !fmap_cons. by apply sublist_skip.
Qed.

(** X14: thinning leaves a sub-sequence of the sections: every section
    that is left has the title, the line and the level it had, the
    sections are in their order, and the first section is always left. *)
Theorem thinning_leaves_a_subsequence (nodeList : list MarkdownNode) (minNodeToken : Z) :
  heading_of <$> treeThinningForIndex nodeList minNodeToken
    `sublist_of` heading_of <$> nodeList
  ∧ head (heading_of <$> treeThinningForIndex nodeList minNodeToken)
    = head (heading_of <$> nodeList).
Proof.
  unfold treeThinningForIndex.
  pose proof (thin_loop_headings minNodeToken (length nodeList) nodeList ∅) as Hh.
  pose proof (thin_loop_inv minNodeToken nodeList (length nodeList) nodeList ∅
                (thin_inv_init minNodeToken nodeList)) as Hinv.
  destruct (thin_loop minNodeToken (length nodeList) (nodeList, ∅)) as [l' rm].
  cbn [fst snd] in Hh, Hinv. rewrite splice_sort_desc, <- Hh. split.
  - apply survivors_from_sublist.
  - destruct l' as [|n l']; [done|]. cbn [survivors_from].
    destruct (decide (0 ∈ rm)) as [H0|]; [|done].
    destruct (ti_cover _ _ _ _ _ Hinv 0 H0) as (a & _ & Ha & _). lia.
Qed.

Lemma thin_loop_above T k : ∀ l,
  Forall (λ n, (T ≤ tokens_or_zero n)%Z) l → thin_loop T k (l, ∅) = (l, ∅).
Proof.
  induction k as [|k IH]; intros l Hl; [done|]. cbn [thin_loop].
  assert (thin_step T k (l, ∅) = (l, ∅)) as ->; [|by apply IH].
  unfold thin_step. destruct (decide (k ∈ ∅)) as [|Hni]; [done|].
  destruct (l !! k) as [n|] eqn:Hn; [|done].
  rewrite Forall_lookup in Hl. specialize (Hl k n Hn).
  by rewrite (proj2 (Z.ltb_ge _ _) Hl).
Qed.

(** X15: where every section has a token count at or above the
    threshold, thinning returns the list as it is. *)
Theorem thinning_keeps_large_sections (nodeList : list MarkdownNode) (minNodeToken : Z) :
  Forall (λ n, (minNodeToken ≤ tokens_or_zero n)%Z) nodeList →
  treeThinningForIndex nodeList minNodeToken = nodeList.
Proof.
  intros H. unfold treeThinningForIndex. rewrite thin_loop_above by done.
  by rewrite elements_empty.
Qed.

Lemma thinning_large_witness :
  Forall (λ n, (1 ≤ tokens_or_zero n)%Z) two_small_sections
  ∧ treeThinningForIndex two_small_sections 1 = two_small_sections.
Proof.
  assert (Forall (λ n, (1 ≤ tokens_or_zero n)%Z) two_small_sections) as H.
  { repeat constructor; vm_compute; discriminate. }
  split; [exact H|]. exact (thinning_keeps_large_sections two_small_sections 1 H).
Defined.

(** ** The tree builder, section by section *)

Lemma set_nodes_id t : set_nodes t (tn_nodes t) = t.
Proof. by destruct t. Qed.

Lemma alter_node_ext f g p : ∀ t,
  (∀ u, get_node p t = Some u → f u = g u) → alter_node f p t = alter_node g p t.
Proof.
  induction p as [|i p IH]; intros t H; cbn [alter_node]; [by apply H|].
  f_equal. destruct (tn_nodes t) as [cs|] eqn:Hcs; [|done]. cbn. f_equal.
  apply list_alter_ext; [|done]. intros c Hc. apply IH. intros u Hu. apply H.
  cbn [get_node]. rewrite Hcs. cbn. by rewrite Hc.
Qed.

Lemma mutate_ext f g p F :
  (∀ u, deref F p = Some u → f u = g u) → mutate f p F = mutate g p F.
Proof.
  destruct p as [|i p]; [done|]. intros H. cbn [mutate].
  apply list_alter_ext; [|done]. intros t Ht. apply alter_node_ext.
  intros u Hu. apply H. cbn [deref]. by rewrite Ht.
Qed.

Lemma alter_node_compose f g p : ∀ t,
  alter_node f p (alter_node g p t) = alter_node (f ∘ g) p t.
Proof.
  induction p as [|i p IH]; intros t; cbn [alter_node]; [done|].
  cbn [tn_nodes set_nodes]. unfold set_nodes at 1. cbn [tn_title tn_nodeId tn_startIndex
    tn_endIndex tn_summary tn_prefixSummary tn_text set_nodes].
  unfold set_nodes. f_equal. destruct (tn_nodes t) as [cs|]; [|done]. cbn. f_equal.
  rewrite list_alter_alter_eq. apply list_alter_ext; [|done]. intros c _. apply IH.
Qed.

Lemma mutate_compose f g p F :
  mutate f p (mutate g p F) = mutate (f ∘ g) p F.
Proof.
  destruct p as [|i p]; [done|]. cbn [mutate].
  rewrite list_alter_alter_eq. apply list_alter_ext; [|done]. intros c _.
  apply alter_node_compose.
Qed.

Lemma alter_node_snoc f p i : ∀ t,
  alter_node f (p ++ [i]) t
  = alter_node (λ u, set_nodes u (alter f i <$> tn_nodes u)) p t.
Proof.
  induction p as [|j p IH]; intros t; cbn [app alter_node].
  - reflexivity.
  - f_equal. destruct (tn_nodes t); [|done]. cbn. f_equal.
    apply list_alter_ext; [|done]. intros c _. apply IH.
Qed.

Lemma mutate_snoc f p i F :
  p ≠ [] →
  mutate f (p ++ [i]) F = mutate (λ u, set_nodes u (alter f i <$> tn_nodes u)) p F.
Proof.
  destruct p as [|j p]; [done|]. intros _. cbn [app mutate].
  apply list_alter_ext; [|done]. intros c _. apply alter_node_snoc.
Qed.

Lemma get_node_alter_same f p : ∀ t u,
  get_node p t = Some u → get_node p (alter_node f p t) = Some (f u).
Proof.
  induction p as [|i p IH]; intros t u; cbn [get_node alter_node]; [by intros [= ->]|].
  cbn [tn_nodes set_nodes]. destruct (tn_nodes t) as [cs|]; [|done]. cbn.
  rewrite list_lookup_alter_eq. destruct (cs !! i) as [c|]; [|done]. cbn. apply IH.
Qed.

Lemma deref_mutate_same f p F u :
  deref F p = Some u → deref (mutate f p F) p = Some (f u).
Proof.
  destruct p as [|i p]; [done|]. cbn [deref mutate].
  rewrite list_lookup_alter_eq. destruct (F !! i) as [t|]; [|done]. cbn.
  apply get_node_alter_same.
Qed.

Lemma graft_nil p F : graft p [] F = F.
Proof.
  unfold graft. rewrite (mutate_ext _ id).
  - destruct p as [|i p]; [done|]. cbn [mutate]. apply list_alter_id.
    intros t. clear. revert t. induction p as [|j p IH]; intros t; [done|].
    cbn [alter_node]. destruct t as [? ? ? ? ? ? ? [cs|]]; [|done].
    unfold set_nodes. cbn. do 2 f_equal. by apply list_alter_id.
  - intros u _. unfold graft_node. destruct u as [? ? ? ? ? ? ? [cs|]]; [|done].
    unfold set_nodes. cbn. by rewrite app_nil_r.
Qed.

Lemma graft_graft p G1 G2 F :
  graft p G2 (graft p G1 F) = graft p (G1 ++ G2) F.
Proof.
  unfold graft. rewrite mutate_compose. apply mutate_ext. intros u _.
  unfold graft_node, set_nodes. cbn. f_equal.
  destruct (tn_nodes u); [|done]. cbn. by rewrite app_assoc.
Qed.

Lemma graft_child p G x F u cs :
  p ≠ [] → deref F p = Some u → tn_nodes u = Some cs →
  graft (p ++ [length cs]) G (graft p [x] F) = graft p [graft_node G x] F.
Proof.
  intros Hp Hu Hcs. unfold graft. rewrite mutate_snoc by done.
  rewrite mutate_compose. apply mutate_ext. intros u' Hu'.
  assert (u' = u) as -> by congruence.
  unfold graft_node at 2 3, set_nodes. cbn. rewrite Hcs. cbn. f_equal.
  by rewrite alter_last.
Qed.

Lemma deref_graft p G F u cs :
  deref F p = Some u → tn_nodes u = Some cs →
  deref (graft p G F) p = Some (graft_node G u)
  ∧ tn_nodes (graft_node G u) = Some (cs ++ G).
Proof.
  intros Hu Hcs. split; [by apply deref_mutate_same|].
  unfold graft_node. cbn. by rewrite Hcs.
Qed.

Lemma pop_to_junk lvl junk p L stk :
  Forall (λ e : ref * nat, lvl ≤ e.2) junk → L < lvl →
  pop_to lvl (junk ++ (p, L) :: stk) = (p, L) :: stk.
Proof.
  intros Hj HL. induction Hj as [|[q m] junk Hm _ IH]; cbn [app pop_to].
  - by rewrite (proj2 (Nat.leb_gt lvl L)) by lia.
  - cbn in Hm. by rewrite (proj2 (Nat.leb_le lvl m)) by lia.
Qed.

Lemma pop_to_all lvl junk :
  Forall (λ e : ref * nat, lvl ≤ e.2) junk → pop_to lvl junk = [].
Proof.
  intros Hj. induction Hj as [|[q m] junk Hm _ IH]; cbn [pop_to]; [done|].
  cbn in Hm. by rewrite (proj2 (Nat.leb_le lvl m)) by lia.
Qed.

Lemma child_run_take lvl rest :
  Forall (λ n, lvl < md_level n) (take (child_run lvl rest) rest).
Proof.
  induction rest as [|n rest IH]; cbn [child_run]; [constructor|].
  destruct (md_level n <=? lvl) eqn:Hn; [constructor|].
  cbn [take]. constructor; [|done]. apply Nat.leb_gt in Hn. lia.
Qed.

Lemma child_run_drop lvl rest m :
  head (drop (child_run lvl rest) rest) = Some m → md_level m ≤ lvl.
Proof.
  induction rest as [|n rest IH]; cbn [child_run]; [done|].
  destruct (md_level n <=? lvl) eqn:Hn; [|done].
  cbn. intros [= <-]. by apply Nat.leb_le.
Qed.

Lemma build_step_child st n junk p L stk u cs :
  stack st = junk ++ (p, L) :: stk →
  Forall (λ e : ref * nat, md_level n ≤ e.2) junk → L < md_level n →
  deref (rootNodes st) p = Some u → tn_nodes u = Some cs →
  build_step st n
  = mkBuildState (graft p [new_tree_node (nodeCounter st) n] (rootNodes st))
      ((p ++ [length cs], md_level n) :: (p, L) :: stk) (S (nodeCounter st)).
Proof.
  intros Hs Hj HL Hu Hcs. unfold build_step. rewrite Hs, pop_to_junk by done.
  rewrite Hu. cbn [mbind option_bind]. by rewrite Hcs.
Qed.

Lemma build_step_root st n :
  Forall (λ e : ref * nat, md_level n ≤ e.2) (stack st) →
  build_step st n
  = mkBuildState (rootNodes st ++ [new_tree_node (nodeCounter st) n])
      [([length (rootNodes st)], md_level n)] (S (nodeCounter st)).
Proof. intros Hj. unfold build_step. by rewrite pop_to_all. Qed.

Lemma build_run fuel : ∀ l st junk p L stk u cs,
  length l ≤ fuel →
  stack st = junk ++ (p, L) :: stk →
  p ≠ [] → deref (rootNodes st) p = Some u → tn_nodes u = Some cs →
  Forall (λ n, L < md_level n) l →
  (∀ n, head l = Some n → Forall (λ e : ref * nat, md_level n ≤ e.2) junk) →
  Forall (λ e : ref * nat, L < e.2) junk →
  ∃ junk',
    rootNodes (foldl build_step st l)
    = graft p (forest_of fuel (nodeCounter st) l) (rootNodes st)
    ∧ nodeCounter (foldl build_step st l) = nodeCounter st + length l
    ∧ stack (foldl build_step st l) = junk' ++ (p, L) :: stk
    ∧ Forall (λ e : ref * nat, L < e.2) junk'.
Proof.
  induction fuel as [|fuel IH];
    intros l st junk p L stk u cs Hlen Hs Hp Hu Hcs Hl Hhead Hjunk.
  { destruct l; [|cbn in Hlen; lia]. exists junk. cbn [foldl forest_of length].
    rewrite graft_nil. split_and!; [done|lia|done|done]. }
  destruct l as [|n rest].
  { exists junk. cbn [foldl forest_of length]. rewrite graft_nil.
    split_and!; [done|lia|done|done]. }
  cbn [foldl forest_of length] in *. apply Forall_cons in Hl as [Hn Hrest].
  rewrite (build_step_child st n junk p L stk u cs) by (try done; by apply Hhead).
  set (c := nodeCounter st). set (F := rootNodes st) in *.
  set (x := new_tree_node c n). set (k := child_run (md_level n) rest).
  set (p' := p ++ [length cs]).
  set (st1 := mkBuildState (graft p [x] F) ((p', md_level n) :: (p, L) :: stk) (S c)).
  assert (k ≤ length rest) as Hk by apply child_run_le.
  assert (foldl build_step st1 rest
          = foldl build_step (foldl build_step st1 (take k rest)) (drop k rest)) as ->.
  { by rewrite <- foldl_app, take_drop. }
  destruct (deref_graft p [x] F u cs Hu Hcs) as [Hu1 Hcs1].
  destruct (IH (take k rest) st1 [] p' (md_level n) ((p, L) :: stk) x [])
    as (junk2 & Hr2 & Hc2 & Hs2 & Hj2).
  { rewrite length_take. lia. }
  { done. }
  { unfold p'. by destruct p. }
  { cbn [rootNodes st1]. unfold p'. rewrite deref_snoc by done. rewrite Hu1.
    cbn [mbind option_bind]. rewrite Hcs1. cbn [mbind option_bind]. apply lookup_last. }
  { done. }
  { apply child_run_take. }
  { intros; constructor. }
  { constructor. }
  set (st2 := foldl build_step st1 (take k rest)) in *.
  cbn [rootNodes nodeCounter st1] in Hr2, Hc2.
  set (G1 := forest_of fuel (S c) (take k rest)) in *.
  unfold p' in Hr2. rewrite (graft_child p G1 x F u cs) in Hr2 by done.
  destruct (deref_graft p [graft_node G1 x] F u cs Hu Hcs) as [Hu2 Hcs2].
  destruct (IH (drop k rest) st2 (junk2 ++ [(p', md_level n)]) p L stk
              (graft_node [graft_node G1 x] u) (cs ++ [graft_node G1 x]))
    as (junk3 & Hr3 & Hc3 & Hs3 & Hj3).
  { rewrite length_drop. lia. }
  { rewrite Hs2. by rewrite <- app_assoc. }
  { done. }
  { by rewrite Hr2. }
  { done. }
  { by apply Forall_drop. }
  { intros m Hm. apply child_run_drop in Hm. apply Forall_app. split.
    - eapply Forall_impl; [exact Hj2|]. cbn. lia.
    - constructor; [cbn; lia|constructor]. }
  { apply Forall_app. split.
    - eapply Forall_impl; [exact Hj2|]. cbn. lia.
    - constructor; [cbn; lia|constructor]. }
  exists junk3. rewrite Hr3, Hc3, Hs3, Hr2, Hc2, graft_graft.
  rewrite length_take, length_drop.
  replace (S c + k `min` length rest) with (S c + k) by lia.
  split_and!; [|lia|done|done].
  reflexivity.
Qed.

Lemma build_roots fuel : ∀ l st,
  length l ≤ fuel →
  (∀ n, head l = Some n → Forall (λ e : ref * nat, md_level n ≤ e.2) (stack st)) →
  rootNodes (foldl build_step st l)
  = rootNodes st ++ forest_of fuel (nodeCounter st) l.
Proof.
  induction fuel as [|fuel IH]; intros l st Hlen Hhead.
  { destruct l; [|cbn in Hlen; lia]. cbn. by rewrite app_nil_r. }
  destruct l as [|n rest]; [cbn; by rewrite app_nil_r|].
  cbn [foldl forest_of length] in *.
  rewrite (build_step_root st n) by (by apply Hhead).
  set (c := nodeCounter st). set (F := rootNodes st).
  set (x := new_tree_node c n). set (k := child_run (md_level n) rest).
  set (st1 := mkBuildState (F ++ [x]) [([length F], md_level n)] (S c)).
  assert (k ≤ length rest) as Hk by apply child_run_le.
  assert (foldl build_step st1 rest
          = foldl build_step (foldl build_step st1 (take k rest)) (drop k rest)) as ->.
  { by rewrite <- foldl_app, take_drop. }
  destruct (build_run fuel (take k rest) st1 [] [length F] (md_level n) [] x [])
    as (junk2 & Hr2 & Hc2 & Hs2 & Hj2).
  { rewrite length_take. lia. }
  { done. }
  { done. }
  { cbn [rootNodes st1 deref]. rewrite lookup_last. done. }
  { done. }
  { apply child_run_take. }
  { intros; constructor. }
  { constructor. }
  set (st2 := foldl build_step st1 (take k rest)) in *.
  cbn [rootNodes nodeCounter st1] in Hr2, Hc2.
  rewrite IH.
  - rewrite Hr2, Hc2. unfold graft. cbn [mutate alter_node]. rewrite alter_last.
    rewrite <- app_assoc. cbn [app]. rewrite length_take.
    replace (S c + k `min` length rest) with (S c + k) by lia.
    reflexivity.
  - rewrite length_drop. lia.
  - intros m Hm. apply child_run_drop in Hm. rewrite Hs2. apply Forall_app. split.
    + eapply Forall_impl; [exact Hj2|]. cbn. lia.
    + constructor; [cbn; lia|constructor].
Qed.

Lemma buildTreeFromNodes_forest_of l :
  buildTreeFromNodes l = forest_of (length l) 1 l.
Proof.
  unfold buildTreeFromNodes. destruct l as [|n rest] eqn:Hl; [done|].
  rewrite <- Hl. rewrite (build_roots (length l)); [done|done|].
  intros; constructor.
Qed.

(** X16: the tree [buildTreeFromNodes] returns can be told by recursion
    on the section list: the first section is the first root; the sections
    that follow it, up to the next section whose level is not greater,
    make the trees below it; the sections from there on make the roots
    after it. The identifiers count the sections from 1. *)
Theorem buildTreeFromNodes_nests_by_level (nodeList : list MarkdownNode) :
  buildTreeFromNodes nodeList = forest_of (length nodeList) 1 nodeList.
Proof.
  unfold buildTreeFromNodes. destruct nodeList as [|n rest] eqn:Hl; [done|].
  rewrite <- Hl. rewrite (build_roots (length nodeList)); [done|done|].
  intros; constructor.
Qed.

Lemma child_run_app_stop lvl l1 l2 :
  (∀ m, head l2 = Some m → md_level m ≤ lvl) →
  child_run lvl (l1 ++ l2) = child_run lvl l1.
Proof.
  intros H. induction l1 as [|n l1 IH]; cbn [app child_run].
  - destruct l2 as [|m l2]; [done|]. cbn [child_run].
    by rewrite (proj2 (Nat.leb_le _ _) (H m eq_refl)).
  - by rewrite IH.
Qed.

Lemma forest_of_size fuel : ∀ c l,
  length l ≤ fuel → length (structureToList (forest_of fuel c l)) = length l.
Proof.
  induction fuel as [|fuel IH]; intros c l Hlen.
  { destruct l; [done|cbn in Hlen; lia]. }
  destruct l as [|n0 rest]; [done|]. cbn [forest_of length] in *.
  pose proof (child_run_le (md_level n0) rest) as Hk.
  rewrite structureToList_cons, length_cons, length_app. unfold kids at 1.
  cbn [tn_nodes set_nodes]. rewrite !IH by (rewrite ?length_take, ?length_drop; lia).
  rewrite length_take, length_drop. lia.
Qed.

Lemma forest_of_nodes fuel : ∀ c l i n t,
  length l ≤ fuel → l !! i = Some n →
  structureToList (forest_of fuel c l) !! i = Some t →
  own t = own (new_tree_node (c + i) n)
  ∧ length (structureToList (kids t)) = child_run (md_level n) (drop (S i) l).
Proof.
  induction fuel as [|fuel IH]; intros c l i n t Hlen Hn Ht.
  { destruct l; [done|cbn in Hlen; lia]. }
  destruct l as [|n0 rest]; [done|]. cbn [forest_of length] in *.
  set (k := child_run (md_level n0) rest) in *.
  assert (k ≤ length rest) as Hk by apply child_run_le.
  rewrite structureToList_cons in Ht. unfold kids at 1 in Ht.
  cbn [tn_nodes set_nodes] in Ht.
  assert (length (structureToList (forest_of fuel (S c) (take k rest))) = k) as Hsize.
  { rewrite forest_of_size; rewrite length_take; lia. }
  destruct i as [|j].
  { cbn in Hn, Ht. injection Hn as ->. injection Ht as <-.
    rewrite Nat.add_0_r. split; [done|]. unfold kids. cbn [tn_nodes set_nodes drop].
    exact Hsize. }
  rewrite lookup_cons in Hn. rewrite lookup_cons in Ht. change (drop (S (S j)) (n0 :: rest)) with (drop (S j) rest).
  destruct (decide (j < k)) as [Hjk|Hjk].
  - rewrite lookup_app_l in Ht by lia.
    assert (take k rest !! j = Some n) as Hn' by (rewrite lookup_take_lt; done).
    destruct (IH (S c) (take k rest) j n t) as [Hown Hkids]; [rewrite length_take; lia|done..|].
    split; [rewrite Hown; do 2 f_equal; lia|]. rewrite Hkids.
    replace (drop (S j) rest) with (drop (S j) (take k rest) ++ drop k rest)
      by (rewrite <- drop_app_le, take_drop by (rewrite length_take; lia); done).
    symmetry. apply child_run_app_stop. intros m Hm.
    apply child_run_drop in Hm.
    pose proof (child_run_take (md_level n0) rest) as Hrun. fold k in Hrun.
    rewrite Forall_lookup in Hrun. specialize (Hrun j n Hn'). cbn in Hrun. lia.
  - rewrite lookup_app_r in Ht by lia. rewrite Hsize in Ht.
    assert (drop k rest !! (j - k) = Some n) as Hn'.
    { rewrite lookup_drop. by replace (k + (j - k)) with j by lia. }
    destruct (IH (S c + k) (drop k rest) (j - k) n t) as [Hown Hkids];
      [rewrite length_drop; lia|done..|].
    split; [rewrite Hown; do 2 f_equal; lia|]. rewrite Hkids.
    rewrite drop_drop. do 2 f_equal. lia.
Qed.

(** X17: in the tree [buildTreeFromNodes] returns, the node at position
    [i] of [structureToList] is the node of the section at index [i], and
    the nodes below it are as many as the indices that
    [findAllChildren] returns for that section: the sections counted into
    its token count are the sections of its subtree. *)
Theorem subtree_is_findAllChildren
    (nodeList : list MarkdownNode) (i : nat) (n : MarkdownNode) (t : TreeNode) :
  nodeList !! i = Some n →
  structureToList (buildTreeFromNodes nodeList) !! i = Some t →
  without_nodes t = without_nodes (new_tree_node (S i) n)
  ∧ length (structureToList (kids t))
    = length (findAllChildren i (md_level n) nodeList).
Proof.
  rewrite buildTreeFromNodes_forest_of. intros Hn Ht.
  destruct (forest_of_nodes _ _ _ _ _ _ (le_n _) Hn Ht) as [Hown Hkids].
  split; [done|]. by rewrite Hkids, findAllChildren_seq, length_seq.
Qed.

Lemma subtree_witness :
  ∃ t, structureToList (buildTreeFromNodes two_small_sections) !! 0 = Some t
    ∧ length (structureToList (kids t))
      = length (findAllChildren 0 1 two_small_sections).
Proof.
  eexists. split; [vm_compute; reflexivity|].
  refine (proj2 (subtree_is_findAllChildren two_small_sections 0
                   (mkMarkdownNode "A" 1 1 (Some "# A") (Some 2%Z)) _ _ _));
    reflexivity.
Defined.

(** ** JSON extraction *)

Lemma startsWith_app p r : startsWith (p +:+ r) p = true.
Proof.
  induction p as [|a p IH]; [by destruct r|].
  rewrite string_app_cons. cbn [startsWith]. by rewrite Ascii.eqb_refl, IH.
Qed.

Lemma startsWith_other c r p :
  Ascii.eqb c backtick = false → startsWith (String c r) (String backtick p) = false.
Proof.
  intros Hc. cbn [startsWith]. rewrite Ascii.eqb_sym, Hc. done.
Qed.

Lemma indexOf_startsWith s pat : startsWith s pat = true → indexOf s pat = Some 0.
Proof. intros H. destruct s; cbn [indexOf]; by rewrite H. Qed.

Lemma indexOf_behind_prefix pre p rest :
  no_backtick pre = true →
  indexOf (pre +:+ String backtick p +:+ rest) (String backtick p)
  = Some (String.length pre).
Proof.
  induction pre as [|c pre IH]; intros Hpre.
  - rewrite string_app_nil_l. apply indexOf_startsWith, startsWith_app.
  - cbn [no_backtick] in Hpre. apply andb_true_iff in Hpre as [Hc Hpre].
    apply negb_true_iff in Hc. rewrite string_app_cons.
    cbn [indexOf]. rewrite startsWith_other by done. rewrite IH by done. done.
Qed.

Lemma indexOf_no_backtick s p :
  no_backtick s = true → indexOf s (String backtick p) = None.
Proof.
  induction s as [|c s IH]; intros Hs; [done|].
  cbn [no_backtick] in Hs. apply andb_true_iff in Hs as [Hc Hs].
  apply negb_true_iff in Hc.
  cbn [indexOf]. rewrite startsWith_other by done. by rewrite IH.
Qed.

Lemma lastIndexOf_no_backtick s p :
  no_backtick s = true → lastIndexOf s (String backtick p) = None.
Proof.
  induction s as [|c s IH]; intros Hs; [done|].
  cbn [no_backtick] in Hs. apply andb_true_iff in Hs as [Hc Hs].
  apply negb_true_iff in Hc.
  cbn [lastIndexOf]. rewrite IH by done. by rewrite startsWith_other.
Qed.

Lemma startsWith_no_backtick s p :
  no_backtick s = true → startsWith s (String backtick p) = false.
Proof.
  destruct s as [|c s]; [done|]. cbn [no_backtick].
  intros [Hc _]%andb_true_iff. apply negb_true_iff in Hc. by apply startsWith_other.
Qed.

Lemma lastIndexOf_closing_fence body post :
  no_backtick body = true → no_backtick post = true →
  lastIndexOf (body +:+ fence +:+ post) fence = Some (String.length body).
Proof.
  intros Hbody Hpost. induction body as [|c body IH].
  - rewrite string_app_nil_l. unfold fence. rewrite !string_app_cons, string_app_nil_l.
    cbn [lastIndexOf]. rewrite (lastIndexOf_no_backtick post) by done.
    cbn [startsWith]. rewrite !Ascii.eqb_refl. cbn [andb].
    rewrite (startsWith_no_backtick post) by done.
    rewrite (startsWith_no_backtick post) by done. cbn [andb].
    by destruct post.
  - cbn [no_backtick] in Hbody. apply andb_true_iff in Hbody as [_ Hbody].
    rewrite string_app_cons. cbn [lastIndexOf]. by rewrite IH.
Qed.

Lemma substring_from_app a n b :
  substring_from (String.length a + n) (a +:+ b) = substring_from n b.
Proof.
  induction a as [|c a IH]; [by rewrite string_app_nil_l|].
  rewrite string_app_cons. cbn [String.length Nat.add substring_from]. apply IH.
Qed.

Lemma substring_from_fence_json b : substring_from 7 (fence_json +:+ b) = b.
Proof.
  change 7 with (String.length fence_json + 0). rewrite substring_from_app.
  by destruct b.
Qed.

Lemma substring_to_app a b : substring_to (String.length a) (a +:+ b) = a.
Proof.
  induction a as [|c a IH]; [by destruct (_ +:+ _)|].
  rewrite string_app_cons. cbn [String.length substring_to]. by rewrite IH.
Qed.

Lemma lastIndexOf_no_fence s : no_backtick s = true → lastIndexOf s fence = None.
Proof. apply lastIndexOf_no_backtick. Qed.

Lemma indexOf_no_fence_json s : no_backtick s = true → indexOf s fence_json = None.
Proof. apply (indexOf_no_backtick s). Qed.

Lemma after_opening_fence pre rest :
  no_backtick pre = true →
  indexOf (pre +:+ fence_json +:+ rest) fence_json = Some (String.length pre)
  ∧ substring_from (String.length pre + 7) (pre +:+ fence_json +:+ rest) = rest.
Proof.
  intros Hpre. split.
  - by apply (indexOf_behind_prefix pre).
  - rewrite substring_from_app. apply substring_from_fence_json.
Qed.

(** X18: [getJsonContent] returns, trimmed, what stands between the first
    [```json] and the last [```]: for a response whose only backticks are
    those of one opening and one closing fence, the text between the two;
    for a response whose fence is not closed, the text after the opening
    fence; for a response without backticks, the response. *)
Theorem getJsonContent_between_the_fences (before body after : string) :
  no_backtick before = true → no_backtick body = true → no_backtick after = true →
  getJsonContent (before +:+ fence_json +:+ body +:+ fence +:+ after) = trim body
  ∧ getJsonContent (before +:+ fence_json +:+ body) = trim body
  ∧ getJsonContent body = trim body.
Proof.
  intros Hb Hbody Ha. unfold getJsonContent. split_and!.
  - destruct (after_opening_fence before (body +:+ fence +:+ after) Hb) as [-> ->].
    rewrite lastIndexOf_closing_fence by done. by rewrite substring_to_app.
  - destruct (after_opening_fence before body Hb) as [-> ->].
    by rewrite lastIndexOf_no_fence.
  - rewrite indexOf_no_fence_json by done.
    by rewrite lastIndexOf_no_fence.
Qed.

Lemma getJsonContent_witness :
  getJsonContent ("Here: " +:+ fence_json +:+ " [1] " +:+ fence +:+ " done") = "[1]"
  ∧ getJsonContent ("Here: " +:+ fence_json +:+ " [1] ") = "[1]"
  ∧ getJsonContent " [1] " = "[1]".
Proof.
  apply (getJsonContent_between_the_fences "Here: " " [1] " " done"); reflexivity.
Defined.

(** *** The retry of [extractJson] and an opening fence that is not closed *)

Lemma match_ws_then_length close s : ∀ rest,
  match_ws_then close s = Some rest → String.length rest < String.length s.
Proof.
  induction s as [|c s IH]; intros rest; [done|]. cbn [match_ws_then String.length].
  destruct (Ascii.eqb c close); [intros [= ->]; lia|].
  destruct (is_ws c); [|done]. intros H%IH. lia.
Qed.

Lemma strip_comma_before_fuel close : ∀ f1 f2 s,
  String.length s ≤ f1 → String.length s ≤ f2 →
  strip_comma_before close f1 s = strip_comma_before close f2 s.
Proof.
  induction f1 as [|f1 IH]; intros f2 s H1 H2.
  { destruct s; [by destruct f2|cbn in H1; lia]. }
  destruct s as [|c s]; [by destruct f2|].
  destruct f2 as [|f2]; [cbn in H2; lia|].
  cbn [String.length] in H1, H2. cbn [strip_comma_before].
  destruct (Ascii.eqb c ","); [|f_equal; apply IH; lia].
  destruct (match_ws_then close s) as [rest|] eqn:Hm; [|f_equal; apply IH; lia].
  apply match_ws_then_length in Hm. f_equal. apply IH; lia.
Qed.

Lemma match_ws_then_app close a d r :
  Ascii.eqb d close = false → is_ws d = false →
  match_ws_then close (a +:+ String d r)
  = (λ rest, rest +:+ String d r) <$> match_ws_then close a.
Proof.
  intros Hd Hws. induction a as [|c a IH].
  - rewrite string_app_nil_l. cbn [match_ws_then]. by rewrite Hd, Hws.
  - rewrite string_app_cons. cbn [match_ws_then].
    destruct (Ascii.eqb c close); [done|]. by destruct (is_ws c).
Qed.

Lemma strip_comma_before_app close d r :
  Ascii.eqb d close = false → is_ws d = false →
  ∀ fuel a, String.length a ≤ fuel →
  strip_comma_before close (fuel + String.length (String d r)) (a +:+ String d r)
  = strip_comma_before close fuel a
    +:+ strip_comma_before close (String.length (String d r)) (String d r).
Proof.
  intros Hd Hws. induction fuel as [|fuel IH]; intros a Ha.
  { destruct a; [|cbn in Ha; lia].
    change (strip_comma_before close 0 "") with "". by rewrite !string_app_nil_l. }
  destruct a as [|c a].
  { change (strip_comma_before close (S fuel) "") with "". rewrite !string_app_nil_l.
    apply strip_comma_before_fuel; lia. }
  cbn [String.length] in Ha. rewrite string_app_cons.
  cbn [Nat.add strip_comma_before].
  rewrite match_ws_then_app by done.
  destruct (Ascii.eqb c ",").
  - destruct (match_ws_then close a) as [rest|] eqn:Hm; cbn [fmap option_fmap option_map].
    + apply match_ws_then_length in Hm. rewrite IH by lia. by rewrite string_app_cons.
    + rewrite IH by lia. by rewrite string_app_cons.
  - rewrite IH by lia. by rewrite string_app_cons.
Qed.

Lemma strip_trailing_commas_fence_json close pre body :
  Ascii.eqb backtick close = false →
  strip_trailing_commas close (pre +:+ fence_json +:+ body)
  = strip_trailing_commas close pre +:+ fence_json +:+ strip_trailing_commas close body.
Proof.
  intros Hc. unfold strip_trailing_commas.
  change (fence_json +:+ body)
    with (String backtick (String backtick (String backtick
            (String "j" (String "s" (String "o" (String "n" body))))))).
  rewrite string_length_app, strip_comma_before_app by done.
  f_equal.
Qed.

Lemma match_ws_then_no_backtick close s : ∀ rest,
  match_ws_then close s = Some rest → no_backtick s = true → no_backtick rest = true.
Proof.
  induction s as [|c s IH]; intros rest; [done|]. cbn [match_ws_then no_backtick].
  intros Hm [_ Hs]%andb_true_iff.
  destruct (Ascii.eqb c close); [by injection Hm as <-|].
  destruct (is_ws c); [by apply IH|done].
Qed.

Lemma strip_comma_before_no_backtick close :
  Ascii.eqb close backtick = false →
  ∀ fuel s, no_backtick s = true →
  no_backtick (strip_comma_before close fuel s) = true.
Proof.
  intros Hc. induction fuel as [|fuel IH]; intros s Hs; [by destruct s|].
  destruct s as [|c s]; [done|]. cbn [strip_comma_before].
  pose proof Hs as Hs'. cbn [no_backtick] in Hs'. apply andb_true_iff in Hs' as [Hcb Hs'].
  destruct (Ascii.eqb c ",").
  - destruct (match_ws_then close s) as [rest|] eqn:Hm; cbn [no_backtick].
    + rewrite Hc. cbn [negb andb]. apply IH. by eapply match_ws_then_no_backtick.
    + rewrite Hcb. cbn [andb]. by apply IH.
  - cbn [no_backtick]. rewrite Hcb. cbn [andb]. by apply IH.
Qed.

Lemma retry_text_unclosed pre body :
  no_backtick pre = true → no_backtick body = true →
  retry_text (pre +:+ fence_json +:+ body) = "".
Proof.
  intros Hpre Hbody. unfold retry_text.
  rewrite !strip_trailing_commas_fence_json by done.
  set (pre' := strip_trailing_commas _ (strip_trailing_commas _ pre)).
  set (body' := strip_trailing_commas _ (strip_trailing_commas _ body)).
  assert (no_backtick pre' = true) as Hpre'.
  { apply strip_comma_before_no_backtick; [done|].
    by apply strip_comma_before_no_backtick. }
  assert (no_backtick body' = true) as Hbody'.
  { apply strip_comma_before_no_backtick; [done|].
    by apply strip_comma_before_no_backtick. }
  destruct (after_opening_fence pre' body' Hpre') as [-> ->].
  by rewrite lastIndexOf_no_fence.
Qed.

Lemma first_attempt_text_unclosed pre body :
  no_backtick pre = true → no_backtick body = true →
  first_attempt_text (pre +:+ fence_json +:+ body) = "".
Proof.
  intros Hpre Hbody. unfold first_attempt_text.
  destruct (after_opening_fence pre body Hpre) as [-> ->].
  by rewrite lastIndexOf_no_fence.
Qed.

Section ExtractJsonFacts.
Variable JsonValue : Type.
Variable empty_object : JsonValue.
Variable JSON_parse : string → result JsonValue.

(** X19: for a response whose opening [```json] fence is never closed,
    both attempts of [extractJson] hand the empty text to [JSON.parse],
    whatever follows the fence; as [JSON.parse] throws on the empty text,
    the result is the empty object. *)
Theorem extractJson_unclosed_fence_gives_empty_object (before body : string) (e : error) :
  no_backtick before = true → no_backtick body = true →
  JSON_parse "" = Err e →
  extractJson JsonValue empty_object JSON_parse (before +:+ fence_json +:+ body)
  = Ok empty_object.
Proof.
  intros Hb Hbody Hparse. unfold extractJson.
  rewrite first_attempt_text_unclosed, retry_text_unclosed by done.
  by rewrite Hparse.
Qed.

End ExtractJsonFacts.

Lemma extractJson_unclosed_fence_witness :
  extractJson string "{}" (λ s, if is_empty s then Err SyntaxError else Ok s)
    ("Here: " +:+ fence_json +:+ " [1, 2]")
  = Ok "{}".
Proof.
  apply (extractJson_unclosed_fence_gives_empty_object string "{}" _
           "Here: " " [1, 2]" SyntaxError); reflexivity.
Defined.

Lemma collapse_ws_single_spaced s : ∀ b, single_spaced b (collapse_ws b s) = true.
Proof.
  induction s as [|c s IH]; intros b; [done|]. cbn [collapse_ws].
  destruct (is_ws c) eqn:Hc.
  - destruct b; [apply IH|]. cbn [single_spaced]. rewrite Ascii.eqb_refl. apply IH.
  - cbn [single_spaced]. destruct (Ascii.eqb_spec c " ") as [->|_]; [done|].
    rewrite Hc. apply IH.
Qed.

(** X20: the text the first attempt of [extractJson] hands to
    [JSON.parse] holds no white space but single spaces: every line break,
    tab or run of white space of the response has become one space,
    inside the strings of the JSON text as well. *)
Theorem first_attempt_text_is_single_spaced (content : string) :
  single_spaced false (first_attempt_text content) = true.
Proof. unfold first_attempt_text. apply collapse_ws_single_spaced. Qed.

(** ** Page numbers and physical indices *)

Lemma take_digits_string_of_uint d post :
  take_digits (DecimalString.NilEmpty.string_of_uint d +:+ post)
  = DecimalString.NilEmpty.string_of_uint d +:+ take_digits post.
Proof.
  induction d as [|d IH|d IH|d IH|d IH|d IH|d IH|d IH|d IH|d IH|d IH];
    cbn [DecimalString.NilEmpty.string_of_uint];
    rewrite ?string_app_nil_l, ?string_app_cons; [done|..];
    cbn [take_digits]; by rewrite IH.
Qed.

Lemma digits_value_string_of_uint d : ∀ a,
  digits_value_from (N.of_nat a) (DecimalString.NilEmpty.string_of_uint d)
  = N.of_nat (Nat.of_uint_acc d a).
Proof.
  induction d as [|d IH|d IH|d IH|d IH|d IH|d IH|d IH|d IH|d IH|d IH]; intros a;
    cbn [DecimalString.NilEmpty.string_of_uint digits_value_from Nat.of_uint_acc];
    [done|..]; rewrite Nat.tail_mul_spec, <- IH; f_equal;
    match goal with
    | |- context [digit_value ?c] =>
        let v := eval vm_compute in (digit_value c) in change (digit_value c) with v
    end; lia.
Qed.

Lemma String_of_nat_nonempty n : is_empty (String_of_nat n) = false.
Proof.
  unfold String_of_nat. destruct (Nat.to_uint n) as [| | | | | | | | | |] eqn:Hd; try done.
  pose proof (f_equal Nat.of_uint Hd) as Hn.
  rewrite DecimalNat.Unsigned.of_to in Hn. cbn in Hn. subst n. done.
Qed.

Lemma take_digits_String_of_nat n post :
  take_digits post = "" →
  take_digits (String_of_nat n +:+ post) = String_of_nat n.
Proof.
  intros Hpost. unfold String_of_nat.
  by rewrite take_digits_string_of_uint, Hpost, string_app_nil_r.
Qed.

Lemma digits_value_String_of_nat n : digits_value (String_of_nat n) = N.of_nat n.
Proof.
  unfold digits_value, String_of_nat.
  rewrite (digits_value_string_of_uint _ 0).
  f_equal. apply DecimalNat.Unsigned.of_to.
Qed.

Lemma String_of_nat_head n :
  ∃ c r, String_of_nat n = String c r ∧ is_digit c = true.
Proof.
  pose proof (String_of_nat_nonempty n) as Hne.
  pose proof (take_digits_String_of_nat n "" eq_refl) as Ht.
  rewrite string_app_nil_r in Ht.
  destruct (String_of_nat n) as [|c r]; [done|]. exists c, r. split; [done|].
  cbn [take_digits] in Ht. by destruct (is_digit c).
Qed.

Section NumbersFacts.
Variable Number : Type.
Variable NaN : Number.
Variable number_of : bool → N → Number.
Variable isNaN : Number → bool.

Lemma parseInt_String_of_nat n post :
  take_digits post = "" →
  parseInt Number NaN number_of (String_of_nat n +:+ post)
  = number_of false (N.of_nat n).
Proof.
  intros Hpost. unfold parseInt.
  destruct (String_of_nat_head n) as (c & r & Hs & Hc).
  assert (trimStart (String_of_nat n +:+ post) = String_of_nat n +:+ post) as ->.
  { rewrite Hs, string_app_cons. cbn [trimStart].
    assert (is_ws c = false) as ->; [|done].
    revert Hc. clear. unfold is_digit, is_ws.
    destruct (9 <=? nat_of_ascii c)%nat eqn:H1, (nat_of_ascii c <=? 13)%nat eqn:H2,
      (nat_of_ascii c =? 32)%nat eqn:H3, (nat_of_ascii c =? 160)%nat eqn:H4,
      (48 <=? nat_of_ascii c)%nat eqn:H5, (nat_of_ascii c <=? 57)%nat eqn:H6;
      try done;
      repeat match goal with
             | H : (_ <=? _)%nat = true |- _ => apply Nat.leb_le in H
             | H : (_ <=? _)%nat = false |- _ => apply Nat.leb_gt in H
             | H : (_ =? _)%nat = true |- _ => apply Nat.eqb_eq in H
             | H : (_ =? _)%nat = false |- _ => apply Nat.eqb_neq in H
             end; lia. }
  assert (match String_of_nat n +:+ post with
          | String "-" r0 => (true, r0)
          | String "+" r0 => (false, r0)
          | _ => (false, String_of_nat n +:+ post)
          end = (false, String_of_nat n +:+ post)) as ->.
  { rewrite Hs, string_app_cons.
    destruct (Ascii.eqb_spec c "-") as [->|Hm]; [done|].
    destruct (Ascii.eqb_spec c "+") as [->|Hp]; [done|].
    destruct c as [[] [] [] [] [] [] [] []]; done. }
  rewrite take_digits_String_of_nat by done.
  by rewrite String_of_nat_nonempty, digits_value_String_of_nat.
Qed.

Lemma match_physical_index_tag n post :
  take_digits post = "" →
  match_physical_index ("physical_index_" +:+ String_of_nat n +:+ post)
  = Some (String_of_nat n).
Proof.
  intros Hpost.
  change ("physical_index_" +:+ String_of_nat n +:+ post)
    with (String "p" ("hysical_index_" +:+ String_of_nat n +:+ post)).
  cbn [match_physical_index].
  change (String "p" ("hysical_index_" +:+ String_of_nat n +:+ post))
    with ("physical_index_" +:+ (String_of_nat n +:+ post)).
  rewrite startsWith_app.
  change 15 with (String.length "physical_index_" + 0).
  rewrite substring_from_app.
  assert (substring_from 0 (String_of_nat n +:+ post) = String_of_nat n +:+ post) as ->
    by (by destruct (_ +:+ _)).
  rewrite take_digits_String_of_nat by done.
  by rewrite String_of_nat_nonempty.
Qed.

Lemma parsePhysicalIndex_tag (n : nat) :
  parsePhysicalIndex Number NaN number_of isNaN
    (Some (IndexString ("<physical_index_" +:+ String_of_nat n +:+ ">")))
  = Some (number_of false (N.of_nat n))
  ∧ parsePhysicalIndex Number NaN number_of isNaN
      (Some (IndexString ("physical_index_" +:+ String_of_nat n)))
    = Some (number_of false (N.of_nat n)).
Proof.
  unfold parsePhysicalIndex. split.
  - change ("<physical_index_" +:+ String_of_nat n +:+ ">")
      with (String "<" ("physical_index_" +:+ String_of_nat n +:+ ">")).
    cbn [match_physical_index startsWith Ascii.eqb Bool.eqb andb].
    rewrite match_physical_index_tag by done.
    rewrite <- (string_app_nil_r (String_of_nat n)) at 1.
    by rewrite parseInt_String_of_nat.
  - rewrite <- (string_app_nil_r (String_of_nat n)) at 1.
    rewrite match_physical_index_tag by done.
    rewrite <- (string_app_nil_r (String_of_nat n)) at 1.
    by rewrite parseInt_String_of_nat.
Qed.

(** X21: [parsePhysicalIndex] reads back a decimal number from both
    formats of a physical index, [<physical_index_N>] and
    [physical_index_N]: the result is the Number of the integer the digits
    denote. It gives [null] for [null] and [undefined], and a Number as it
    is. A text without the tag is read by [parseInt], so that a text that
    starts with decimal digits gives the Number of these digits, the
    runtime's [isNaN] being false on such a Number. *)
Theorem parsePhysicalIndex_reads_numbers (x : Number) (n : nat) (rest : string) :
  parsePhysicalIndex Number NaN number_of isNaN
    (Some (IndexString ("<physical_index_" +:+ String_of_nat n +:+ ">")))
  = Some (number_of false (N.of_nat n))
  ∧ parsePhysicalIndex Number NaN number_of isNaN
      (Some (IndexString ("physical_index_" +:+ String_of_nat n)))
    = Some (number_of false (N.of_nat n))
  ∧ parsePhysicalIndex Number NaN number_of isNaN None = None
  ∧ parsePhysicalIndex Number NaN number_of isNaN (Some IndexNull) = None
  ∧ parsePhysicalIndex Number NaN number_of isNaN (Some (IndexNumber x)) = Some x
  ∧ (isNaN (number_of false (N.of_nat n)) = false →
     match_physical_index (String_of_nat n +:+ rest) = None →
     take_digits rest = "" →
     parsePhysicalIndex Number NaN number_of isNaN
       (Some (IndexString (String_of_nat n +:+ rest)))
     = Some (number_of false (N.of_nat n))).
Proof.
  destruct (parsePhysicalIndex_tag n) as [Htag1 Htag2].
  split_and!; [done..|]. intros Hnan Hm Hrest.
  unfold parsePhysicalIndex. rewrite Hm, parseInt_String_of_nat by done.
  by rewrite Hnan.
Qed.

Lemma convertPageToInt_spec {A} (data : list (PagedItem Number A)) :
  Forall2 (λ item item',
             pg_rest item' = pg_rest item
             ∧ (pg_page item' = pg_page item
                ∨ ∃ s, pg_page item = Some (PageString s)
                    ∧ pg_page item' = Some (PageNumber (parseInt Number NaN number_of s))))
    data (convertPageToInt Number NaN number_of isNaN data)
  ∧ convertPageToInt Number NaN number_of isNaN
      (convertPageToInt Number NaN number_of isNaN data)
    = convertPageToInt Number NaN number_of isNaN data.
Proof.
  unfold convertPageToInt. split.
  - induction data as [|item data IH]; [constructor|]. cbn [map].
    constructor; [|done]. destruct item as [[[s|x]|] rest]; cbn;
      [|split; [done|by left]..].
    destruct (isNaN _); cbn; (split; [done|]); [by left|right; by exists s].
  - rewrite map_map. apply map_ext. intros [[[s|x]|] rest]; cbn; [|done..].
    destruct (isNaN (parseInt Number NaN number_of s)) eqn:Hs; cbn; [|done].
    by rewrite Hs.
Qed.

Lemma convertPhysicalIndexToInt_spec {A}
    (data : list (IndexedItem Number A)) (n : nat) (rest : A) :
  convertPhysicalIndexToInt Number NaN number_of
    [mkIndexedItem (Some (IndexString ("<physical_index_" +:+ String_of_nat n +:+ ">")))
       rest]
  = [mkIndexedItem (Some (IndexNumber (number_of false (N.of_nat n)))) rest]
  ∧ convertPhysicalIndexToInt Number NaN number_of
      (convertPhysicalIndexToInt Number NaN number_of data)
    = convertPhysicalIndexToInt Number NaN number_of data.
Proof.
  unfold convertPhysicalIndexToInt. split.
  - cbn [map ix_physicalIndex ix_rest].
    change ("<physical_index_" +:+ String_of_nat n +:+ ">")
      with (String "<" ("physical_index_" +:+ String_of_nat n +:+ ">")).
    cbn [match_physical_index startsWith Ascii.eqb Bool.eqb andb].
    rewrite match_physical_index_tag by done.
    rewrite <- (string_app_nil_r (String_of_nat n)) at 1.
    by rewrite parseInt_String_of_nat.
  - rewrite map_map. apply map_ext. intros [[[s|x|]|] r]; cbn; [|done..].
    destruct (match_physical_index s) eqn:Hm; cbn; [done|by rewrite Hm].
Qed.


End NumbersFacts.

Lemma parsePhysicalIndex_witness :
  parsePhysicalIndex (option Z) None (λ neg m, Some (if neg then - Z.of_N m else Z.of_N m)%Z)
    (λ x, bool_decide (x = None)) (Some (IndexString "12 pages"))
  = Some (Some 12%Z).
Proof.
  apply (parsePhysicalIndex_reads_numbers (option Z) None
           (λ neg m, Some (if neg then - Z.of_N m else Z.of_N m)%Z)
           (λ x, bool_decide (x = None)) None 12 " pages"); reflexivity.
Defined.

(** ** The conversion as a whole *)

Section arrays.
Variable f : TreeNode → TreeNode.
Hypothesis Hf : ∀ t, tn_nodes (f t) = tn_nodes t.

Lemma same_arrays_alter (g : TreeNode → TreeNode) i F :
  (∀ t, nodewise same_arrays [t] [g t]) → nodewise same_arrays F (alter g i F).
Proof.
  intros Hg. revert i. induction F as [|t F IH]; intros i; [apply nodewise_nil|].
  destruct i as [|i].
  - change (nodewise same_arrays ([t] ++ F) ([g t] ++ F)).
    apply nodewise_app; [done|]. by apply nodewise_refl.
  - change (nodewise same_arrays ([t] ++ F) ([t] ++ alter g i F)).
    apply nodewise_app; [|apply IH]. by apply nodewise_refl.
Qed.

Lemma same_arrays_alter_node p : ∀ t, nodewise same_arrays [t] [alter_node f p t].
Proof.
  induction p as [|i p IH]; intros t; cbn [alter_node].
  - apply nodewise_cons; [unfold same_arrays; by rewrite Hf| |apply nodewise_nil].
    unfold kids. rewrite Hf. by apply nodewise_refl.
  - apply nodewise_cons; [|  |apply nodewise_nil].
    + unfold same_arrays. cbn. by destruct (tn_nodes t).
    + rewrite kids_set_nodes. unfold kids.
      destruct (tn_nodes t) as [cs|]; simpl; [|apply nodewise_nil].
      by apply same_arrays_alter.
Qed.

Lemma same_arrays_mutate p F : nodewise same_arrays F (mutate f p F).
Proof.
  destruct p as [|i p]; simpl.
  - by apply nodewise_refl.
  - apply same_arrays_alter, same_arrays_alter_node.
Qed.
End arrays.

Lemma same_arrays_write_summaries nodes : ∀ summaries F,
  nodewise same_arrays F (write_summaries nodes summaries F).
Proof.
  induction nodes as [|p nodes IH]; intros summaries F; cbn [write_summaries].
  { by apply nodewise_refl. }
  destruct summaries as [|s summaries]; [by apply nodewise_refl|].
  eapply nodewise_compose;
    [apply (same_arrays_mutate (assign_summary s) (assign_summary_nodes s) p F)
    |apply IH|].
  unfold same_arrays. intros t t' t'' H1 _ H2 _. by rewrite H2.
Qed.

Lemma no_empty_arrays_write_summaries nodes summaries F :
  Forall (λ t, tn_nodes t ≠ Some []) (structureToList F) →
  Forall (λ t, tn_nodes t ≠ Some []) (structureToList (write_summaries nodes summaries F)).
Proof.
  apply (nodewise_Forall _ _ _ _ _ (same_arrays_write_summaries nodes summaries F)).
  intros t t' Hs Hc Ht Ht'. unfold same_arrays in Hs.
  unfold childless in Hc. rewrite Ht' in Hc.
  destruct (tn_nodes t) as [[|c cs]|]; [done|done|].
  by rewrite (proj2 Hs eq_refl) in Ht'.
Qed.

Lemma summarize_no_empty_arrays config F G :
  summarize config F = Ok G →
  Forall (λ t, tn_nodes t ≠ Some []) (structureToList G).
Proof.
  unfold summarize.
  destruct (ifAddNodeSummary config), (llm config) as [f|];
    try (intros [= <-]; apply formatStructure_normal_form).
  unfold generateSummariesForStructureMd.
  destruct (mapM _ _) as [summaries|e]; cbn [bind]; [|done].
  intros [= <-]. destruct (ifAddNodeText config); [|apply formatStructure_normal_form].
  apply no_empty_arrays_write_summaries, formatStructure_normal_form.
Qed.

Section ConversionShape.
Variable JSON_stringify : list CleanNode → string.

(** X23: in the tree [mdToTree] returns no node has an empty [nodes]
    array: a node without children has no [nodes] key; and unless
    [ifAddNodeText] is set, no node has a [text]. *)
Theorem mdToTree_output_is_clean content name options r :
  mdToTree JSON_stringify content name options = Ok r →
  Forall (λ t, tn_nodes t ≠ Some []
               ∧ (ifAddNodeText (loadMarkdownConfig options) = false → tn_text t = None))
    (structureToList (structure r)).
Proof.
  intros (F & _ & HG & _)%mdToTree_spec.
  pose proof (summarize_no_empty_arrays _ _ _ HG) as H1.
  pose proof (summarize_spec _ _ _ HG) as H2.
  assert (Forall (λ t, ifAddNodeText (loadMarkdownConfig options) = false → tn_text t = None)
            (structureToList (structure r))) as H3.
  { eapply (nodewise_Forall (λ _, True)); [exact H2| |by apply Forall_true].
    intros t t' (_ & Ht & _) _ _ Hno. by rewrite Hno in Ht. }
  rewrite Forall_forall in H1, H3. apply Forall_forall. intros t Ht. split; auto.
Qed.

(** X24: [mdToTree] returns a [docDescription] exactly when
    [ifAddDocDescription] and [ifAddNodeSummary] are both set and an [llm]
    function is supplied; the description is then what the [llm] function
    answered to the prompt made from the roots of the returned tree. *)
Theorem docDescription_needs_summaries content name options r :
  mdToTree JSON_stringify content name options = Ok r →
  (is_Some (docDescription r)
   ↔ ifAddDocDescription (loadMarkdownConfig options) = true
     ∧ ifAddNodeSummary (loadMarkdownConfig options) = true
     ∧ is_Some (llm (loadMarkdownConfig options)))
  ∧ (∀ d, docDescription r = Some d →
       ∃ f, llm (loadMarkdownConfig options) = Some f
         ∧ generateDocDescription JSON_stringify (structure r) f = Ok d).
Proof.
  unfold mdToTree. set (config := loadMarkdownConfig options).
  destruct (tree_of content config) as [F|e]; cbn [bind]; [|done].
  destruct (summarize config F) as [G|e]; cbn [bind]; [|done].
  unfold describe.
  destruct (ifAddDocDescription config), (ifAddNodeSummary config),
    (llm config) as [f|]; cbn [andb bind];
    try (intros [= <-]; cbn [docDescription structure]; split;
         [split; [by intros [? [=]]|intros (? & ? & ?); by (try done; inversion_clear H1)]
         |by intros ? [=]]).
  destruct (generateDocDescription JSON_stringify G f) as [d|e] eqn:Hd; cbn [bind]; [|done].
  intros [= <-]. cbn [docDescription structure]. split.
  - split; [by intros _|by eexists].
  - intros d' [= <-]. by exists f.
Qed.

End ConversionShape.

(** *** Short sections are summarized by their own text *)

Lemma getNodeSummary_short node threshold f :
  (estimateTokens (default "" (tn_text node)) < threshold)%Z →
  getNodeSummary node threshold f = Ok (default "" (tn_text node)).
Proof. intros H. unfold getNodeSummary. by rewrite (proj2 (Z.ltb_lt _ _) H). Qed.

Lemma mapM_Ok {A B} (f : A → result B) (g : A → B) (l : list A) :
  Forall (λ x, f x = Ok (g x)) l → mapM f l = Ok (g <$> l).
Proof.
  induction 1 as [|x l Hx _ IH]; [done|]. cbn [mapM]. by rewrite Hx, IH.
Qed.

Lemma summarized_by_its_text_own u u' :
  own u' = own u → childless u' = childless u →
  summarized_by_its_text u → summarized_by_its_text u'.
Proof.
  intros (_ & _ & _ & _ & Hs & Hp & Ht)%own_fields Hc.
  unfold summarized_by_its_text, summary_of. by rewrite Hc, Hs, Hp, Ht.
Qed.

Lemma summarized_by_its_text_assign u u' :
  own u' = own (assign_summary (default "" (tn_text u)) u) →
  childless u' = childless u → summarized_by_its_text u'.
Proof.
  intros (_ & _ & _ & _ & Hs & Hp & Ht)%own_fields Hc.
  unfold summarized_by_its_text, summary_of. rewrite Hc, Hs, Hp, Ht.
  unfold assign_summary. by destruct (childless u).
Qed.

Lemma write_self_texts nodes : ∀ summaries F,
  Forall2 (λ q s, ∃ u, deref F q = Some u ∧ s = default "" (tn_text u)) nodes summaries →
  ∀ q u, deref F q = Some u →
  ∃ u', deref (write_summaries nodes summaries F) q = Some u'
    ∧ tn_text u' = tn_text u ∧ childless u' = childless u
    ∧ (q ∈ nodes ∨ summarized_by_its_text u → summarized_by_its_text u').
Proof.
  induction nodes as [|p nodes IH]; intros summaries F Hall q u Hq.
  { exists u. split_and!; [done..|]. intros [Hin|Hs]; [by apply elem_of_nil in Hin|done]. }
  apply Forall2_cons_inv_l in Hall as (s & ss & (up & Hup & Hs) & Hall & ->).
  cbn [write_summaries].
  destruct (deref_mutate (assign_summary s) (assign_summary_nodes s) p q F u Hq)
    as (u1 & Hu1 & Hc1 & Ho1).
  assert (tn_text u1 = tn_text u) as Ht1.
  { destruct (decide (q = p)); apply own_fields in Ho1 as (_ & _ & _ & _ & _ & _ & ->);
      [|done]. unfold assign_summary. by destruct (childless u). }
  assert (q = p ∨ summarized_by_its_text u → summarized_by_its_text u1) as Hw1.
  { intros Hor. destruct (decide (q = p)) as [->|Hne].
    - assert (up = u) as -> by congruence. subst s.
      by apply (summarized_by_its_text_assign u).
    - destruct Hor as [|Hsu]; [done|]. by apply (summarized_by_its_text_own u). }
  destruct (IH ss (mutate (assign_summary s) p F)) with (q := q) (u := u1)
    as (u' & Hu' & Ht' & Hc' & Hw'); [|done|].
  { eapply Forall2_impl; [exact Hall|]. intros q' s' (v & Hv & ->).
    destruct (deref_mutate (assign_summary s) (assign_summary_nodes s) p q' F v Hv)
      as (v1 & Hv1 & _ & Ho).
    exists v1. split; [done|]. f_equal.
    destruct (decide (q' = p)); apply own_fields in Ho as (_ & _ & _ & _ & _ & _ & ->);
      [|done]. unfold assign_summary. by destruct (childless v). }
  exists u'. split_and!; [done|congruence|congruence|].
  intros [[->|Hin]%elem_of_cons|Hsu]; apply Hw'.
  - right. apply Hw1. by left.
  - by left.
  - right. apply Hw1. by right.
Qed.

Lemma generateSummariesForStructureMd_short F threshold f :
  Forall (λ u, (estimateTokens (default "" (tn_text u)) < threshold)%Z)
    (structureToList F) →
  ∃ F', generateSummariesForStructureMd F threshold f = (F', Ok tt)
    ∧ summary_of <$> structureToList F'
      = (λ u, Some (default "" (tn_text u))) <$> structureToList F.
Proof.
  intros Hshort. unfold generateSummariesForStructureMd.
  rewrite (mapM_Ok _ (λ u, default "" (tn_text u))).
  2:{ eapply Forall_impl; [exact Hshort|]. intros u Hu. by apply getNodeSummary_short. }
  eexists. split; [done|].
  set (summaries := (λ u, default "" (tn_text u)) <$> structureToList F).
  pose proof (node_refs_deref F) as Hrefs.
  pose proof (node_refs_deref (write_summaries (node_refs F) summaries F)) as Hrefs'.
  rewrite write_summaries_refs in Hrefs'.
  set (W := write_summaries (node_refs F) summaries F) in *.
  assert (Forall2 (λ q s, ∃ u, deref F q = Some u ∧ s = default "" (tn_text u))
            (node_refs F) summaries) as Hall.
  { unfold summaries. apply Forall2_fmap_r. apply Forall2_flip.
    eapply Forall2_impl; [exact Hrefs|]. intros u q Hq. by exists u. }
  apply list_eq. intros i. rewrite !list_lookup_fmap.
  destruct (structureToList F !! i) as [u|] eqn:Hu.
  - destruct (Forall2_lookup_l _ _ _ _ _ Hrefs Hu) as (q & Hq & Hd).
    destruct (write_self_texts _ _ _ Hall q u Hd) as (u' & Hu' & Ht' & _ & Hw').
    destruct (Forall2_lookup_r _ _ _ _ _ Hrefs' Hq) as (u'' & Hu'' & Hd'').
    fold W in Hu'. assert (u'' = u') as -> by congruence.
    rewrite Hu''. cbn. rewrite <- Ht'. f_equal. apply Hw'. left.
    by eapply list_elem_of_lookup_2.
  - apply Forall2_length in Hrefs, Hrefs'.
    apply lookup_ge_None in Hu. rewrite (lookup_ge_None_2 (structureToList W)); [done|].
    lia.
Qed.

Section ShortSections.
Variable JSON_stringify : list CleanNode → string.

(** X25: where every section text is below [summaryTokenThreshold], the
    [llm] function is not needed for the summaries: whatever it would
    answer or throw, [mdToTree] returns (no description being asked for),
    and every node carries the text of its section as its summary, in the
    field that fits the node. *)
Theorem short_sections_need_no_llm
    content name options (f : LLMFunction) (secs : list MarkdownNode) :
  ifAddNodeSummary (loadMarkdownConfig options) = true →
  llm (loadMarkdownConfig options) = Some f →
  ifAddDocDescription (loadMarkdownConfig options) = false →
  sections_of content (loadMarkdownConfig options) = Ok secs →
  Forall (λ n, (estimateTokens (text_or_empty n)
                < summaryTokenThreshold (loadMarkdownConfig options))%Z) secs →
  ∃ r, mdToTree JSON_stringify content name options = Ok r
    ∧ summary_of <$> structureToList (structure r)
      = (λ n, Some (text_or_empty n)) <$> secs.
Proof.
  set (config := loadMarkdownConfig options). intros Hsum Hllm Hdesc Hsecs Hshort.
  set (F := if ifAddNodeId config
            then (writeNodeId (buildTreeFromNodes secs) 0).1
            else buildTreeFromNodes secs) in *.
  assert (tree_of content config = Ok F) as HF.
  { apply tree_of_spec. by exists secs. }
  destruct (tree_of_fields content config F secs HF Hsecs) as (_ & Htext & _).
  set (F1 := formatStructure F keyOrder).
  assert (tn_text <$> structureToList F1 = md_text <$> secs) as Htext1.
  { rewrite <- Htext. apply (nodewise_fmap _ _ _ _ (formatStructure_keyOrder F)).
    by intros t t' (_ & Ht & _). }
  assert ((λ u, Some (default "" (tn_text u))) <$> structureToList F1
          = (λ n, Some (text_or_empty n)) <$> secs) as Hsummaries.
  { apply (f_equal (fmap (λ o : option string, Some (default "" o)))) in Htext1.
    by rewrite <- !list_fmap_compose in Htext1. }
  destruct (generateSummariesForStructureMd_short F1 (summaryTokenThreshold config) f)
    as (W & HW & HWs).
  { assert (Forall (λ o : option string,
                      (estimateTokens (default "" o) < summaryTokenThreshold config)%Z)
              (tn_text <$> structureToList F1)) as H.
    { rewrite Htext1. apply Forall_fmap. exact Hshort. }
    by rewrite Forall_fmap in H. }
  set (G := if ifAddNodeText config then W else formatStructure W orderWithoutText).
  assert (summarize config F = Ok G) as HG.
  { unfold summarize. rewrite Hsum, Hllm. fold F1. by rewrite HW. }
  exists (mkPageIndexResult name None G). split.
  - unfold mdToTree. fold config. rewrite HF. cbn [bind]. rewrite HG. cbn [bind].
    unfold describe. rewrite Hdesc. done.
  - cbn [structure]. rewrite <- Hsummaries, <- HWs. unfold G.
    destruct (ifAddNodeText config); [done|].
    eapply (nodewise_fmap summary_of (λ t t', summary_of t' = summary_of t));
      [|done].
    eapply nodewise_impl_childless; [apply formatStructure_orderWithoutText|].
    intros t t' (_ & _ & Hs & Hp) Hc. unfold summary_of. by rewrite Hc, Hs, Hp.
Qed.

End ShortSections.

Lemma short_sections_witness :
  ∃ r, mdToTree no_stringify sample_document "doc"
         (options_with (Some failing_llm) None None None) = Ok r
    ∧ summary_of <$> structureToList (structure r)
      = [Some ("# A" +:+ nl +:+ "text1"); Some ("## B" +:+ nl +:+ "text2");
         Some ("## C" +:+ nl +:+ "text3")].
Proof.
  apply (short_sections_need_no_llm no_stringify sample_document "doc"
           (options_with (Some failing_llm) None None None) failing_llm
           [mkMarkdownNode "A" 1 1 (Some ("# A" +:+ nl +:+ "text1")) None;
            mkMarkdownNode "B" 3 2 (Some ("## B" +:+ nl +:+ "text2")) None;
            mkMarkdownNode "C" 5 2 (Some ("## C" +:+ nl +:+ "text3")) None]);
    try reflexivity.
  repeat constructor.
Defined.

(** *** A document without headings *)

Lemma match_hashes_head fuel s k t :
  match_hashes fuel s = Some (k, t) → ∃ r, s = String hash r.
Proof.
  destruct fuel as [|fuel]; [done|]. destruct s as [|c r]; [done|].
  cbn [match_hashes]. destruct (Ascii.eqb_spec c hash) as [->|_]; [|done]. by exists r.
Qed.

Lemma no_hash_split_lines s :
  no_hash s = true → Forall (λ line, no_hash line = true) (split_lines s).
Proof.
  induction s as [|c s IH]; [by repeat constructor|].
  cbn [no_hash split_lines]. intros [Hc Hs]%andb_true_iff. specialize (IH Hs).
  destruct (Ascii.eqb c newline); [by constructor|].
  destruct (split_lines s) as [|l ls]; [repeat constructor; cbn; by rewrite Hc|].
  apply Forall_cons in IH as [Hl Hls]. constructor; [|done].
  cbn [no_hash]. by rewrite Hc, Hl.
Qed.

Lemma no_hash_trim s : no_hash s = true → no_hash (trim s) = true.
Proof.
  intros Hs. unfold trim.
  assert (no_hash (trimStart s) = true) as Hs'.
  { induction s as [|c s IH]; [done|]. cbn [trimStart].
    destruct (is_ws c); [|done]. apply IH. cbn [no_hash] in Hs.
    by apply andb_true_iff in Hs as [_ ?]. }
  clear Hs. induction (trimStart s) as [|c r IH]; [done|].
  cbn [no_hash] in Hs'. apply andb_true_iff in Hs' as [Hc Hr].
  cbn [trimEnd]. destruct (is_ws c && is_empty (trimEnd r)); [done|].
  cbn [no_hash]. by rewrite Hc, IH.
Qed.

Lemma scan_lines_no_hash lines : ∀ k b acc,
  Forall (λ line, no_hash line = true) lines →
  (scan_lines k lines (b, acc)).2 = acc.
Proof.
  induction lines as [|line lines IH]; intros k b acc; [done|].
  intros [Hl Hls]%Forall_cons. cbn [scan_lines].
  assert (∃ b', scan_line k line (b, acc) = (b', acc)) as [b' ->]; [|by apply IH].
  unfold scan_line. destruct (codeBlockPattern _); [by eexists|].
  destruct (is_empty _); [by eexists|]. destruct (negb b); [|by eexists].
  destruct (headerPattern (trim line)) as [[h t]|] eqn:Hh; [|by eexists].
  apply match_hashes_head in Hh as [r Hr].
  apply no_hash_trim in Hl. rewrite Hr in Hl. cbn in Hl. done.
Qed.

Section NoHeadings.
Variable JSON_stringify : list CleanNode → string.

(** X26: a document without any [#] has no heading: every tree
    [mdToTree] returns for it is empty, so that none of its text is in the
    result; and [mdToTree] does return where no description is asked
    for. *)
Theorem document_without_headings_gives_empty_tree content name options :
  no_hash content = true →
  (∀ r, mdToTree JSON_stringify content name options = Ok r → structure r = [])
  ∧ (ifAddDocDescription (loadMarkdownConfig options) = false →
     mdToTree JSON_stringify content name options
     = Ok (mkPageIndexResult name None [])).
Proof.
  intros Hno. unfold mdToTree. set (config := loadMarkdownConfig options).
  assert (tree_of content config = Ok []) as ->.
  { unfold tree_of, sections_of, extractNodesFromMarkdown.
    rewrite scan_lines_no_hash by (by apply no_hash_split_lines).
    cbn [extractNodeTextContent header_nodes bind fill_text].
    by destruct (ifThinning config), (ifAddNodeId config). }
  cbn [bind].
  assert (summarize config [] = Ok []) as ->.
  { unfold summarize.
    by destruct (ifAddNodeSummary config), (llm config), (ifAddNodeText config). }
  cbn [bind]. split.
  - intros r. destruct (describe _ _ _); cbn [bind]; [|done]. by intros [= <-].
  - intros Hd. unfold describe. by rewrite Hd.
Qed.

End NoHeadings.

Lemma document_without_headings_witness :
  mdToTree no_stringify "plain text" "doc" None
  = Ok (mkPageIndexResult "doc" None []).
Proof.
  apply (document_without_headings_gives_empty_tree no_stringify "plain text" "doc" None);
    reflexivity.
Defined.

(** *** Nodes and headings *)

Lemma header_nodes_sublist lines nodeList : ∀ allNodes,
  header_nodes nodeList lines = Ok allNodes →
  section_heading <$> allNodes `sublist_of` scanned_heading <$> nodeList.
Proof.
  induction nodeList as [|[ttl ln] rest IH]; intros allNodes;
    cbn [header_nodes lineNum nodeTitle].
  { by intros [= <-]. }
  destruct ln as [|k]; [done|]. destruct (lines !! k) as [line|]; [|done].
  destruct (header_nodes rest lines) as [nodes|]; [|done]. cbn [bind].
  rewrite fmap_cons. destruct (headerMatch line) as [len|]; intros [= <-].
  - rewrite fmap_cons. by apply sublist_skip, IH.
  - by apply sublist_cons, IH.
Qed.

Lemma fill_text_heading lines allNodes :
  section_heading <$> fill_text lines allNodes = section_heading <$> allNodes.
Proof.
  induction allNodes as [|n r IH]; [done|].
  cbn [fill_text]. rewrite !fmap_cons. by rewrite IH.
Qed.

Lemma updateNodeListWithTextTokenCount_heading l :
  section_heading <$> updateNodeListWithTextTokenCount l = section_heading <$> l.
Proof.
  apply list_eq. intros j.
  rewrite !list_lookup_fmap, updateNodeListWithTextTokenCount_lookup.
  by destruct (l !! j).
Qed.

Lemma treeThinningForIndex_heading l T :
  section_heading <$> treeThinningForIndex l T `sublist_of` section_heading <$> l.
Proof.
  unfold treeThinningForIndex.
  pose proof (thin_loop_headings T (length l) l ∅) as Hh.
  destruct (thin_loop T (length l) (l, ∅)) as [l' rm]. cbn [fst] in Hh.
  rewrite splice_sort_desc.
  assert (section_heading <$> l' = section_heading <$> l) as <-.
  { apply (f_equal (fmap (λ x : string * nat * nat, (x.1.1, Some x.1.2)))) in Hh.
    by rewrite <- !list_fmap_compose in Hh. }
  apply survivors_from_sublist.
Qed.

Lemma buildTreeFromNodes_heading secs :
  node_heading <$> structureToList (buildTreeFromNodes secs) = section_heading <$> secs.
Proof.
  rewrite <- (own_fmap node_heading) by done.
  rewrite buildTreeFromNodes_preorder. generalize 1.
  induction secs as [|n secs IH]; intros c; [done|].
  cbn [expected_from]. rewrite !fmap_cons. by rewrite IH.
Qed.

Lemma node_heading_set_nodeId t t' id :
  own t' = set_nodeId (own t) id → node_heading t' = node_heading t.
Proof.
  destruct t as [a1 a2 a3 a4 a5 a6 a7 a8], t' as [b1 b2 b3 b4 b5 b6 b7 b8].
  unfold own, without_nodes, set_nodes, set_nodeId, node_heading. cbn.
  by intros [= -> _ -> _ _ _ _].
Qed.

Section NodesAndHeadings.
Variable JSON_stringify : list CleanNode → string.

(** X27: the nodes of the tree [mdToTree] returns stand for headings the
    scanner has found: read in the order of [structureToList], their
    titles and start indices are the titles and line numbers of a
    sub-sequence of the scanned headings, each heading taken at most once
    and in document order. *)
Theorem nodes_are_scanned_headings content name options r :
  mdToTree JSON_stringify content name options = Ok r →
  node_heading <$> structureToList (structure r)
    `sublist_of` scanned_heading <$> (extractNodesFromMarkdown content).1.
Proof.
  intros (F & HF & HG & _)%mdToTree_spec.
  set (config := loadMarkdownConfig options) in *.
  apply tree_of_spec in HF as (secs & Hsecs & ->).
  assert (node_heading <$> structureToList (structure r) = section_heading <$> secs) as ->.
  { rewrite (nodewise_fmap node_heading _ _ _ (summarize_spec _ _ _ HG)).
    2:{ intros t t' ((Ht & _ & Hs) & _). unfold node_heading. by rewrite Ht, Hs. }
    destruct (ifAddNodeId config); [|apply buildTreeFromNodes_heading].
    rewrite (nodewise_fmap node_heading _ _ _ (writeNodeId_nodewise _ 0)).
    - apply buildTreeFromNodes_heading.
    - intros t t' [id Hid]. by apply (node_heading_set_nodeId t t' id). }
  unfold sections_of in Hsecs.
  destruct (extractNodesFromMarkdown content) as [nodeList lines]. cbn [fst].
  unfold extractNodeTextContent in Hsecs.
  destruct (header_nodes nodeList lines) as [allNodes|] eqn:Hh; [|done].
  cbn [bind] in Hsecs. apply header_nodes_sublist in Hh.
  destruct (ifThinning config); injection Hsecs as <-.
  - etrans; [apply treeThinningForIndex_heading|].
    by rewrite updateNodeListWithTextTokenCount_heading, fill_text_heading.
  - by rewrite fill_text_heading.
Qed.

End NodesAndHeadings.

(** ** A tree from a table of contents *)

Lemma split_at_nonempty sep s : split_at sep s ≠ [].
Proof.
  destruct s as [|c r]; cbn [split_at]; [done|].
  destruct (Ascii.eqb c sep); [done|]. by destruct (split_at sep r).
Qed.

Lemma join_split_at sep s : join (String sep "") (split_at sep s) = s.
Proof.
  induction s as [|c s IH]; [done|]. cbn [split_at].
  pose proof (split_at_nonempty sep s) as Hne.
  destruct (split_at sep s) as [|l ls]; [done|].
  destruct (Ascii.eqb_spec c sep) as [->|Hc].
  - change (join (String sep "") ("" :: l :: ls))
      with (String sep "" +:+ join (String sep "") (l :: ls)).
    by rewrite IH.
  - rewrite <- IH. by destruct ls.
Qed.

Lemma split_at_no_dot s : no_dot s = true → split_at dot s = [s].
Proof.
  induction s as [|c s IH]; [done|]. cbn [no_dot split_at].
  intros [Hc Hs]%andb_true_iff. apply negb_true_iff in Hc. by rewrite Hc, IH.
Qed.

Lemma split_at_child p c :
  no_dot c = true → split_at dot (p +:+ String dot c) = split_at dot p ++ [c].
Proof.
  intros Hc. induction p as [|a p IH].
  - rewrite string_app_nil_l. cbn [split_at]. rewrite Ascii.eqb_refl.
    by rewrite split_at_no_dot.
  - rewrite string_app_cons. cbn [split_at]. rewrite IH.
    destruct (Ascii.eqb a dot); [done|].
    pose proof (split_at_nonempty dot p) as Hne.
    by destruct (split_at dot p).
Qed.

Lemma split_at_parts s : Forall (λ part, no_dot part = true) (split_at dot s).
Proof.
  induction s as [|c s IH]; [by repeat constructor|]. cbn [split_at].
  destruct (Ascii.eqb c dot) eqn:Hc; [by constructor|].
  destruct (split_at dot s) as [|l ls]; [repeat constructor; cbn; by rewrite Hc|].
  apply Forall_cons in IH as [Hl Hls]. constructor; [|done]. cbn. by rewrite Hc, Hl.
Qed.

Lemma join_snoc sep l c :
  l ≠ [] → join sep (l ++ [c]) = join sep l +:+ sep +:+ c.
Proof.
  induction l as [|x l IH]; [done|]. intros _. destruct l as [|y l]; [done|].
  change (join sep ((x :: y :: l) ++ [c])) with (x +:+ sep +:+ join sep ((y :: l) ++ [c])).
  rewrite IH by done.
  change (join sep (x :: y :: l)) with (x +:+ sep +:+ join sep (y :: l)).
  by rewrite !string_app_assoc.
Qed.

(** X28: [getParentStructure] gives a code exactly for a structure code
    that has a dot, and the code it gives is what stands before the last
    dot: it undoes appending [.] and a dot-free index. A code without a
    dot, the empty code and a missing code give [null]. *)
Theorem getParentStructure_cuts_the_last_index (structure parent : string) :
  (getParentStructure (Some structure) = Some parent
   ↔ ∃ index, structure = parent +:+ String dot index ∧ no_dot index = true)
  ∧ (no_dot structure = true → getParentStructure (Some structure) = None)
  ∧ getParentStructure None = None.
Proof.
  split_and!; [split| |done].
  - unfold getParentStructure. destruct (is_empty structure); [done|].
    pose proof (join_split_at dot structure) as Hjoin.
    pose proof (split_at_parts structure) as Hparts.
    destruct (split_at dot structure) as [|x parts] using rev_ind; [done|]. clear IHparts.
    rewrite length_app, removelast_last. cbn [length].
    destruct parts as [|y parts]; [done|].
    replace (1 <? length (y :: parts) + 1)%nat with true
      by (symmetry; apply Nat.ltb_lt; cbn; lia).
    intros [= <-]. exists x. apply Forall_app in Hparts as [_ [Hx _]%Forall_cons].
    split; [|done]. by rewrite <- Hjoin, join_snoc.
  - intros (index & -> & Hindex). unfold getParentStructure.
    assert (is_empty (parent +:+ String dot index) = false) as ->.
    { destruct parent; [done|]. by rewrite string_app_cons. }
    rewrite split_at_child by done. rewrite length_app, removelast_last.
    pose proof (split_at_nonempty dot parent) as Hne.
    destruct (split_at dot parent) as [|x l] eqn:Hs; [done|].
    replace (1 <? length (x :: l) + length [index])%nat with true
      by (symmetry; apply Nat.ltb_lt; cbn; lia).
    by rewrite <- Hs, join_split_at.
  - intros Hno. unfold getParentStructure. destruct (is_empty structure); [done|].
    by rewrite split_at_no_dot.
Qed.

Lemma getParentStructure_witness :
  getParentStructure (Some "1") = None.
Proof.
  exact (proj1 (proj2 (getParentStructure_cuts_the_last_index "1" "")) eq_refl).
Defined.

Section grows.
Variable f : TreeNode → TreeNode.
Hypothesis Hf : ∀ t, ∃ extra, tn_nodes (f t) = (λ cs, cs ++ extra) <$> tn_nodes t.

Lemma alter_node_grows_nodes p t :
  is_Some (tn_nodes t) → is_Some (tn_nodes (alter_node f p t)).
Proof.
  intros [cs Hcs]. destruct p as [|i p]; cbn [alter_node].
  - destruct (Hf t) as [extra ->]. rewrite Hcs. by eexists.
  - cbn. rewrite Hcs. by eexists.
Qed.

Lemma get_node_grows q : ∀ p t v,
  get_node q t = Some v →
  ∃ v', get_node q (alter_node f p t) = Some v'
    ∧ (is_Some (tn_nodes v) → is_Some (tn_nodes v')).
Proof.
  induction q as [|j q IH]; intros p t v; cbn [get_node].
  { intros [= <-]. eexists. split; [done|]. apply alter_node_grows_nodes. }
  destruct (tn_nodes t) as [cs|] eqn:Hcs; [|done]. cbn [mbind option_bind].
  destruct (cs !! j) as [c|] eqn:Hc; [|done]. cbn [mbind option_bind]. intros Hv.
  destruct p as [|i p]; cbn [alter_node].
  - destruct (Hf t) as [extra ->]. rewrite Hcs. cbn.
    rewrite lookup_app_l by (by eapply lookup_lt_Some). rewrite Hc. cbn. eauto.
  - cbn. rewrite Hcs. cbn. destruct (decide (i = j)) as [->|Hne].
    + rewrite list_lookup_alter_eq, Hc. cbn. by apply IH.
    + rewrite list_lookup_alter_ne, Hc by done. cbn. eauto.
Qed.

Lemma deref_grows q p F v :
  deref F q = Some v →
  ∃ v', deref (mutate f p F) q = Some v'
    ∧ (is_Some (tn_nodes v) → is_Some (tn_nodes v')).
Proof.
  destruct q as [|j q]; [done|]. cbn [deref].
  destruct (F !! j) as [t|] eqn:Ht; [|done]. cbn [mbind option_bind]. intros Hv.
  destruct p as [|i p]; cbn [mutate].
  - rewrite Ht. cbn. eauto.
  - destruct (decide (i = j)) as [->|Hne].
    + rewrite list_lookup_alter_eq, Ht. cbn. by apply get_node_grows.
    + rewrite list_lookup_alter_ne, Ht by done. cbn. eauto.
Qed.
End grows.

Lemma push_child_grows x t :
  ∃ extra, tn_nodes (push_child x t) = (λ cs, cs ++ extra) <$> tn_nodes t.
Proof. by exists [x]. Qed.

Lemma titles_alter (g : TreeNode → TreeNode) (ttl : string) cs : ∀ i c,
  cs !! i = Some c →
  tn_title <$> structureToList_node (g c) ≡ₚ ttl :: (tn_title <$> structureToList_node c) →
  tn_title <$> structureToList (alter g i cs) ≡ₚ ttl :: (tn_title <$> structureToList cs).
Proof.
  induction cs as [|c0 cs IH]; intros i c Hi Hg; [done|].
  destruct i as [|i].
  - injection Hi as ->. change (alter g 0 (c :: cs)) with (g c :: cs).
    rewrite !structureToList_cons_node, !fmap_app, Hg. done.
  - change (alter g (S i) (c0 :: cs)) with (c0 :: alter g i cs).
    rewrite !structureToList_cons_node, !fmap_app, (IH i c) by done.
    by rewrite Permutation_middle.
Qed.

Lemma titles_push_node x : kids x = [] → ∀ p t u,
  get_node p t = Some u → is_Some (tn_nodes u) →
  tn_title <$> structureToList_node (alter_node (push_child x) p t)
  ≡ₚ tn_title x :: (tn_title <$> structureToList_node t).
Proof.
  intros Hx. induction p as [|i p IH]; intros t u; cbn [get_node alter_node].
  - intros [= <-] [cs Hcs]. rewrite !structureToList_node_eq.
    unfold push_child, kids. cbn [tn_nodes set_nodes]. rewrite Hcs. cbn.
    rewrite structureToList_app, structureToList_cons, Hx. cbn.
    rewrite fmap_app. cbn. by rewrite <- Permutation_cons_append, Permutation_swap.
  - destruct (tn_nodes t) as [cs|] eqn:Hcs; [|done]. cbn [mbind option_bind].
    destruct (cs !! i) as [c|] eqn:Hc; [|done]. cbn [mbind option_bind].
    intros Hu Hsome. rewrite !structureToList_node_eq. unfold kids.
    cbn [tn_nodes set_nodes]. rewrite Hcs. cbn.
    rewrite (titles_alter _ (tn_title x) cs i c) by eauto.
    apply Permutation_swap.
Qed.

Lemma titles_push x p F u :
  kids x = [] → deref F p = Some u → is_Some (tn_nodes u) →
  tn_title <$> structureToList (mutate (push_child x) p F)
  ≡ₚ tn_title x :: (tn_title <$> structureToList F).
Proof.
  intros Hx. destruct p as [|i p]; [done|]. cbn [deref mutate].
  destruct (F !! i) as [t|] eqn:Ht; [|done]. cbn [mbind option_bind]. intros Hu Hsome.
  apply (titles_alter _ _ F i t Ht). by eapply titles_push_node.
Qed.

Lemma listToTree_step_inv st item :
  refs_valid st →
  refs_valid (listToTree_step st item)
  ∧ tn_title <$> structureToList (lt_rootNodes (listToTree_step st item))
    ≡ₚ toc_title item :: (tn_title <$> structureToList (lt_rootNodes st)).
Proof.
  intros Hvalid. unfold listToTree_step.
  set (code := default "" (toc_structure item)).
  set (node := mkTreeNode (toc_title item) None (toc_physicalIndex item)
                 None None None None (Some [])).
  destruct (match getParentStructure (Some code) with
            | Some parentStructure =>
                if is_empty parentStructure then None else lt_nodes st !! parentStructure
            | None => None
            end) as [p|] eqn:Hp.
  - assert (∃ pc, lt_nodes st !! pc = Some p) as [pc Hpc].
    { destruct (getParentStructure (Some code)) as [ps|]; [|done].
      destruct (is_empty ps); [done|]. eauto. }
    destruct (Hvalid pc p Hpc) as (Hne & u & Hu & [cs Hcs]).
    unfold refs_valid. cbn [lt_rootNodes lt_nodes]. split.
    + intros code' q. rewrite lookup_insert_Some.
      intros [[_ <-]|[_ Hq]].
      * split; [by destruct p|]. exists node.
        rewrite deref_snoc by done.
        rewrite (deref_mutate_same _ _ _ _ Hu). cbn [mbind option_bind].
        unfold push_child at 1. cbn [tn_nodes set_nodes]. rewrite Hcs. cbn.
        rewrite Hu. cbn. rewrite Hcs. rewrite lookup_last. split; [done|by eexists].
      * destruct (Hvalid code' q Hq) as (Hqne & v & Hv & Hsome). split; [done|].
        destruct (deref_grows _ (push_child_grows node) q p _ v Hv) as (v' & Hv' & Hs').
        exists v'. split; [done|auto].
    + by apply (titles_push node p _ u).
  - unfold refs_valid. cbn [lt_rootNodes lt_nodes]. split.
    + intros code' q. rewrite lookup_insert_Some.
      intros [[_ <-]|[_ Hq]].
      * split; [done|]. exists node. cbn [deref]. rewrite lookup_last. cbn.
        split; [done|by eexists].
      * destruct (Hvalid code' q Hq) as (Hqne & v & Hv & Hsome). split; [done|].
        exists v. split; [|done]. destruct q as [|j q]; [done|]. cbn [deref] in *.
        destruct (lt_rootNodes st !! j) as [t|] eqn:Ht; [|done].
        by rewrite lookup_app_l, Ht by (by eapply lookup_lt_Some).
    + rewrite structureToList_app, fmap_app. cbn.
      by rewrite <- Permutation_cons_append.
Qed.

Lemma listToTree_fold data : ∀ st,
  refs_valid st →
  tn_title <$> structureToList (lt_rootNodes (foldl listToTree_step st data))
  ≡ₚ (tn_title <$> structureToList (lt_rootNodes st)) ++ (toc_title <$> data).
Proof.
  induction data as [|item data IH]; intros st Hst; cbn [foldl].
  { by rewrite app_nil_r. }
  destruct (listToTree_step_inv st item Hst) as [Hst' Ht].
  rewrite IH, Ht by done. rewrite fmap_cons. cbn [app]. apply Permutation_middle.
Qed.

Lemma cleanNode_eq t :
  cleanNode t
  = set_nodes t match map cleanNode (kids t) with [] => None | cs => Some cs end.
Proof. by destruct t as [? ? ? ? ? ? ? [[|c cs]|]]. Qed.

Lemma cleanNode_forest F :
  tn_title <$> structureToList (map cleanNode F) = tn_title <$> structureToList F
  ∧ Forall (λ t, tn_nodes t ≠ Some []) (structureToList (map cleanNode F)).
Proof.
  induction F as [|t F [IHk1 IHk2] [IHF1 IHF2]] using forest_ind; [by split|].
  cbn [map]. rewrite !structureToList_cons, !fmap_cons, !fmap_app.
  assert (kids (cleanNode t) = map cleanNode (kids t)) as Hk.
  { rewrite cleanNode_eq. unfold kids at 1. cbn [tn_nodes set_nodes].
    by destruct (map cleanNode (kids t)). }
  rewrite Hk, IHk1, IHF1. split.
  - f_equal. by rewrite cleanNode_eq.
  - constructor; [|by apply Forall_app]. rewrite cleanNode_eq. cbn [tn_nodes set_nodes].
    by destruct (map cleanNode (kids t)).
Qed.

Lemma listToTree_flat data : ∀ st,
  Forall (λ item, no_dot (default "" (toc_structure item)) = true) data →
  lt_rootNodes (foldl listToTree_step st data)
  = lt_rootNodes st
    ++ ((λ item, mkTreeNode (toc_title item) None (toc_physicalIndex item)
                   None None None None (Some [])) <$> data).
Proof.
  induction data as [|item data IH]; intros st; cbn [foldl].
  { by rewrite app_nil_r. }
  intros [Hitem Hdata]%Forall_cons. rewrite IH by done.
  unfold listToTree_step.
  assert (getParentStructure (Some (default "" (toc_structure item))) = None) as ->.
  { unfold getParentStructure. destruct (is_empty _); [done|].
    by rewrite split_at_no_dot. }
  cbn [lt_rootNodes]. rewrite fmap_cons. by rewrite <- app_assoc.
Qed.

(** X29: [listToTree] makes one node of every item: the titles of the
    nodes of the tree are the titles of the items, each as often as it
    occurs; and no node of the tree has an empty [nodes] array. Where no
    structure code has a dot, the tree is the list of the items as
    childless roots, in their order. *)
Theorem listToTree_keeps_every_item (data : list TocItem) :
  tn_title <$> structureToList (listToTree data) ≡ₚ toc_title <$> data
  ∧ Forall (λ t, tn_nodes t ≠ Some []) (structureToList (listToTree data))
  ∧ (Forall (λ item, no_dot (default "" (toc_structure item)) = true) data →
     listToTree data
     = (λ item, mkTreeNode (toc_title item) None (toc_physicalIndex item)
                  None None None None None) <$> data).
Proof.
  unfold listToTree. split_and!.
  - rewrite (proj1 (cleanNode_forest _)), listToTree_fold; [done|].
    intros code p Hp. cbn [lt_nodes] in Hp. by rewrite lookup_empty in Hp.
  - apply cleanNode_forest.
  - intros Hflat. rewrite listToTree_flat by done. cbn [lt_rootNodes app].
    rewrite <- list_fmap_compose. done.
Qed.

Lemma listToTree_witness :
  listToTree [mkTocItem (Some "1") "Intro" (Some 3); mkTocItem (Some "2") "Body" None]
  = [mkTreeNode "Intro" None (Some 3) None None None None None;
     mkTreeNode "Body" None None None None None None None].
Proof.
  refine (proj2 (proj2 (listToTree_keeps_every_item _)) _).
  repeat constructor.
Defined.

(** ** Printing a table of contents *)

Lemma printToc_node_eq indent t :
  printToc_node indent t
  = (repeat_string "  " indent +:+ tn_title t) :: printToc (kids t) (S indent).
Proof. by destruct t as [? ? ? ? ? ? ? [cs|]]. Qed.

Lemma child_refs_toc F cs :
  Forall (λ c, ∀ p indent, p ≠ [] → deref F p = Some c →
            Forall2 (λ line q, ∃ u d, deref F q = Some u ∧ length q = length p + d
                       ∧ line = repeat_string "  " (indent + d) +:+ tn_title u)
              (printToc_node indent c) (node_refs_node p c)) cs →
  ∀ p i indent, (∀ j c, cs !! j = Some c → deref F (p ++ [i + j]) = Some c) →
  Forall2 (λ line q, ∃ u d, deref F q = Some u ∧ length q = S (length p) + d
             ∧ line = repeat_string "  " (indent + d) +:+ tn_title u)
    (printToc cs indent) (child_refs p i cs).
Proof.
  intros IH. induction IH as [|c cs Hc _ IHcs]; intros p i indent Hl; [constructor|].
  change (printToc (c :: cs) indent) with (printToc_node indent c ++ printToc cs indent).
  cbn [child_refs]. apply Forall2_app.
  - eapply Forall2_impl.
    + apply (Hc (p ++ [i]) indent); [apply app_singleton_ne_nil|].
      specialize (Hl 0 c eq_refl). by rewrite Nat.add_0_r in Hl.
    + intros line q (u & d & Hu & Hlen & ->). exists u, d. split_and!; [done| |done].
      rewrite Hlen, length_app. simpl. lia.
  - apply IHcs. intros j c' Hj. specialize (Hl (S j) c' Hj).
    by replace (S i + j) with (i + S j) by lia.
Qed.

Lemma node_refs_node_toc F t : ∀ p indent,
  p ≠ [] → deref F p = Some t →
  Forall2 (λ line q, ∃ u d, deref F q = Some u ∧ length q = length p + d
             ∧ line = repeat_string "  " (indent + d) +:+ tn_title u)
    (printToc_node indent t) (node_refs_node p t).
Proof.
  induction t as [ttl id si ei sm ps tx ns IH] using TreeNode_nested_ind.
  intros p indent Hp Hd. rewrite printToc_node_eq, node_refs_node_eq.
  constructor.
  { eexists _, 0. split_and!; [done|lia|]. by rewrite Nat.add_0_r. }
  unfold kids. cbn [tn_nodes].
  destruct ns as [cs|]; [|constructor]. cbn in IH.
  eapply Forall2_impl.
  - apply (child_refs_toc F cs IH p 0 (S indent)).
    intros j c Hj. rewrite deref_snoc, Hd by done. cbn. by rewrite Hj.
  - intros line q (u & d & Hu & Hlen & ->). exists u, (S d). split_and!; [done|lia|].
    by replace (S indent + d) with (indent + S d) by lia.
Qed.

(** X30: [printToc] writes one line for every node of the tree, in the
    order of [structureToList]: the title of the node behind two spaces
    for each level of the given indentation and two more for each ancestor
    the node has in the tree. The node of a line is told by its path, the
    index of a root followed by child indices: the paths of [node_refs]
    denote the nodes of [structureToList], in its order, and a node whose
    path has [length p] indices has [length p - 1] ancestors. *)
Theorem printToc_lists_the_titles (tree : list TreeNode) (indent : nat) :
  Forall2 (λ line p, ∃ t, deref tree p = Some t
                       ∧ line = repeat_string "  " (indent + (length p - 1)) +:+ tn_title t)
    (printToc tree indent) (node_refs tree)
  ∧ Forall2 (λ t p, deref tree p = Some t) (structureToList tree) (node_refs tree).
Proof.
  split; [|apply node_refs_deref].
  unfold node_refs.
  assert (∀ G i, (∀ j t, G !! j = Some t → tree !! (i + j) = Some t) →
    Forall2 (λ line p, ∃ t, deref tree p = Some t
                         ∧ line = repeat_string "  " (indent + (length p - 1)) +:+ tn_title t)
      (printToc G indent) (node_refs_from i G)) as H.
  { induction G as [|t G IH]; intros i Hl; [constructor|].
    change (printToc (t :: G) indent) with (printToc_node indent t ++ printToc G indent).
    cbn [node_refs_from]. apply Forall2_app.
    - eapply Forall2_impl.
      + apply (node_refs_node_toc tree t [i] indent); [done|].
        cbn [deref]. specialize (Hl 0 t eq_refl). rewrite Nat.add_0_r in Hl.
        by rewrite Hl.
      + intros line q (u & d & Hu & Hlen & ->). exists u. split; [done|].
        rewrite Hlen. simpl. by rewrite Nat.sub_0_r.
    - apply IH. intros j t' Hj. specialize (Hl (S j) t' Hj).
      by replace (S i + j) with (i + S j) by lia. }
  apply (H tree 0). by intros j t.
Qed.

(** ** The conversion on the sample document *)

Lemma mdToTree_output_witness :
  ∃ r, mdToTree no_stringify sample_document "doc" None = Ok r
    ∧ Forall (λ t, tn_nodes t ≠ Some [] ∧ tn_text t = None)
        (structureToList (structure r)).
Proof.
  eexists. split; [vm_compute; reflexivity|].
  eapply Forall_impl.
  - apply (mdToTree_output_is_clean no_stringify sample_document "doc" None).
    vm_compute. reflexivity.
  - intros t [Hnodes Htext]. split; [done|]. apply Htext. reflexivity.
Defined.

Lemma docDescription_witness :
  ∃ r, mdToTree no_stringify sample_document "doc"
         (Some (mkMarkdownOptions (Some constant_llm) None None None
                  (Some true) (Some true) None None)) = Ok r
    ∧ ∃ f, generateDocDescription no_stringify (structure r) f = Ok "a summary".
Proof.
  eexists. split; [vm_compute; reflexivity|].
  destruct (proj2 (docDescription_needs_summaries no_stringify sample_document "doc"
                     (Some (mkMarkdownOptions (Some constant_llm) None None None
                              (Some true) (Some true) None None)) _ eq_refl)
              "a summary" eq_refl) as (f & _ & Hf).
  by exists f.
Defined.

Lemma nodes_are_scanned_headings_witness :
  ∃ r, mdToTree no_stringify sample_document "doc" None = Ok r
    ∧ node_heading <$> structureToList (structure r)
        `sublist_of` scanned_heading <$> (extractNodesFromMarkdown sample_document).1.
Proof.
  eexists. split; [vm_compute; reflexivity|].
  apply (nodes_are_scanned_headings no_stringify sample_document "doc" None).
  vm_compute. reflexivity.
Defined.

(** ** The heading lines and the spans between them *)

Lemma scan_line_heading k line b acc :
  ∃ new, scan_line k line (b, acc) = (xorb b (is_fence_line line), acc ++ new)
    ∧ lineNum <$> new
      = if negb (is_fence_line line) && negb b && matches_header_pattern line
        then [k] else [].
Proof.
  unfold scan_line, is_fence_line, matches_header_pattern.
  destruct (codeBlockPattern (trim line)) eqn:Hf.
  { exists []. rewrite app_nil_r. by destruct b. }
  rewrite xorb_false_r. cbn [negb andb].
  destruct (is_empty (trim line)) eqn:He.
  { exists []. rewrite app_nil_r. split; [done|].
    destruct (trim line); [|done]. by destruct b. }
  destruct b; cbn [negb].
  { exists []. by rewrite app_nil_r. }
  destruct (headerPattern (trim line)) as [[h m2]|].
  - by eexists [_].
  - exists []. by rewrite app_nil_r.
Qed.

Lemma fence_lines_before_app pre rest :
  fence_lines_before (pre ++ rest) (length pre)
  = length (filter (λ line, is_fence_line line = true) pre).
Proof. unfold fence_lines_before. by rewrite take_app_length. Qed.

Lemma scan_lines_heading_lines rest : ∀ pre,
  lineNum <$> (scan_lines (S (length pre)) rest
                 (in_code_block (pre ++ rest) (length pre), [])).2
  = S <$> filter (λ k, is_heading_line (pre ++ rest) k = true)
            (seq (length pre) (length rest)).
Proof.
  induction rest as [|line rest IH]; intros pre; [done|].
  cbn [scan_lines length seq].
  destruct (scan_line_heading (S (length pre)) line
              (in_code_block (pre ++ line :: rest) (length pre)) [])
    as (new & -> & Hnew).
  cbn [app]. rewrite scan_lines_acc, fmap_app, Hnew.
  specialize (IH (pre ++ [line])).
  rewrite <- app_assoc, length_app in IH. cbn [app length] in IH.
  rewrite Nat.add_1_r in IH.
  assert (in_code_block (pre ++ line :: rest) (S (length pre))
          = xorb (in_code_block (pre ++ line :: rest) (length pre)) (is_fence_line line))
    as Hst.
  { unfold in_code_block. rewrite fence_lines_before_app.
    replace (pre ++ line :: rest) with ((pre ++ [line]) ++ rest) by by rewrite <- app_assoc.
    replace (S (length pre)) with (length (pre ++ [line]))
      by (rewrite length_app; simpl; lia).
    rewrite fence_lines_before_app, filter_app, length_app.
    destruct (is_fence_line line) eqn:Hf.
    - rewrite filter_cons_True by done. cbn [filter length].
      rewrite Nat.add_1_r, Nat.odd_succ, <- Nat.negb_odd.
      by destruct (Nat.odd _).
    - rewrite filter_cons_False by congruence. cbn [filter length].
      by rewrite Nat.add_0_r, xorb_false_r. }
  rewrite <- Hst, IH.
  assert (is_heading_line (pre ++ line :: rest) (length pre)
          = negb (is_fence_line line)
            && negb (in_code_block (pre ++ line :: rest) (length pre))
            && matches_header_pattern line) as Hh.
  { unfold is_heading_line. by rewrite list_lookup_middle. }
  rewrite <- Hh.
  destruct (is_heading_line (pre ++ line :: rest) (length pre)) eqn:Hl.
  - by rewrite filter_cons_True by done.
  - by rewrite filter_cons_False by congruence.
Qed.

(** The scanner reports the heading lines of the document, all of them
    and no other line. *)
Lemma extractNodesFromMarkdown_heading_lines content :
  lineNum <$> (extractNodesFromMarkdown content).1
  = S <$> heading_lines (split_lines content).
Proof. apply (scan_lines_heading_lines (split_lines content) []). Qed.

Lemma ascending_from_S lo hi l :
  ascending_from (S lo) (S hi) (S <$> l) → ascending_from lo hi l.
Proof.
  revert lo. induction l as [|x l IH]; intros lo; [done|].
  rewrite fmap_cons. cbn [ascending_from]. intros [Hx Hl]. split; [lia|]. by apply IH.
Qed.

Lemma cut_at_spec lines : ∀ starts lo,
  ascending_from lo (length lines) starts →
  concat (cut_at lines starts) = drop (default (length lines) (head starts)) lines
  ∧ chunk_starts (default (length lines) (head starts)) (cut_at lines starts) = starts
  ∧ Forall (λ c, c ≠ []) (cut_at lines starts).
Proof.
  induction starts as [|k rest IH]; intros lo.
  { intros _. cbn. by rewrite drop_all. }
  cbn [ascending_from]. intros [Hk Hrest].
  destruct (IH _ Hrest) as (Hc & Hs & Hne).
  cbn [cut_at head default concat chunk_starts]. 
  set (e := match rest with k' :: _ => k' | [] => length lines end) in *.
  assert (default (length lines) (head rest) = e) as He by by destruct rest.
  rewrite He in Hc, Hs.
  assert (k < e ≤ length lines) as Hke.
  { unfold e. destruct rest as [|k' r]; [lia|]. cbn [ascending_from] in Hrest. lia. }
  assert (length (slice k e lines) = e - k) as Hlen.
  { unfold slice. rewrite length_take, length_drop. lia. }
  split_and!.
  - rewrite Hc. unfold slice.
    replace (drop e lines) with (drop (e - k) (drop k lines))
      by (rewrite drop_drop; f_equal; lia).
    apply take_drop.
  - f_equal. rewrite Hlen. unfold id. replace (k + (e - k)) with e by lia. done.
  - constructor; [|done]. intros Heq. rewrite Heq in Hlen. simpl in Hlen. lia.
Qed.

Lemma fill_text_cut lines : ∀ allNodes starts,
  md_lineNum <$> allNodes = S <$> starts →
  md_text <$> fill_text lines allNodes
  = (λ c, Some (trim (join nl c))) <$> cut_at lines starts.
Proof.
  induction allNodes as [|n rest IH]; intros [|k starts] H; simplify_eq/=; [done|].
  rewrite (IH starts) by done. f_equal.
  replace (md_lineNum n - 1) with k by lia. do 4 f_equal.
  destruct rest as [|n' rest], starts as [|k' starts]; simplify_eq/=; [done|].
  lia.
Qed.

Lemma strip_ws_chunks chunks :
  strip_ws (foldr (λ c acc, trim (join nl c) +:+ acc) "" chunks)
  = strip_ws (join nl (concat chunks)).
Proof.
  induction chunks as [|c cs IH]; [done|].
  cbn [foldr concat]. by rewrite strip_ws_app, strip_ws_trim, IH, strip_ws_join_app.
Qed.

Lemma concat_node_texts_chunks (f : list string → string) F chunks :
  tn_text <$> F = (λ c, Some (f c)) <$> chunks →
  concat_node_texts F = foldr (λ c acc, f c +:+ acc) "" chunks.
Proof.
  revert chunks. induction F as [|t F IH]; intros [|c cs] H; simplify_eq/=; [done|].
  rewrite H. cbn. f_equal. by apply IH.
Qed.

Lemma heading_lines_unindented lines : ∀ nodeList ks,
  lineNum <$> nodeList = S <$> ks →
  forallb (λ k, match lines !! k with
                | Some line => startsWith line "#"
                | None => false
                end) ks = true →
  forallb (heading_unindented lines) nodeList = true.
Proof.
  induction nodeList as [|h nodeList IH]; intros [|k ks] H; simplify_eq/=; [done|].
  intros [Hk Hks]%andb_true_iff. apply andb_true_iff. split; [|by eapply IH].
  unfold heading_unindented. by rewrite H.
Qed.

(** C2, amended: for every Markdown input converted without thinning
    and with the node texts kept, where no heading line is indented, the
    heading lines cut the lines of the document into a preamble and one
    chunk per heading line, and the texts of the nodes of the tree, leaves
    and inner nodes, read in pre-order, are these chunks, each joined by
    newlines and trimmed: concatenated, they hold the document from its
    first heading line on, apart from white space. The heading lines are
    told of the document alone: outside fenced code blocks, the lines
    that match the header pattern. *)
Theorem C2_all_node_texts_cover_document
    (JSON_stringify : list CleanNode → string) content name options r :
  ifThinning (loadMarkdownConfig options) = false →
  ifAddNodeText (loadMarkdownConfig options) = true →
  no_indented_heading (split_lines content) = true →
  mdToTree JSON_stringify content name options = Ok r →
  ∃ (preamble : list string) (chunks : list (list string)),
    split_lines content = preamble ++ concat chunks
    ∧ heading_lines (split_lines content) = chunk_starts (length preamble) chunks
    ∧ Forall (λ c, c ≠ []) chunks
    ∧ tn_text <$> structureToList (structure r)
      = (λ c, Some (trim (join nl c))) <$> chunks
    ∧ strip_ws (all_text (structure r)) = strip_ws (join nl (concat chunks)).
Proof.
  intros Hthin Htext Hind (F & HF & HG & _)%mdToTree_spec.
  destruct (sections_of_ok content (loadMarkdownConfig options)) as [secs Hsecs].
  destruct (tree_of_fields _ _ _ _ HF Hsecs) as (_ & Htx & _ & _).
  apply summarize_spec in HG. rewrite Htext in HG.
  assert (tn_text <$> structureToList (structure r) = md_text <$> secs) as Hall.
  { rewrite <- Htx. eapply nodewise_fmap; [done|]. by intros t t' (_ & ? & _). }
  pose proof (extractNodesFromMarkdown_heading_lines content) as Hlines.
  pose proof (extractNodesFromMarkdown_ascending content) as Hasc.
  unfold sections_of in Hsecs. unfold no_indented_heading in Hind.
  assert ((extractNodesFromMarkdown content).2 = split_lines content) as Hl2 by done.
  destruct (extractNodesFromMarkdown content) as [nodeList lines].
  cbn [fst snd] in *. subst lines.
  set (lines := split_lines content) in *.
  destruct (header_nodes_unindented lines nodeList
              (heading_lines_unindented lines _ _ Hlines Hind))
    as (allNodes & Hhn & Hln & _).
  unfold extractNodeTextContent in Hsecs. rewrite Hhn, Hthin in Hsecs.
  cbn [bind] in Hsecs. injection Hsecs as <-.
  rewrite Hlines in Hasc, Hln. apply ascending_from_S in Hasc.
  destruct (cut_at_spec lines _ _ Hasc) as (Hc & Hs & Hne).
  rewrite (fill_text_cut lines allNodes _ Hln) in Hall.
  exists (take (default (length lines) (head (heading_lines lines))) lines),
    (cut_at lines (heading_lines lines)).
  split_and!; [|  |done|done|].
  - by rewrite Hc, take_drop.
  - rewrite length_take, Nat.min_l; [done|].
    destruct (heading_lines lines) as [|k ks]; [done|].
    cbn [ascending_from] in Hasc. simpl. lia.
  - unfold all_text.
    rewrite (concat_node_texts_chunks (λ c, trim (join nl c)) _ _ Hall).
    apply strip_ws_chunks.
Qed.

Lemma C2_witness :
  ∃ r, mdToTree no_stringify fenced_document "doc"
         (options_with None None (Some true) None) = Ok r
    ∧ tn_text <$> structureToList (structure r)
      = [Some ("# A" +:+ nl +:+ fence +:+ nl +:+ "# not a heading" +:+ nl +:+ fence);
         Some ("## B" +:+ nl +:+ "b")]
    ∧ ∃ (preamble : list string) (chunks : list (list string)),
        split_lines fenced_document = preamble ++ concat chunks
        ∧ heading_lines (split_lines fenced_document)
          = chunk_starts (length preamble) chunks
        ∧ Forall (λ c, c ≠ []) chunks
        ∧ tn_text <$> structureToList (structure r)
          = (λ c, Some (trim (join nl c))) <$> chunks
        ∧ strip_ws (all_text (structure r)) = strip_ws (join nl (concat chunks)).
Proof.
  eexists. split; [vm_compute; reflexivity|].
  split; [vm_compute; reflexivity|].
  apply (C2_all_node_texts_cover_document no_stringify fenced_document "doc"
           (options_with None None (Some true) None));
    vm_compute; reflexivity.
Defined.

(** ** The identifiers are zero-padded decimals *)

Lemma of_lu_bound d : DecimalNat.Unsigned.of_lu d < 10 ^ DecimalNat.Unsigned.usize d.
Proof.
  induction d; cbn [DecimalNat.Unsigned.of_lu DecimalNat.Unsigned.usize];
    rewrite ?Nat.pow_succ_r'; simpl; lia.
Qed.

Lemma usize_nb_digits d : DecimalNat.Unsigned.usize d = Decimal.nb_digits d.
Proof. induction d; simpl; congruence. Qed.

Lemma length_string_of_uint d :
  String.length (DecimalString.NilEmpty.string_of_uint d) = Decimal.nb_digits d.
Proof. induction d; simpl; congruence. Qed.

Lemma String_of_nat_length k : k < 10 ^ String.length (String_of_nat k).
Proof.
  unfold String_of_nat.
  rewrite length_string_of_uint, DecimalNat.Unsigned.to_uint_alt,
    DecimalFacts.nb_digits_rev, <- usize_nb_digits.
  rewrite <- (DecimalNat.Unsigned.of_to_lu k) at 1. apply of_lu_bound.
Qed.

Lemma format_id_small :
  forallb (λ k, String.eqb (format_id k) (zero_padded k)) (seq 0 1000) = true.
Proof. vm_compute. reflexivity. Qed.

Lemma format_id_zero_padded k : format_id k = zero_padded k.
Proof.
  destruct (decide (k < 1000)) as [Hk|Hk].
  - apply String.eqb_eq.
    apply (proj1 (forallb_forall _ _) format_id_small k).
    apply in_seq. lia.
  - assert (4 ≤ String.length (String_of_nat k)) as Hlen.
    { pose proof (String_of_nat_length k) as Hb.
      destruct (decide (4 ≤ String.length (String_of_nat k))) as [|Hn]; [done|].
      assert (10 ^ String.length (String_of_nat k) ≤ 10 ^ 3) as Hp
        by (apply Nat.pow_le_mono_r; lia).
      change (10 ^ 3) with 1000 in Hp. lia. }
    unfold format_id, padStart, zero_padded.
    replace (4 - String.length (String_of_nat k)) with 0 by lia.
    destruct (k <? 10) eqn:H1; [apply Nat.ltb_lt in H1; lia|].
    destruct (k <? 100) eqn:H2; [apply Nat.ltb_lt in H2; lia|].
    destruct (k <? 1000) eqn:H3; [apply Nat.ltb_lt in H3; lia|].
    done.
Qed.

Lemma zero_padded_ids (l : list nat) :
  (λ k, Some (format_id k)) <$> l = (λ k, Some (zero_padded k)) <$> l.
Proof. apply list_fmap_ext. intros _ k _. by rewrite format_id_zero_padded. Qed.

Lemma zero_padded_NoDup n m :
  NoDup ((λ k, Some (zero_padded k)) <$> seq n m).
Proof.
  apply NoDup_fmap_2; [|apply NoDup_seq].
  intros a b [= Hab]. rewrite <- !format_id_zero_padded in Hab. by apply format_id_inj.
Qed.

(** C6: for every tree, [writeNodeId] writes identifiers that, read in
    pre-order, are the zero-padded decimals of 0, 1, 2, ... in this order,
    one per node: "0000", "0001" and so on, a contiguous sequence without
    gaps and without repeats. With [ifAddNodeId] on, these are the
    identifiers of the tree [mdToTree] returns. *)
Theorem C6_node_ids_contiguous_in_preorder
    (JSON_stringify : list CleanNode → string) (data : list TreeNode)
    content name options r :
  (tn_nodeId <$> structureToList (writeNodeId data 0).1
   = (λ k, Some (zero_padded k)) <$> seq 0 (length (structureToList data))
   ∧ NoDup (tn_nodeId <$> structureToList (writeNodeId data 0).1))
  ∧ (ifAddNodeId (loadMarkdownConfig options) = true →
     mdToTree JSON_stringify content name options = Ok r →
     tn_nodeId <$> structureToList (structure r)
     = (λ k, Some (zero_padded k)) <$> seq 0 (length (structureToList (structure r)))
     ∧ NoDup (tn_nodeId <$> structureToList (structure r))).
Proof.
  split.
  - destruct (writeNodeId_spec data 0) as [H _]. rewrite H, zero_padded_ids.
    split; [done|apply zero_padded_NoDup].
  - intros Hid Hr.
    rewrite (mdToTree_node_ids JSON_stringify content name options r Hid Hr),
      zero_padded_ids.
    split; [done|apply zero_padded_NoDup].
Qed.

Lemma C6_witness :
  ∃ r, mdToTree no_stringify sample_document "doc" None = Ok r
    ∧ tn_nodeId <$> structureToList (structure r)
      = [Some "0000"; Some "0001"; Some "0002"]
    ∧ tn_nodeId <$> structureToList
        (writeNodeId (buildTreeFromNodes two_small_sections) 0).1
      = [Some "0000"; Some "0001"].
Proof.
  eexists. split; [vm_compute; reflexivity|]. split.
  - etrans.
    + apply (C6_node_ids_contiguous_in_preorder no_stringify [] sample_document
               "doc" None); vm_compute; reflexivity.
    + vm_compute. reflexivity.
  - etrans.
    + apply (C6_node_ids_contiguous_in_preorder no_stringify
               (buildTreeFromNodes two_small_sections) "" "" None
               (mkPageIndexResult "" None [])).
    + vm_compute. reflexivity.
Defined.
